(** * NeRF-Texture renderer core: shallow embedding and verified properties

    The development embeds two source files:

    - [Implementation_code/spherical_harmonics.py]
      ([evaluate_spherical_harmonics]), in module [SphericalHarmonics];
    - [Implementation_code/renderer.py]: [sample_pdf] in module
      [SamplePdf]; [NeRFRenderer.run] and [NeRFRenderer.render] in module
      [NeRFRenderer]; [NeRFRenderer.mark_untrained_grid],
      [NeRFRenderer.update_extra_state], [NeRFRenderer.initialize_states],
      [NeRFRenderer.reset_extra_state], [NeRFRenderer.sample] and the
      cascade count of the constructor in module [DensityGrid]; the
      inference branch of [NeRFRenderer.run_cuda] in module [RunCuda];
      [switch_visual_mode], [switch_light_mode], [camera_regularization]
      and [regular_loss] in module [RendererControls].

    Python floats are idealised as real numbers ([R]); tensors are lists
    (one list per trailing dimension); Python exceptions are values of an
    error type or [None]. *)

From Stdlib Require Import Reals Lra Lia ZArith List Bool Permutation Sorted.
From stdpp Require Import base option list.
Import ListNotations.

Local Open Scope R_scope.

(** ** Real-number helpers shared by all modules *)

(** Comparison operators of the tensor library, as booleans. *)
Definition Rltb (x y : R) : bool := if Rlt_dec x y then true else false.
Definition Rleb (x y : R) : bool := if Rle_dec x y then true else false.

Lemma Rltb_true x y : x < y -> Rltb x y = true.
Proof. intros H. unfold Rltb. destruct (Rlt_dec x y); [reflexivity | contradiction]. Qed.

Lemma Rltb_false x y : y <= x -> Rltb x y = false.
Proof. intros H. unfold Rltb. destruct (Rlt_dec x y); [lra | reflexivity]. Qed.

Lemma Rleb_true x y : x <= y -> Rleb x y = true.
Proof. intros H. unfold Rleb. destruct (Rle_dec x y); [reflexivity | contradiction]. Qed.

Lemma Rleb_false x y : y < x -> Rleb x y = false.
Proof. intros H. unfold Rleb. destruct (Rle_dec x y); [lra | reflexivity]. Qed.

Lemma Rltb_spec x y : Rltb x y = true <-> x < y.
Proof. unfold Rltb. destruct (Rlt_dec x y); split; intros; try easy. Qed.

Lemma Rleb_spec x y : Rleb x y = true <-> x <= y.
Proof. unfold Rleb. destruct (Rle_dec x y); split; intros; try easy. Qed.

(** Decide every comparison of the goal whose operands [lra] can order. *)
Ltac rcmp :=
  repeat match goal with
  | |- context [Rltb ?a ?b] =>
      first [ rewrite (Rltb_true a b) by lra | rewrite (Rltb_false a b) by lra ]
  | |- context [Rleb ?a ?b] =>
      first [ rewrite (Rleb_true a b) by lra | rewrite (Rleb_false a b) by lra ]
  end.

(** [torch.sum] over the last dimension. *)
Definition Rsum (l : list R) : R := fold_right Rplus 0 l.

Lemma Rsum_app l1 l2 : Rsum (l1 ++ l2) = Rsum l1 + Rsum l2.
Proof. induction l1 as [|a l1 IH]; simpl; [lra | rewrite IH; lra]. Qed.

(** ** Exceptions of the tensor code *)

(** What stops a call of the renderer's tensor code: the tensor library's
    [RuntimeError] (an index out of range, shapes that do not fit),
    Python's [ZeroDivisionError], and [NonFinite], which stands for a
    tensor division by zero: the floating-point code goes on with [inf] or
    [nan], the model stops there. [OutOfFuel] is the answer of a loop of
    the model that was given too few iterations. *)
Inductive py_error : Type :=
| RuntimeError
| ZeroDivisionError
| NonFinite
| OutOfFuel.

Definition res (A : Type) : Type := py_error + A.

Definition Ok {A} (a : A) : res A := inr a.
Definition Err {A} (e : py_error) : res A := inl e.

Definition res_bind {A B} (m : res A) (f : A -> res B) : res B :=
  match m with
  | inl e => inl e
  | inr a => f a
  end.

Notation "'let!' x ':=' m 'in' k" := (res_bind m (fun x => k))
  (at level 10, x name, m at level 100, k at level 200, only parsing).

(** A tensor operation applied entry by entry: the first exception wins. *)
Fixpoint res_map {A B} (f : A -> res B) (l : list A) : res (list B) :=
  match l with
  | [] => Ok []
  | a :: l' =>
      let! b := f a in
      let! bs := res_map f l' in
      Ok (b :: bs)
  end.

(** Division of two entries: finite unless the divisor is zero. *)
Definition checked_div (x y : R) : res R :=
  if Req_dec_T y 0 then Err NonFinite else Ok (x / y).

Lemma checked_div_ok x y : y <> 0 -> checked_div x y = Ok (x / y).
Proof. intros H. unfold checked_div. destruct (Req_dec_T y 0); [contradiction | reflexivity]. Qed.

Lemma res_map_ok {A B} (f : A -> res B) (g : A -> B) (l : list A) :
  (forall a, In a l -> f a = Ok (g a)) -> res_map f l = Ok (map g l).
Proof.
  induction l as [|a l IH]; intros H; simpl; [reflexivity|].
  rewrite (H a) by (left; reflexivity). simpl.
  rewrite IH by (intros b Hb; apply H; right; exact Hb). reflexivity.
Qed.


Lemma res_map_In {A B} (f : A -> res B) (l : list A) (out : list B) (b : B) :
  res_map f l = Ok out -> In b out -> exists a, In a l /\ f a = Ok b.
Proof.
  revert out. induction l as [|a l IH]; intros out H Hb; simpl in H.
  - injection H as <-. destruct Hb.
  - destruct (f a) as [e | b'] eqn:Ea; simpl in H; [discriminate H|].
    destruct (res_map f l) as [e | bs]; simpl in H; [discriminate H|].
    injection H as <-. destruct Hb as [<- | Hb].
    + exists a. split; [left; reflexivity | exact Ea].
    + destruct (IH bs eq_refl Hb) as [a' [Ha' Hf]]. exists a'. split; [right; exact Ha' | exact Hf].
Qed.

(** ** Spherical harmonics ([spherical_harmonics.py]) *)

Module SphericalHarmonics.

Definition C0 : R := 0.28209479177387814.
Definition C1 : R := 0.4886025119029199.
Definition C2 : list R :=
  [ 1.0925484305920792;
    -1.0925484305920792;
    0.31539156525252005;
    -1.0925484305920792;
    0.5462742152960396 ].
Definition C3 : list R :=
  [ -0.5900435899266435;
    2.890611442640554;
    -0.4570457994644658;
    0.3731763325901154;
    -0.4570457994644658;
    1.445305721320277;
    -0.5900435899266435 ].
Definition C4 : list R :=
  [ 2.5033429417967046;
    -1.7701307697799304;
    0.9461746957575601;
    -0.6690465435572892;
    0.10578554691520431;
    -0.6690465435572892;
    0.47308734787878004;
    -1.7701307697799304;
    0.6258357354491761 ].

(** The exceptions the function can raise: the two [assert]s, and
    Python's [IndexError] for a subscript that is out of range. *)
Inductive sh_error : Type :=
| UnsupportedDegree
| CoeffCountMismatch (got expected : Z)
| IndexError (i : nat).

(** What the function reads of its tensor arguments: an entry of the last
    dimension of [sh_coeffs], or a component of [viewdirs]. Reading
    [sh_coeffs.shape] is no such read. *)
Inductive event : Type :=
| ReadCoeff (i : nat)
| ReadDir (i : nat).

(** Evaluation: the reads done so far, and an exception or a value. *)
Definition M (A : Type) : Type := list event * (sh_error + A).

Definition ret {A} (a : A) : M A := ([], inr a).
Definition raise {A} (e : sh_error) : M A := ([], inl e).
Definition bind {A B} (m : M A) (f : A -> M B) : M B :=
  match m with
  | (t, inl e) => (t, inl e)
  | (t, inr a) => let '(t', r) := f a in (t ++ t', r)
  end.

Notation "'let*' x ':=' m 'in' k" := (bind m (fun x => k))
  (at level 10, x name, m at level 100, k at level 200, only parsing).
Notation "'do*' m 'in' k" := (bind m (fun _ => k))
  (at level 10, m at level 100, k at level 200, only parsing).

Definition py_assert (b : bool) (e : sh_error) : M unit :=
  if b then ret tt else raise e.

(** [sh_coeffs[..., i]] *)
Definition coeff (sh_coeffs : list R) (i : nat) : M R :=
  match nth_error sh_coeffs i with
  | Some c => ([ReadCoeff i], inr c)
  | None => raise (IndexError i)
  end.

(** [C2[i]], [C3[i]], [C4[i]]: subscript of a module-level list. *)
Definition const_at (table : list R) (i : nat) : M R :=
  match nth_error table i with
  | Some c => ret c
  | None => raise (IndexError i)
  end.

(** [viewdirs[..., i:i+1]] for a direction with three components. *)
Definition dir (viewdirs : R * R * R) (i : nat) : M R :=
  let '(x, y, z) := viewdirs in
  ([ReadDir i], inr (match i with O => x | S O => y | _ => z end)).

(** The degree-4 band (lines 74-88), over the table it subscripts. *)
Definition band4 (c4 sh_coeffs : list R) (result x y z xx yy zz xy yz xz : R) : M R :=
  let* k0 := const_at c4 0 in let* s16 := coeff sh_coeffs 16 in
  let* k1 := const_at c4 1 in let* s17 := coeff sh_coeffs 17 in
  let* k2 := const_at c4 2 in let* s18 := coeff sh_coeffs 18 in
  let* k3 := const_at c4 3 in let* s19 := coeff sh_coeffs 19 in
  let* k4 := const_at c4 4 in let* s20 := coeff sh_coeffs 20 in
  let* k5 := const_at c4 5 in let* s21 := coeff sh_coeffs 21 in
  let* k6 := const_at c4 6 in let* s22 := coeff sh_coeffs 22 in
  let* k7 := const_at c4 7 in let* s23 := coeff sh_coeffs 23 in
  let* k8 := const_at c4 8 in let* s24 := coeff sh_coeffs 24 in
  ret (result
       + k0 * xy * (xx - yy) * s16
       + k1 * yz * (3 * xx - yy) * s17
       + k2 * xy * (7 * zz - 1) * s18
       + k3 * yz * (7 * zz - 3) * s19
       + k4 * (zz * (35 * zz - 30) + 3) * s20
       + k5 * xz * (7 * zz - 3) * s21
       + k6 * (xx - yy) * (7 * zz - 1) * s22
       + k7 * xz * (xx - 3 * yy) * s23
       + k8 * (xx * (xx - 3 * yy) - yy * (3 * xx - yy)) * s24).

(** The degree-3 band (lines 63-73), followed by the guard of band 4. *)
Definition band3 (c4 : list R) (degree : Z) (sh_coeffs : list R)
    (result x y z xx yy zz xy yz xz : R) : M R :=
  let* k0 := const_at C3 0 in let* s9 := coeff sh_coeffs 9 in
  let* k1 := const_at C3 1 in let* s10 := coeff sh_coeffs 10 in
  let* k2 := const_at C3 2 in let* s11 := coeff sh_coeffs 11 in
  let* k3 := const_at C3 3 in let* s12 := coeff sh_coeffs 12 in
  let* k4 := const_at C3 4 in let* s13 := coeff sh_coeffs 13 in
  let* k5 := const_at C3 5 in let* s14 := coeff sh_coeffs 14 in
  let* k6 := const_at C3 6 in let* s15 := coeff sh_coeffs 15 in
  let result :=
    result
    + k0 * y * (3 * xx - yy) * s9
    + k1 * xy * z * s10
    + k2 * y * (4 * zz - xx - yy) * s11
    + k3 * z * (2 * zz - 3 * xx - 3 * yy) * s12
    + k4 * x * (4 * zz - xx - yy) * s13
    + k5 * z * (xx - yy) * s14
    + k6 * x * (xx - 3 * yy) * s15 in
  if (degree >? 3)%Z
  then band4 c4 sh_coeffs result x y z xx yy zz xy yz xz
  else ret result.

(** The degree-2 band (lines 52-62), followed by the guard of band 3. *)
Definition band2 (c4 : list R) (degree : Z) (sh_coeffs : list R)
    (result x y z : R) : M R :=
  let xx := x * x in let yy := y * y in let zz := z * z in
  let xy := x * y in let yz := y * z in let xz := x * z in
  let* k0 := const_at C2 0 in let* s4 := coeff sh_coeffs 4 in
  let* k1 := const_at C2 1 in let* s5 := coeff sh_coeffs 5 in
  let* k2 := const_at C2 2 in let* s6 := coeff sh_coeffs 6 in
  let* k3 := const_at C2 3 in let* s7 := coeff sh_coeffs 7 in
  let* k4 := const_at C2 4 in let* s8 := coeff sh_coeffs 8 in
  let result :=
    result
    + k0 * xy * s4
    + k1 * yz * s5
    + k2 * (2.0 * zz - xx - yy) * s6
    + k3 * xz * s7
    + k4 * (xx - yy) * s8 in
  if (degree >? 2)%Z
  then band3 c4 degree sh_coeffs result x y z xx yy zz xy yz xz
  else ret result.

(** The degree-1 band (lines 44-51), followed by the guard of band 2. *)
Definition band1 (c4 : list R) (degree : Z) (sh_coeffs : list R)
    (viewdirs : R * R * R) (result : R) : M R :=
  let* x := dir viewdirs 0 in let* y := dir viewdirs 1 in let* z := dir viewdirs 2 in
  let* s1 := coeff sh_coeffs 1 in
  let* s2 := coeff sh_coeffs 2 in
  let* s3 := coeff sh_coeffs 3 in
  let result := result - C1 * y * s1 + C1 * z * s2 - C1 * x * s3 in
  if (degree >? 1)%Z
  then band2 c4 degree sh_coeffs result x y z
  else ret result.

(** [evaluate_spherical_harmonics], over the table [c4] that the
    degree-4 band subscripts. *)
Definition evaluate_with (c4 : list R) (degree : Z) (sh_coeffs : list R)
    (viewdirs : R * R * R) : M R :=
  do* py_assert ((degree <? 4)%Z && (degree >=? 0)%Z) UnsupportedDegree in
  do* py_assert (((degree + 1) ^ 2 =? Z.of_nat (length sh_coeffs))%Z)
    (CoeffCountMismatch (Z.of_nat (length sh_coeffs)) ((degree + 1) ^ 2)) in
  let* s0 := coeff sh_coeffs 0 in
  let result := C0 * s0 in
  if (degree >? 0)%Z
  then band1 c4 degree sh_coeffs viewdirs result
  else ret result.

(** The function as the module defines it, with its own table [C4]. *)
Definition evaluate_spherical_harmonics : Z -> list R -> R * R * R -> M R :=
  evaluate_with C4.

Definition trace {A} (m : M A) : list event := fst m.
Definition outcome {A} (m : M A) : sh_error + A := snd m.
Definition fails {A} (m : M A) : Prop := exists e, outcome m = inl e.

Definition succeeds {A} (m : M A) : Prop := exists a, outcome m = inr a.

(** *** Evaluation lemmas *)

Lemma fails_iff_not_succeeds {A} (m : M A) : fails m <-> ~ succeeds m.
Proof.
  unfold fails, succeeds, outcome. destruct m as [t [e | a]]; simpl; split.
  - intros _ [a Ha]. discriminate Ha.
  - intros _. exists e. reflexivity.
  - intros [e He]. discriminate He.
  - intros H. exfalso. apply H. exists a. reflexivity.
Qed.

Lemma succeeds_ret {A} (a : A) : succeeds (ret a).
Proof. exists a. reflexivity. Qed.

Lemma succeeds_bind {A B} (m : M A) (f : A -> M B) :
  succeeds m -> (forall a, succeeds (f a)) -> succeeds (bind m f).
Proof.
  intros [a Ha] Hf. destruct m as [t [e | a']]; simpl in Ha; [discriminate Ha|].
  destruct (Hf a') as [b Hb]. unfold bind, succeeds, outcome in *.
  destruct (f a') as [t' r]. simpl in *. exists b. exact Hb.
Qed.

Lemma succeeds_coeff (sh_coeffs : list R) (i : nat) :
  (i < length sh_coeffs)%nat -> succeeds (coeff sh_coeffs i).
Proof.
  intros Hi. unfold coeff. destruct (nth_error sh_coeffs i) as [c|] eqn:E.
  - exists c. reflexivity.
  - apply nth_error_None in E. lia.
Qed.

Lemma succeeds_const_at (table : list R) (i : nat) :
  (i < length table)%nat -> succeeds (const_at table i).
Proof.
  intros Hi. unfold const_at. destruct (nth_error table i) as [c|] eqn:E.
  - apply succeeds_ret.
  - apply nth_error_None in E. lia.
Qed.

Lemma succeeds_dir (viewdirs : R * R * R) (i : nat) : succeeds (dir viewdirs i).
Proof. destruct viewdirs as [[x y] z]. eexists. reflexivity. Qed.

Lemma gtb_false (d k : Z) : (d <= k)%Z -> (d >? k)%Z = false.
Proof. intros H. rewrite Z.gtb_ltb. apply Z.ltb_ge. exact H. Qed.

(** One step of a band: the next subscript is in range. *)
Ltac band_step :=
  first
    [ apply succeeds_ret
    | apply succeeds_bind;
      [ first [ apply succeeds_dir
              | apply succeeds_const_at; simpl; lia
              | apply succeeds_coeff; lia ]
      | intros ? ] ].

Lemma succeeds_band3 c4 degree sh_coeffs result x y z xx yy zz xy yz xz :
  (degree <= 3)%Z -> (16 <= length sh_coeffs)%nat ->
  succeeds (band3 c4 degree sh_coeffs result x y z xx yy zz xy yz xz).
Proof.
  intros Hd Hlen. unfold band3.
  rewrite gtb_false by lia.
  repeat band_step.
Qed.

Lemma succeeds_band2 c4 degree sh_coeffs result x y z :
  (degree <= 3)%Z -> (9 <= length sh_coeffs)%nat ->
  ((2 < degree)%Z -> (16 <= length sh_coeffs)%nat) ->
  succeeds (band2 c4 degree sh_coeffs result x y z).
Proof.
  intros Hd Hlen H3. unfold band2. do 10 band_step.
  destruct (degree >? 2)%Z eqn:E.
  - apply succeeds_band3; [lia | apply H3; lia].
  - apply succeeds_ret.
Qed.

Lemma succeeds_band1 c4 degree sh_coeffs viewdirs result :
  (degree <= 3)%Z -> (4 <= length sh_coeffs)%nat ->
  ((1 < degree)%Z -> (9 <= length sh_coeffs)%nat) ->
  ((2 < degree)%Z -> (16 <= length sh_coeffs)%nat) ->
  succeeds (band1 c4 degree sh_coeffs viewdirs result).
Proof.
  intros Hd Hlen H2 H3. unfold band1. do 6 band_step.
  destruct (degree >? 1)%Z eqn:E.
  - apply succeeds_band2; [lia | apply H2; lia | exact H3].
  - apply succeeds_ret.
Qed.

(** With both assertions true, every subscript of the body is in range. *)
Lemma valid_input_succeeds c4 degree sh_coeffs viewdirs :
  (0 <= degree <= 3)%Z -> ((degree + 1) ^ 2 = Z.of_nat (length sh_coeffs))%Z ->
  succeeds (evaluate_with c4 degree sh_coeffs viewdirs).
Proof.
  intros Hd Hlen. unfold evaluate_with.
  replace ((degree <? 4)%Z && (degree >=? 0)%Z) with true
    by (symmetry; apply andb_true_iff; split; [apply Z.ltb_lt | apply Z.geb_le]; lia).
  rewrite (proj2 (Z.eqb_eq _ _) Hlen).
  assert (HL : (degree = 0%Z /\ length sh_coeffs = 1%nat) \/
               (degree = 1%Z /\ length sh_coeffs = 4%nat) \/
               (degree = 2%Z /\ length sh_coeffs = 9%nat) \/
               (degree = 3%Z /\ length sh_coeffs = 16%nat)).
  { assert (Hcases : degree = 0%Z \/ degree = 1%Z \/ degree = 2%Z \/ degree = 3%Z) by lia.
    destruct Hcases as [-> | [-> | [-> | ->]]]; simpl in Hlen; lia. }
  apply succeeds_bind; [apply succeeds_ret | intros _].
  apply succeeds_bind; [apply succeeds_ret | intros _].
  apply succeeds_bind; [apply succeeds_coeff; lia | intros s0].
  destruct (degree >? 0)%Z eqn:E.
  - apply Z.gtb_lt in E. apply succeeds_band1; lia.
  - apply succeeds_ret.
Qed.

(** A failed assertion stops the call with nothing read. *)
Lemma invalid_degree_raises c4 degree sh_coeffs viewdirs :
  (degree < 0 \/ 3 < degree)%Z ->
  evaluate_with c4 degree sh_coeffs viewdirs = ([], inl UnsupportedDegree).
Proof.
  intros Hd. unfold evaluate_with.
  replace ((degree <? 4)%Z && (degree >=? 0)%Z) with false; [reflexivity|].
  symmetry. apply andb_false_iff. destruct Hd; [right | left].
  - rewrite Z.geb_leb. apply Z.leb_gt. lia.
  - apply Z.ltb_ge. lia.
Qed.

Lemma count_mismatch_raises c4 degree sh_coeffs viewdirs :
  (0 <= degree <= 3)%Z -> ((degree + 1) ^ 2 <> Z.of_nat (length sh_coeffs))%Z ->
  evaluate_with c4 degree sh_coeffs viewdirs =
  ([], inl (CoeffCountMismatch (Z.of_nat (length sh_coeffs)) ((degree + 1) ^ 2))).
Proof.
  intros Hd Hlen. unfold evaluate_with.
  replace ((degree <? 4)%Z && (degree >=? 0)%Z) with true
    by (symmetry; apply andb_true_iff; split; [apply Z.ltb_lt | apply Z.geb_le]; lia).
  rewrite (proj2 (Z.eqb_neq _ _) Hlen). reflexivity.
Qed.

(** *** Concrete evaluations *)

(** Degree 0 on direction (0,0,1) with coefficient [1] returns [C0],
    after reading that one coefficient. *)
Example degree0_returns_C0 :
  evaluate_spherical_harmonics 0 [1] (0, 0, 1) = ([ReadCoeff 0], inr (C0 * 1)).
Proof. reflexivity. Qed.

Example degree4_is_rejected :
  evaluate_spherical_harmonics 4 (repeat 1 25) (0, 0, 1) = ([], inl UnsupportedDegree).
Proof. apply invalid_degree_raises. lia. Qed.

Example three_coeffs_for_degree1_rejected :
  evaluate_spherical_harmonics 1 [1; 2; 3] (0, 0, 1) = ([], inl (CoeffCountMismatch 3 4)).
Proof. reflexivity. Qed.

(** The table of band 4 matters to the band itself: the independence below
    comes from the guard, not from the band ignoring its table. *)
Example band4_reads_its_table :
  outcome (band4 C4 (repeat 1 25) 0 1 1 0 1 1 0 1 0 0) <> 
  outcome (band4 (repeat 0 9) (repeat 1 25) 0 1 1 0 1 1 0 1 0 0).
Proof.
  unfold band4, C4. cbn [repeat const_at coeff nth_error bind ret outcome snd app].
  intros H. injection H as H. lra.
Qed.

(** *** Claims *)

(** C9. [evaluate_spherical_harmonics] raises exactly when [degree] is
    outside [0,3] or the length of the last dimension of [sh_coeffs]
    differs from [(degree+1)^2]; and when it raises, it has read no
    coefficient and no direction component: the failure comes before any
    computation on the inputs. *)
Theorem evaluate_fails_iff_invalid_input (degree : Z) (sh_coeffs : list R)
    (viewdirs : R * R * R) :
  (fails (evaluate_spherical_harmonics degree sh_coeffs viewdirs) <->
     (degree < 0 \/ 3 < degree \/
      (degree + 1) ^ 2 <> Z.of_nat (length sh_coeffs))%Z)
  /\ (fails (evaluate_spherical_harmonics degree sh_coeffs viewdirs) <->
      trace (evaluate_spherical_harmonics degree sh_coeffs viewdirs) = []).
Proof.
  unfold evaluate_spherical_harmonics.
  destruct (Z_lt_dec degree 0) as [Hneg | Hnn];
    [| destruct (Z_lt_dec 3 degree) as [Hbig | Hsmall];
       [| destruct (Z.eq_dec ((degree + 1) ^ 2)%Z (Z.of_nat (length sh_coeffs)))
            as [Hlen | Hlen] ] ].
  - rewrite invalid_degree_raises by lia. split; split; intros _; try reflexivity.
    + lia.
    + eexists; reflexivity.
    + eexists; reflexivity.
  - rewrite invalid_degree_raises by lia. split; split; intros _; try reflexivity.
    + lia.
    + eexists; reflexivity.
    + eexists; reflexivity.
  - pose proof (valid_input_succeeds C4 degree sh_coeffs viewdirs ltac:(lia) Hlen) as Hs.
    split; split.
    + intros Hf. apply fails_iff_not_succeeds in Hf. contradiction.
    + intros [H | [H | H]]; [lia | lia | contradiction].
    + intros Hf. apply fails_iff_not_succeeds in Hf. contradiction.
    + intros Ht. exfalso. revert Ht. unfold evaluate_with.
      replace ((degree <? 4)%Z && (degree >=? 0)%Z) with true
        by (symmetry; apply andb_true_iff; split; [apply Z.ltb_lt | apply Z.geb_le]; lia).
      rewrite (proj2 (Z.eqb_eq _ _) Hlen).
      unfold py_assert, coeff. cbn [bind ret app].
      destruct (nth_error sh_coeffs 0) as [c|] eqn:E.
      * cbn [bind]. destruct (if (degree >? 0)%Z then _ else _) as [t' r'].
        cbn [trace fst app]. discriminate.
      * apply nth_error_None in E.
        assert (0 < (degree + 1) ^ 2)%Z by nia. lia.
  - rewrite count_mismatch_raises by lia. split; split; intros _; try reflexivity.
    + right; right; exact Hlen.
    + eexists; reflexivity.
    + eexists; reflexivity.
Qed.

(** C10. On every call whose [degree] passes the first assertion, the
    guard [degree > 3] of the degree-4 band is false, and the result (the
    reads and the value or exception) is the same whatever table stands in
    for [C4]. *)
Theorem degree4_band_is_dead_code (c4 : list R) (degree : Z) (sh_coeffs : list R)
    (viewdirs : R * R * R) :
  (0 <= degree <= 3)%Z ->
  (degree >? 3)%Z = false /\
  evaluate_spherical_harmonics degree sh_coeffs viewdirs =
  evaluate_with c4 degree sh_coeffs viewdirs.
Proof.
  intros Hd.
  assert (Hg : (degree >? 3)%Z = false) by (apply gtb_false; lia).
  split; [exact Hg|].
  unfold evaluate_spherical_harmonics, evaluate_with, band1, band2, band3.
  rewrite Hg. reflexivity.
Qed.

Lemma degree4_band_is_dead_code_witness :
  (0 <= 3 <= 3)%Z /\
  ((3 >? 3)%Z = false /\
   evaluate_spherical_harmonics 3 (repeat 1 16) (0, 0, 1) =
   evaluate_with [] 3 (repeat 1 16) (0, 0, 1)).
Proof. split; [lia | apply (degree4_band_is_dead_code [] 3); lia]. Defined.

(** *** Further properties of the evaluation *)

(** The coefficient and direction subscripts of a trace, in the order of
    the reads. *)
Definition coeff_reads (t : list event) : list nat :=
  flat_map (fun e => match e with ReadCoeff i => [i] | ReadDir _ => [] end) t.

Definition dir_reads (t : list event) : list nat :=
  flat_map (fun e => match e with ReadDir i => [i] | ReadCoeff _ => [] end) t.

(** The valid inputs, by degree: the list of coefficients has 1, 4, 9 or
    16 entries. *)
Lemma valid_input_cases (degree : Z) (sh_coeffs : list R) :
  (0 <= degree <= 3)%Z -> ((degree + 1) ^ 2 = Z.of_nat (length sh_coeffs))%Z ->
  (degree = 0%Z /\ length sh_coeffs = 1%nat) \/
  (degree = 1%Z /\ length sh_coeffs = 4%nat) \/
  (degree = 2%Z /\ length sh_coeffs = 9%nat) \/
  (degree = 3%Z /\ length sh_coeffs = 16%nat).
Proof.
  intros Hd Hlen.
  assert (Hcases : degree = 0%Z \/ degree = 1%Z \/ degree = 2%Z \/ degree = 3%Z) by lia.
  destruct Hcases as [-> | [-> | [-> | ->]]]; simpl in Hlen; lia.
Qed.

(** A list of known length, as its entries. *)
Ltac explode l H :=
  repeat (let x := fresh "c" in destruct l as [|x l]; simpl in H; try lia);
  clear H.

Ltac eval_sh :=
  unfold evaluate_spherical_harmonics, evaluate_with, band1, band2, band3, py_assert,
    coeff, const_at, dir, C2, C3;
  repeat match goal with
  | |- context [(?a =? ?b)%Z] =>
      let v := eval vm_compute in (a =? b)%Z in change (a =? b)%Z with v
  | |- context [Z.to_nat ?e] =>
      let v := eval vm_compute in (Z.to_nat e) in change (Z.to_nat e) with v
  end;
  cbn -[Rplus Rmult Rminus Rdiv Ropp IZR C0 C1].

(** X1. The evaluation is linear in the coefficients: on a valid input,
    the value for the coefficients [p * a + q * b] (entry by entry) is
    [p] times the value for [a] plus [q] times the value for [b], for the
    same direction. *)
Theorem evaluate_linear_in_coeffs (degree : Z) (a b : list R)
    (viewdirs : R * R * R) (p q : R) :
  (0 <= degree <= 3)%Z ->
  ((degree + 1) ^ 2 = Z.of_nat (length a))%Z -> length b = length a ->
  exists va vb,
    outcome (evaluate_spherical_harmonics degree a viewdirs) = inr va /\
    outcome (evaluate_spherical_harmonics degree b viewdirs) = inr vb /\
    outcome (evaluate_spherical_harmonics degree
               (zip_with (fun x y => p * x + q * y) a b) viewdirs)
      = inr (p * va + q * vb).
Proof.
  intros Hd Hlen Hb. destruct viewdirs as [[x y] z].
  destruct (valid_input_cases degree a Hd Hlen) as [[-> Ha] | [[-> Ha] | [[-> Ha] | [-> Ha]]]];
    rewrite Ha in Hb; clear Hlen Hd.
  - explode a Ha. explode b Hb. eval_sh. do 2 eexists. repeat split. f_equal. ring.
  - explode a Ha. explode b Hb. eval_sh. do 2 eexists. repeat split. f_equal. ring.
  - explode a Ha. explode b Hb. eval_sh. do 2 eexists. repeat split. f_equal. ring.
  - explode a Ha. explode b Hb. eval_sh. do 2 eexists. repeat split. f_equal. ring.
Qed.

Lemma evaluate_linear_in_coeffs_witness :
  exists va vb,
    outcome (evaluate_spherical_harmonics 1 [1; 2; 3; 4] (0, 0, 1)) = inr va /\
    outcome (evaluate_spherical_harmonics 1 [4; 3; 2; 1] (0, 0, 1)) = inr vb /\
    outcome (evaluate_spherical_harmonics 1
               (zip_with (fun x y => 2 * x + 3 * y) [1; 2; 3; 4] [4; 3; 2; 1]) (0, 0, 1))
      = inr (2 * va + 3 * vb).
Proof.
  apply (evaluate_linear_in_coeffs 1 [1; 2; 3; 4] [4; 3; 2; 1] (0, 0, 1) 2 3);
    [lia | reflexivity | reflexivity].
Defined.

(** X2. The bands are nested: a valid list of coefficients for degree
    [d], padded with zeros to the length that a higher degree [d'] asks
    for, evaluates at degree [d'] to the value it has at degree [d]. *)
Theorem zero_padded_coeffs_keep_value (d d' : Z) (a : list R) (viewdirs : R * R * R) :
  (0 <= d <= d')%Z -> (d' <= 3)%Z ->
  ((d + 1) ^ 2 = Z.of_nat (length a))%Z ->
  outcome (evaluate_spherical_harmonics d'
             (a ++ repeat 0 (Z.to_nat ((d' + 1) ^ 2 - (d + 1) ^ 2))) viewdirs)
  = outcome (evaluate_spherical_harmonics d a viewdirs).
Proof.
  intros Hd Hd' Hlen. destruct viewdirs as [[x y] z].
  assert (Hcases : d' = 0%Z \/ d' = 1%Z \/ d' = 2%Z \/ d' = 3%Z) by lia.
  destruct (valid_input_cases d a ltac:(lia) Hlen) as [[-> Ha] | [[-> Ha] | [[-> Ha] | [-> Ha]]]];
    destruct Hcases as [-> | [-> | [-> | ->]]]; try lia; clear Hlen Hd Hd';
    explode a Ha; eval_sh; f_equal; ring.
Qed.

Lemma zero_padded_coeffs_keep_value_witness :
  outcome (evaluate_spherical_harmonics 2
             ([1; 2; 3; 4] ++ repeat 0 (Z.to_nat ((2 + 1) ^ 2 - (1 + 1) ^ 2))) (0, 0, 1))
  = outcome (evaluate_spherical_harmonics 1 [1; 2; 3; 4] (0, 0, 1)).
Proof.
  apply (zero_padded_coeffs_keep_value 1 2 [1; 2; 3; 4] (0, 0, 1)); [lia | lia | reflexivity].
Defined.

(** X3. On a valid input the function reads every coefficient exactly
    once, in the order of the subscripts, and the three components of the
    direction once each when [degree > 0]; at degree 0 it reads no
    component of the direction, so the value is the same for every
    direction. *)
Theorem evaluate_reads_each_coeff_once (degree : Z) (sh_coeffs : list R)
    (viewdirs : R * R * R) :
  (0 <= degree <= 3)%Z ->
  ((degree + 1) ^ 2 = Z.of_nat (length sh_coeffs))%Z ->
  coeff_reads (trace (evaluate_spherical_harmonics degree sh_coeffs viewdirs))
    = seq 0 (length sh_coeffs) /\
  dir_reads (trace (evaluate_spherical_harmonics degree sh_coeffs viewdirs))
    = (if (degree >? 0)%Z then [0; 1; 2]%nat else []) /\
  (degree = 0%Z ->
   forall viewdirs',
     outcome (evaluate_spherical_harmonics degree sh_coeffs viewdirs')
     = outcome (evaluate_spherical_harmonics degree sh_coeffs viewdirs)).
Proof.
  intros Hd Hlen. destruct viewdirs as [[x y] z].
  destruct (valid_input_cases degree sh_coeffs Hd Hlen)
    as [[-> Ha] | [[-> Ha] | [[-> Ha] | [-> Ha]]]]; clear Hlen Hd;
    explode sh_coeffs Ha; (split; [|split]);
    try (intros H0; try discriminate H0; intros [[x' y'] z']);
    eval_sh; reflexivity.
Qed.

Lemma evaluate_reads_each_coeff_once_witness :
  coeff_reads (trace (evaluate_spherical_harmonics 1 [1; 2; 3; 4] (0, 0, 1)))
    = seq 0 (length [1; 2; 3; 4]) /\
  dir_reads (trace (evaluate_spherical_harmonics 1 [1; 2; 3; 4] (0, 0, 1)))
    = (if (1 >? 0)%Z then [0; 1; 2]%nat else []) /\
  (1%Z = 0%Z ->
   forall viewdirs',
     outcome (evaluate_spherical_harmonics 1 [1; 2; 3; 4] viewdirs')
     = outcome (evaluate_spherical_harmonics 1 [1; 2; 3; 4] (0, 0, 1))).
Proof.
  apply (evaluate_reads_each_coeff_once 1 [1; 2; 3; 4] (0, 0, 1)); [lia | reflexivity].
Defined.

End SphericalHarmonics.


(** ** Inverse-CDF resampling ([sample_pdf], renderer.py lines 12-38) *)

Module SamplePdf.

(** [torch.cumsum(_, -1)] *)
Fixpoint cumsum_from (acc : R) (l : list R) : list R :=
  match l with
  | [] => []
  | x :: l' => (acc + x) :: cumsum_from (acc + x) l'
  end.

Definition cumsum (l : list R) : list R := cumsum_from 0 l.

(** [torch.linspace(a, b, steps=n)] *)
Definition linspace (a b : R) (n : nat) : list R :=
  match n with
  | 1%nat => [a]
  | _ => map (fun i => a + INR i * ((b - a) / INR (n - 1))) (seq 0 n)
  end.

(** [torch.searchsorted(cdf, u, right=True)] on a sorted row: the index of
    the first entry greater than [u], the length of the row if there is
    none. *)
Fixpoint searchsorted_right (cdf : list R) (u : R) : nat :=
  match cdf with
  | [] => 0
  | c :: cdf' => if Rltb u c then 0%nat else S (searchsorted_right cdf' u)
  end.

(** [torch.gather] along the last dimension, for one index: no negative
    and no too large index. *)
Definition gather1 (row : list R) (i : Z) : res R :=
  if (i <? 0)%Z then Err RuntimeError
  else match nth_error row (Z.to_nat i) with
       | Some x => Ok x
       | None => Err RuntimeError
       end.

(** [row.unsqueeze(1).expand([_, _, n])], on the last dimension: a row of
    length [n] is kept, a row of length 1 is repeated, any other length is
    refused. *)
Definition expand_last (row : list R) (n : nat) : res (list R) :=
  if (length row =? n)%nat then Ok row
  else match row with
       | [x] => Ok (repeat x n)
       | _ => Err RuntimeError
       end.

(** Lines 24-26: the indices [below] and [above] of the interval of the
    CDF that brackets the quantile [u]. *)
Definition bracket (cdf : list R) (u : R) : Z * Z :=
  let inds := Z.of_nat (searchsorted_right cdf u) in
  let below := Z.max 0 (inds - 1) in
  let above := Z.min ((Z.of_nat (length cdf) - 1) * 1) inds in
  (below, above).

(** Lines 27-36 for one quantile. [bins] is the row after [expand]. *)
Definition interpolate (bins cdf : list R) (u : R) : res R :=
  let '(below, above) := bracket cdf u in
  let! cdf_g0 := gather1 cdf below in
  let! cdf_g1 := gather1 cdf above in
  let! bins_g0 := gather1 bins below in
  let! bins_g1 := gather1 bins above in
  let denom := cdf_g1 - cdf_g0 in
  let denom := if Rltb denom 1e-5 then 1 else denom in
  let! t := checked_div (u - cdf_g0) denom in
  Ok (bins_g0 + t * (bins_g1 - bins_g0)).

(** Lines 13-16: the CDF of one row of weights. *)
Definition cdf_of_weights (weights : list R) : res (list R) :=
  let weights := map (fun w => w + 1e-5) weights in
  let total := Rsum weights in
  let! pdf := res_map (fun w => checked_div w total) weights in
  let cdf := cumsum pdf in
  Ok (map (fun _ => 0) (firstn 1 cdf) ++ cdf).

(** Lines 18-22: the quantiles of one row; [rand_u] is what [torch.rand]
    drew for the row. *)
Definition quantiles (n_samples : nat) (det : bool) (rand_u : list R) : res (list R) :=
  if det then
    match n_samples with
    | O => Err ZeroDivisionError
    | _ => Ok (linspace (0 + 0.5 / INR n_samples) (1 - 0.5 / INR n_samples) n_samples)
    end
  else Ok rand_u.

(** [sample_pdf] on one row of [bins] and [weights] (the leading dimension
    of the tensors is the batch of rays, and every operation is row-wise). *)
Definition sample_pdf (bins weights : list R) (n_samples : nat) (det : bool)
    (rand_u : list R) : res (list R) :=
  let! cdf := cdf_of_weights weights in
  let! u := quantiles n_samples det rand_u in
  let! bins := expand_last bins (length cdf) in
  res_map (interpolate bins cdf) u.



(** *** Lemmas on the row operations *)





Lemma cumsum_from_length acc l : length (cumsum_from acc l) = length l.
Proof. revert acc. induction l as [|x l IH]; intros acc; simpl; [reflexivity | f_equal; apply IH]. Qed.

Lemma Rsum_pos (l : list R) : l <> [] -> Forall (fun w => 0 < w) l -> 0 < Rsum l.
Proof.
  intros Hne Hall. destruct l as [|x l]; [contradiction|]. clear Hne.
  inversion Hall as [|? ? Hx Hl]; subst. simpl.
  assert (0 <= Rsum l).
  { clear Hx Hall. induction Hl as [|y l Hy Hl IH]; simpl; lra. }
  lra.
Qed.

(** The quantile lies at or above every entry before the index found, and
    below the entry at the index found. *)
Lemma searchsorted_right_le_length cdf u :
  (searchsorted_right cdf u <= length cdf)%nat.
Proof. induction cdf as [|c cdf IH]; simpl; [lia | destruct (Rltb u c); simpl; lia]. Qed.

Lemma searchsorted_right_before cdf u i c :
  (i < searchsorted_right cdf u)%nat -> nth_error cdf i = Some c -> c <= u.
Proof.
  revert i. induction cdf as [|c' cdf IH]; intros i Hi Hc; simpl in *; [lia|].
  destruct (Rltb u c') eqn:E; [lia|].
  destruct i as [|i]; simpl in Hc.
  - injection Hc as <-. unfold Rltb in E. destruct (Rlt_dec u c'); [discriminate E | lra].
  - apply (IH i); [lia | exact Hc].
Qed.

Lemma searchsorted_right_at cdf u c :
  nth_error cdf (searchsorted_right cdf u) = Some c -> u < c.
Proof.
  induction cdf as [|c' cdf IH]; intros Hc; simpl in *; [discriminate Hc|].
  destruct (Rltb u c') eqn:E; simpl in Hc.
  - injection Hc as <-. apply Rltb_spec. exact E.
  - apply IH. exact Hc.
Qed.

Lemma gather1_Some row i x :
  gather1 row i = Ok x -> (0 <= i)%Z /\ nth_error row (Z.to_nat i) = Some x.
Proof.
  unfold gather1. destruct (i <? 0)%Z eqn:E; [discriminate|].
  apply Z.ltb_ge in E. destruct (nth_error row (Z.to_nat i)) as [y|]; [|discriminate].
  intros H. injection H as <-. split; [exact E | reflexivity].
Qed.

Lemma gather1_in_range row i :
  (0 <= i < Z.of_nat (length row))%Z -> exists x, gather1 row i = Ok x /\ In x row.
Proof.
  intros Hi. unfold gather1. replace (i <? 0)%Z with false by (symmetry; apply Z.ltb_ge; lia).
  destruct (nth_error row (Z.to_nat i)) as [x|] eqn:E.
  - exists x. split; [reflexivity | eapply nth_error_In; exact E].
  - apply nth_error_None in E. lia.
Qed.

(** The two indices of [bracket] are in range for a non-empty CDF, and
    either coincide or are the neighbours around the quantile. *)
Lemma bracket_cases cdf u below above :
  cdf <> [] -> bracket cdf u = (below, above) ->
  (0 <= below < Z.of_nat (length cdf))%Z /\ (0 <= above < Z.of_nat (length cdf))%Z /\
  (below = above \/
   (above = Z.of_nat (searchsorted_right cdf u) /\ below = (above - 1)%Z /\ (1 <= above)%Z)).
Proof.
  intros Hne Hb. unfold bracket in Hb. injection Hb as <- <-.
  pose proof (searchsorted_right_le_length cdf u) as Hle.
  assert (0 < length cdf)%nat by (destruct cdf; [contradiction | simpl; lia]).
  lia.
Qed.

(** The interpolation weight of a bracketed quantile is between 0 and 1,
    whether or not the denominator was replaced by 1. *)
Lemma interpolate_weight_bounds c0 c1 u :
  c0 <= u -> u < c1 ->
  let denom := if Rltb (c1 - c0) 1e-5 then 1 else c1 - c0 in
  denom <> 0 /\ 0 <= (u - c0) / denom <= 1.
Proof.
  intros H0 H1. simpl. unfold Rltb. destruct (Rlt_dec (c1 - c0) 1e-5) as [Hd | Hd].
  - split; [lra|]. lra.
  - assert (0 < c1 - c0) by lra. split; [lra|]. split.
    + apply Rmult_le_pos; [lra | left; apply Rinv_0_lt_compat; lra].
    + apply Rmult_le_reg_r with (c1 - c0); [lra|].
      unfold Rdiv. rewrite Rmult_assoc, Rinv_l by lra. lra.
Qed.

Lemma interpolate_denom_nonzero c0 c1 :
  (if Rltb (c1 - c0) 1e-5 then 1 else c1 - c0) <> 0.
Proof. unfold Rltb. destruct (Rlt_dec (c1 - c0) 1e-5); lra. Qed.

(** [interpolate] once its four entries are gathered. *)
Lemma interpolate_gathered bins cdf u below above c0 c1 b0 b1 :
  bracket cdf u = (below, above) ->
  gather1 cdf below = Ok c0 -> gather1 cdf above = Ok c1 ->
  gather1 bins below = Ok b0 -> gather1 bins above = Ok b1 ->
  interpolate bins cdf u =
  Ok (b0 + (u - c0) / (if Rltb (c1 - c0) 1e-5 then 1 else c1 - c0) * (b1 - b0)).
Proof.
  intros Hb Gc0 Gc1 Gb0 Gb1. unfold interpolate.
  rewrite Hb, Gc0, Gc1, Gb0, Gb1. cbn [res_bind Ok].
  rewrite checked_div_ok by apply interpolate_denom_nonzero. reflexivity.
Qed.

(** Every quantile yields a sample between two entries of [bins]. *)
Lemma interpolate_between_bins bins cdf u :
  cdf <> [] -> length bins = length cdf ->
  exists s b0 b1, interpolate bins cdf u = Ok s /\ In b0 bins /\ In b1 bins /\
                  Rmin b0 b1 <= s <= Rmax b0 b1.
Proof.
  intros Hne Hlen. unfold interpolate.
  destruct (bracket cdf u) as [below above] eqn:Eb.
  destruct (bracket_cases cdf u below above Hne Eb) as [Hbel [Habo Hcase]].
  destruct (gather1_in_range cdf below Hbel) as [c0 [Gc0 _]].
  destruct (gather1_in_range cdf above Habo) as [c1 [Gc1 _]].
  destruct (gather1_in_range bins below ltac:(lia)) as [b0 [Gb0 Ib0]].
  destruct (gather1_in_range bins above ltac:(lia)) as [b1 [Gb1 Ib1]].
  rewrite Gc0, Gc1, Gb0, Gb1. cbn [res_bind Ok].
  rewrite checked_div_ok by apply interpolate_denom_nonzero. cbn [res_bind Ok].
  eexists; exists b0, b1. split; [reflexivity|]. split; [exact Ib0|]. split; [exact Ib1|].
  destruct Hcase as [Heq | [Habove [Hbelow Hpos]]].
  - subst above. rewrite Gb0 in Gb1. injection Gb1 as <-.
    replace (b0 - b0) with 0 by lra. rewrite Rmult_0_r, Rplus_0_r.
    rewrite Rmin_left, Rmax_left by lra. lra.
  - apply gather1_Some in Gc0, Gc1. destruct Gc0 as [_ Gc0], Gc1 as [_ Gc1].
    assert (Hc0 : c0 <= u).
    { apply (searchsorted_right_before cdf u (Z.to_nat below)); [lia | exact Gc0]. }
    assert (Hc1 : u < c1).
    { apply (searchsorted_right_at cdf u). rewrite Habove, Nat2Z.id in Gc1. exact Gc1. }
    destruct (interpolate_weight_bounds c0 c1 u Hc0 Hc1) as [_ Ht]. simpl in Ht.
    set (t := (u - c0) / _) in *.
    unfold Rmin, Rmax. destruct (Rle_dec b0 b1); split; nra.
Qed.

(** The CDF of a non-empty row of non-negative weights: every division is
    by a positive total, and the row gains the leading zero. *)
Lemma cdf_of_weights_ok (weights : list R) :
  weights <> [] -> Forall (fun w => 0 <= w) weights ->
  exists cdf, cdf_of_weights weights = Ok cdf /\ length cdf = S (length weights).
Proof.
  intros Hne Hnn. unfold cdf_of_weights.
  set (ws := map (fun w => w + 1e-5) weights).
  assert (Hpos : 0 < Rsum ws).
  { apply Rsum_pos.
    - subst ws. destruct weights; [contradiction | discriminate].
    - subst ws. clear Hne. induction Hnn as [|w l Hw Hl IH]; simpl; constructor; [lra | exact IH]. }
  rewrite (res_map_ok _ (fun w => w / Rsum ws)).
  2:{ intros a _. apply checked_div_ok. lra. }
  cbn [res_bind Ok]. eexists. split; [reflexivity|].
  rewrite length_app, length_map. unfold cumsum. 
  assert (Hl : length (cumsum_from 0 (map (fun w => w / Rsum ws) ws)) = length weights).
  { rewrite cumsum_from_length, length_map. subst ws. apply length_map. }
  rewrite Hl. rewrite length_firstn, Hl.
  destruct weights; [contradiction | simpl; lia].
Qed.

Lemma res_map_all {A B} (f : A -> res B) (P : B -> Prop) (l : list A) :
  (forall a, exists b, f a = Ok b /\ P b) ->
  exists out, res_map f l = Ok out /\ Forall P out /\ length out = length l.
Proof.
  intros Hf. induction l as [|a l [out [Hout [HP Hlen]]]]; simpl.
  - exists []. split; [reflexivity | split; [constructor | reflexivity]].
  - destruct (Hf a) as [b [Hb Pb]]. rewrite Hb, Hout. cbn [res_bind Ok].
    exists (b :: out). split; [reflexivity|]. split; [constructor; assumption | simpl; lia].
Qed.

Lemma linspace_length a b n : length (linspace a b n) = n.
Proof.
  unfold linspace. destruct n as [|[|n]]; try reflexivity.
  rewrite length_map, length_seq. reflexivity.
Qed.

Lemma expand_last_same row n : length row = n -> expand_last row n = Ok row.
Proof. intros H. unfold expand_last. rewrite (proj2 (Nat.eqb_eq _ _) H). reflexivity. Qed.



(** *** Concrete rows *)

(** The CDF of the weights [0; 1]: the first interval has span 1/100002. *)
Lemma cdf_of_weights_0_1 : cdf_of_weights [0; 1] = Ok [0; 1 / 100002; 1].
Proof.
  unfold cdf_of_weights. cbn [map Rsum fold_right res_map].
  rewrite !checked_div_ok by lra. cbn [res_bind Ok cumsum cumsum_from firstn map app].
  unfold Ok. do 2 f_equal. f_equal; [field|]. f_equal. field.
Qed.

Lemma bracket_0_1 : bracket [0; 1 / 100002; 1] (1 / 200004) = (0, 1)%Z.
Proof. unfold bracket. cbn [searchsorted_right]. rcmp. reflexivity. Qed.

(** *** Claims *)



(** A row of zero weights, evaluated: the CDF is [0; 1/2; 1],
    and the two deterministic quantiles 1/4 and 3/4 give the samples 1/2
    and 3/2. *)
Example sample_pdf_zero_weights :
  exists s0 s1,
    sample_pdf [0; 1; 2] [0; 0] 2 true [] = Ok [s0; s1] /\ s0 = 1 / 2 /\ s1 = 3 / 2.
Proof.
  assert (Hcdf : cdf_of_weights [0; 0] = Ok [0; 1 / 2; 1]).
  { unfold cdf_of_weights. cbn [map Rsum fold_right res_map].
    rewrite !checked_div_ok by lra. cbn [res_bind Ok cumsum cumsum_from firstn map app].
    unfold Ok. do 2 f_equal. f_equal; [field|]. f_equal. field. }
  assert (Hb0 : bracket [0; 1 / 2; 1] (0 + 0.5 / INR 2) = (0, 1)%Z).
  { unfold bracket. cbn [searchsorted_right INR]. rcmp. reflexivity. }
  assert (Hb1 : bracket [0; 1 / 2; 1]
                  (0 + 0.5 / INR 2 + INR 1 * ((1 - 0.5 / INR 2 - (0 + 0.5 / INR 2)) / INR (2 - 1)))
                = (1, 2)%Z).
  { unfold bracket. cbn [searchsorted_right INR Nat.sub]. rcmp. reflexivity. }
  unfold sample_pdf. rewrite Hcdf. cbn [res_bind Ok quantiles linspace seq map].
  rewrite expand_last_same by reflexivity. cbn [res_bind Ok res_map].
  replace (0 + 0.5 / INR 2 + INR 0 * ((1 - 0.5 / INR 2 - (0 + 0.5 / INR 2)) / INR (2 - 1)))
    with (0 + 0.5 / INR 2) by (cbn [INR Nat.sub]; lra).
  rewrite (interpolate_gathered _ _ _ 0 1 0 (1 / 2) 0 1 Hb0) by reflexivity.
  rewrite (interpolate_gathered _ _ _ 1 2 (1 / 2) 1 1 2 Hb1) by reflexivity.
  rcmp. cbn [res_bind Ok]. eexists _, _. split; [reflexivity|].
  cbn [INR Nat.sub]. split; lra.
Qed.

(** C4, as stated, fails: with bins [0; 1; 2], weights [0; 1] and the
    quantile 1/200004, the bracketing interval is the first one, its CDF
    span 1/100002 is below 1e-5, and the sample returned is 1/200004, not
    the lower bin edge 0. *)
Lemma degenerate_span_sample_off_lower_edge :
  exists cdf c0 c1 b0 sample,
    cdf_of_weights [0; 1] = Ok cdf /\
    bracket cdf (1 / 200004) = (0, 1)%Z /\
    gather1 cdf 0 = Ok c0 /\ gather1 cdf 1 = Ok c1 /\ c1 - c0 < 1e-5 /\
    gather1 [0; 1; 2] 0 = Ok b0 /\
    sample_pdf [0; 1; 2] [0; 1] 1 false [1 / 200004] = Ok [sample] /\
    sample <> b0.
Proof.
  exists [0; 1 / 100002; 1], 0, (1 / 100002), 0, (1 / 200004).
  split; [exact cdf_of_weights_0_1|].
  split; [exact bracket_0_1|].
  split; [reflexivity|]. split; [reflexivity|]. split; [lra|]. split; [reflexivity|].
  split; [|lra].
  unfold sample_pdf. rewrite cdf_of_weights_0_1. cbn [res_bind Ok quantiles].
  rewrite expand_last_same by reflexivity. cbn [res_bind Ok res_map].
  rewrite (interpolate_gathered _ _ _ 0 1 0 (1 / 100002) 0 1 bracket_0_1)
    by reflexivity.
  rcmp. cbn [res_bind Ok]. unfold Ok. do 2 f_equal. field.
Qed.

(** C4, amended. When the CDF span of the bracketing interval is below
    1e-5, the denominator is taken as 1: the sample is the lower bin edge
    plus [(u - cdf_below)] times the width of the bin, which is within
    1e-5 bin widths of the lower edge (and is the lower edge itself when
    the two indices coincide). *)
Theorem degenerate_span_near_lower_edge (bins cdf : list R) (u : R)
    (below above : Z) (c0 c1 b0 b1 : R) :
  bracket cdf u = (below, above) ->
  gather1 cdf below = Ok c0 -> gather1 cdf above = Ok c1 ->
  gather1 bins below = Ok b0 -> gather1 bins above = Ok b1 ->
  c1 - c0 < 1e-5 ->
  interpolate bins cdf u = Ok (b0 + (u - c0) / 1 * (b1 - b0)) /\
  Rabs (b0 + (u - c0) / 1 * (b1 - b0) - b0) <= 1e-5 * Rabs (b1 - b0) /\
  (below = above -> b0 + (u - c0) / 1 * (b1 - b0) = b0).
Proof.
  intros Hb Gc0 Gc1 Gb0 Gb1 Hspan.
  assert (Hne : cdf <> []).
  { intros ->. apply gather1_Some in Gc0. destruct Gc0 as [_ Gc0].
    destruct (Z.to_nat below); discriminate Gc0. }
  split.
  { rewrite (interpolate_gathered _ _ _ _ _ _ _ _ _ Hb Gc0 Gc1 Gb0 Gb1).
    rewrite (Rltb_true _ _ Hspan). reflexivity. }
  destruct (bracket_cases cdf u below above Hne Hb) as [_ [_ Hcase]].
  assert (Hsame : below = above -> b0 + (u - c0) / 1 * (b1 - b0) = b0).
  { intros ->. rewrite Gb0 in Gb1. injection Gb1 as <-. lra. }
  split; [|exact Hsame].
  destruct Hcase as [Heq | [Habove [Hbelow Hpos]]].
  - rewrite (Hsame Heq).
    replace (b0 - b0) with 0 by lra. rewrite Rabs_R0.
    pose proof (Rabs_pos (b1 - b0)). nra.
  - apply gather1_Some in Gc0, Gc1. destruct Gc0 as [_ Gc0], Gc1 as [_ Gc1].
    assert (Hc0 : c0 <= u).
    { apply (searchsorted_right_before cdf u (Z.to_nat below)); [lia | exact Gc0]. }
    assert (Hc1 : u < c1).
    { apply (searchsorted_right_at cdf u). rewrite Habove, Nat2Z.id in Gc1. exact Gc1. }
    replace (b0 + (u - c0) / 1 * (b1 - b0) - b0) with ((u - c0) * (b1 - b0)) by field.
    rewrite Rabs_mult, (Rabs_pos_eq (u - c0)) by lra.
    pose proof (Rabs_pos (b1 - b0)). nra.
Qed.

Lemma degenerate_span_near_lower_edge_witness :
  interpolate [0; 1; 2] [0; 1 / 100002; 1] (1 / 200004)
    = Ok (0 + (1 / 200004 - 0) / 1 * (1 - 0)) /\
  Rabs (0 + (1 / 200004 - 0) / 1 * (1 - 0) - 0) <= 1e-5 * Rabs (1 - 0) /\
  (0%Z = 1%Z -> 0 + (1 / 200004 - 0) / 1 * (1 - 0) = 0).
Proof.
  apply (degenerate_span_near_lower_edge [0; 1; 2] [0; 1 / 100002; 1] (1 / 200004)
           0 1 0 (1 / 100002) 0 1).
  - exact bracket_0_1.
  - reflexivity.
  - reflexivity.
  - reflexivity.
  - reflexivity.
  - lra.
Defined.

(** *** Further properties of [sample_pdf] *)

Lemma last_cumsum_from (acc : R) (l : list R) (d : R) :
  l <> [] -> List.last (cumsum_from acc l) d = acc + Rsum l.
Proof.
  revert acc. induction l as [|x l IH]; intros acc Hne; [contradiction|].
  destruct l as [|y l].
  - simpl. lra.
  - change (cumsum_from acc (x :: y :: l))
      with ((acc + x) :: cumsum_from (acc + x) (y :: l)).
    change (List.last ((acc + x) :: cumsum_from (acc + x) (y :: l)) d)
      with (List.last (cumsum_from (acc + x) (y :: l)) d).
    rewrite IH by discriminate. simpl. lra.
Qed.

Lemma cumsum_from_increasing (acc : R) (l : list R) :
  Forall (fun x => 0 < x) l -> StronglySorted Rlt (acc :: cumsum_from acc l).
Proof.
  intros H. revert acc. induction H as [|x l Hx Hl IH]; intros acc.
  - constructor; constructor.
  - cbn [cumsum_from]. specialize (IH (acc + x)).
    constructor; [exact IH|].
    apply StronglySorted_inv in IH. destruct IH as [_ Hall].
    constructor; [lra|].
    clear - Hall Hx. induction Hall as [|y k Hy Hk IHk]; constructor; [lra | exact IHk].
Qed.

Lemma Rsum_map_div (t : R) (l : list R) : Rsum (map (fun w => w / t) l) = Rsum l / t.
Proof. induction l as [|x l IH]; simpl; [lra | rewrite IH; lra]. Qed.

(** The CDF of a non-empty row of non-negative weights, in closed form. *)
Lemma cdf_of_weights_closed (weights : list R) :
  weights <> [] -> Forall (fun w => 0 <= w) weights ->
  let ws := map (fun w => w + 1e-5) weights in
  0 < Rsum ws /\
  cdf_of_weights weights = Ok (0 :: cumsum_from 0 (map (fun w => w / Rsum ws) ws)).
Proof.
  intros Hne Hnn ws.
  assert (Hpos : 0 < Rsum ws).
  { apply Rsum_pos.
    - subst ws. destruct weights; [contradiction | discriminate].
    - subst ws. clear Hne. induction Hnn as [|w l Hw Hl IH]; simpl; constructor; [lra | exact IH]. }
  split; [exact Hpos|].
  unfold cdf_of_weights. fold ws.
  rewrite (res_map_ok _ (fun w => w / Rsum ws)).
  2:{ intros a _. apply checked_div_ok. lra. }
  cbn [res_bind Ok]. unfold cumsum.
  destruct weights as [|w weights]; [contradiction|]. reflexivity.
Qed.

(** X4. For a non-empty row of non-negative weights the function builds a
    cumulative distribution: one entry more than there are weights, the
    first entry 0, the last entry 1, and strictly increasing in between
    (every interval has mass at least that of the floor 1e-5). *)
Theorem cdf_of_weights_is_distribution (weights : list R) :
  weights <> [] -> Forall (fun w => 0 <= w) weights ->
  exists cdf,
    cdf_of_weights weights = Ok cdf /\
    length cdf = S (length weights) /\
    hd 0 cdf = 0 /\ List.last cdf 0 = 1 /\
    StronglySorted Rlt cdf.
Proof.
  intros Hne Hnn.
  destruct (cdf_of_weights_closed weights Hne Hnn) as [Hpos Hcdf].
  set (ws := map (fun w => w + 1e-5) weights) in *.
  eexists. split; [exact Hcdf|]. split; [|split; [|split]].
  - simpl. rewrite cumsum_from_length, length_map. subst ws. rewrite length_map. reflexivity.
  - reflexivity.
  - assert (Hws : map (fun w => w / Rsum ws) ws <> []).
    { subst ws. destruct weights; [contradiction | discriminate]. }
    destruct (cumsum_from 0 (map (fun w => w / Rsum ws) ws)) as [|c cs] eqn:Ec.
    + apply (f_equal (@length R)) in Ec. rewrite cumsum_from_length in Ec.
      destruct (map (fun w => w / Rsum ws) ws); [contradiction | discriminate Ec].
    + change (List.last (0 :: c :: cs) 0) with (List.last (c :: cs) 0). rewrite <- Ec.
      rewrite last_cumsum_from by exact Hws. rewrite Rsum_map_div. field. lra.
  - apply cumsum_from_increasing.
    subst ws. clear Hne Hcdf. 
    assert (Hinv : 0 < / Rsum (map (fun w => w + 1e-5) weights)) by (apply Rinv_0_lt_compat; exact Hpos).
    set (t := Rsum (map (fun w => w + 1e-5) weights)) in *. clearbody t.
    induction Hnn as [|w l Hw Hl IH]; simpl; constructor; [|exact IH].
    unfold Rdiv. apply Rmult_lt_0_compat; lra.
Qed.

Lemma cdf_of_weights_is_distribution_witness :
  exists cdf,
    cdf_of_weights [0; 3] = Ok cdf /\
    length cdf = S (length [0; 3]) /\
    hd 0 cdf = 0 /\ List.last cdf 0 = 1 /\
    StronglySorted Rlt cdf.
Proof.
  apply (cdf_of_weights_is_distribution [0; 3]);
    [discriminate | repeat constructor; lra].
Defined.

(** X5. The deterministic quantiles are the midpoints of [n_samples]
    equal cells of the unit interval: quantile [i] is [(i + 0.5) /
    n_samples]. *)
Theorem deterministic_quantiles_are_midpoints (n_samples : nat) (rand_u : list R) (i : nat) :
  (i < n_samples)%nat ->
  exists u,
    quantiles n_samples true rand_u = Ok u /\ length u = n_samples /\
    nth_error u i = Some ((INR i + 0.5) / INR n_samples).
Proof.
  intros Hi. unfold quantiles.
  destruct n_samples as [|n]; [lia|].
  eexists. split; [reflexivity|]. split; [apply linspace_length|].
  unfold linspace. destruct n as [|n].
  - assert (i = 0%nat) by lia. subst i. cbn [nth_error INR]. f_equal. lra.
  - rewrite nth_error_map, nth_error_seq.
    destruct (Nat.ltb_spec i (S (S n))) as [_ | Hge]; [|lia].
    cbn [option_map Nat.add]. f_equal.
    replace (S (S n) - 1)%nat with (S n) by lia.
    rewrite (S_INR (S n)). pose proof (pos_INR n) as Hn. rewrite (S_INR n) in *.
    replace 0.5 with (/ 2) by lra. field. lra.
Qed.

Lemma deterministic_quantiles_are_midpoints_witness :
  exists u,
    quantiles 4 true [] = Ok u /\ length u = 4%nat /\
    nth_error u 1 = Some ((INR 1 + 0.5) / INR 4).
Proof. apply (deterministic_quantiles_are_midpoints 4 [] 1). lia. Defined.

(** A row of one entry, expanded, holds that entry everywhere. *)
Lemma expand_last_single (x : R) (n : nat) :
  n <> 1%nat -> expand_last [x] n = Ok (repeat x n).
Proof.
  intros Hn. unfold expand_last. cbn [length].
  destruct (Nat.eqb_spec 1 n) as [E | _]; [congruence | reflexivity].
Qed.

Lemma expand_last_refused (row : list R) (n : nat) :
  length row <> n -> length row <> 1%nat -> expand_last row n = Err RuntimeError.
Proof.
  intros Hn H1. unfold expand_last.
  destruct (Nat.eqb_spec (length row) n) as [E | _]; [contradiction|].
  destruct row as [|x [|y row]]; try reflexivity. simpl in H1. lia.
Qed.

(** X6. What [sample_pdf] answers on a non-empty row of non-negative
    weights. Deterministic quantiles with [n_samples = 0] raise
    [ZeroDivisionError]. Otherwise the row of [bins] must have one entry
    more than the weights, or a single entry (which is then broadcast):
    any other length raises [RuntimeError]. In the two accepted cases
    there is one sample per quantile, and with a single bin every sample
    is that bin. *)
Theorem sample_pdf_outcome (bins weights : list R) (n_samples : nat) (det : bool)
    (rand_u : list R) :
  weights <> [] -> Forall (fun w => 0 <= w) weights ->
  (det = true -> n_samples = 0%nat ->
   sample_pdf bins weights n_samples det rand_u = Err ZeroDivisionError) /\
  ((det = true -> n_samples <> 0%nat) ->
   length bins <> S (length weights) -> length bins <> 1%nat ->
   sample_pdf bins weights n_samples det rand_u = Err RuntimeError) /\
  ((det = true -> n_samples <> 0%nat) ->
   length bins = S (length weights) \/ length bins = 1%nat ->
   exists samples,
     sample_pdf bins weights n_samples det rand_u = Ok samples /\
     length samples = (if det then n_samples else length rand_u) /\
     (length bins = 1%nat -> Forall (fun s => s = hd 0 bins) samples)).
Proof.
  intros Hne Hnn.
  destruct (cdf_of_weights_ok weights Hne Hnn) as [cdf [Hcdf Hlen]].
  unfold sample_pdf. rewrite Hcdf. cbn [res_bind Ok].
  split; [|split].
  - intros -> ->. reflexivity.
  - intros Hn Hb H1.
    assert (Hq : exists u, quantiles n_samples det rand_u = Ok u).
    { unfold quantiles. destruct det; [|eexists; reflexivity].
      destruct n_samples; [exfalso; apply Hn; reflexivity | eexists; reflexivity]. }
    destruct Hq as [u ->]. cbn [res_bind Ok].
    rewrite expand_last_refused by congruence. reflexivity.
  - intros Hn Hb.
    assert (Hq : exists u, quantiles n_samples det rand_u = Ok u /\
                           length u = (if det then n_samples else length rand_u)).
    { unfold quantiles. destruct det; [|eexists; split; reflexivity].
      destruct n_samples; [exfalso; apply Hn; reflexivity|].
      eexists; split; [reflexivity | apply linspace_length]. }
    destruct Hq as [u [-> Hu]]. cbn [res_bind Ok].
    assert (Hcne : cdf <> []) by (destruct cdf; [discriminate Hlen | discriminate]).
    destruct Hb as [Hb | Hb].
    + rewrite expand_last_same by congruence. cbn [res_bind Ok].
      destruct (res_map_all (interpolate bins cdf) (fun _ => True) u) as [out [Hout [_ Hl]]].
      { intros q. destruct (interpolate_between_bins bins cdf q Hcne ltac:(congruence))
          as [s [_ [_ [Hs _]]]]. exists s. split; [exact Hs | exact I]. }
      exists out. split; [exact Hout|]. split; [congruence|].
      intros H1. exfalso. destruct weights; [contradiction | simpl in *; lia].
    + destruct bins as [|x [|y bins]]; try discriminate Hb.
      rewrite expand_last_single by (destruct weights; [contradiction | simpl in *; lia]).
      cbn [res_bind Ok hd].
      destruct (res_map_all (interpolate (repeat x (length cdf)) cdf) (fun s => s = x) u)
        as [out [Hout [Hall Hl]]].
      { intros q.
        destruct (interpolate_between_bins (repeat x (length cdf)) cdf q Hcne
                    ltac:(apply repeat_length)) as [s [b0 [b1 [Hs [I0 [I1 Hr]]]]]].
        exists s. split; [exact Hs|].
        apply repeat_spec in I0, I1. subst b0 b1.
        rewrite Rmin_left, Rmax_left in Hr by lra. lra. }
      exists out. split; [exact Hout|]. split; [congruence | intros _; exact Hall].
Qed.

Lemma sample_pdf_outcome_witness :
  (true = true -> 2%nat = 0%nat ->
   sample_pdf [7] [0; 3] 2 true [] = Err ZeroDivisionError) /\
  ((true = true -> 2%nat <> 0%nat) ->
   length [7] <> S (length [0; 3]) -> length [7] <> 1%nat ->
   sample_pdf [7] [0; 3] 2 true [] = Err RuntimeError) /\
  ((true = true -> 2%nat <> 0%nat) ->
   length [7] = S (length [0; 3]) \/ length [7] = 1%nat ->
   exists samples,
     sample_pdf [7] [0; 3] 2 true [] = Ok samples /\
     length samples = 2%nat /\
     (length [7] = 1%nat -> Forall (fun s => s = hd 0 [7]) samples)).
Proof.
  apply (sample_pdf_outcome [7] [0; 3] 2 true []);
    [discriminate | repeat constructor; lra].
Defined.

(** The scan of [searchsorted] moves right with the quantile. *)
Lemma searchsorted_right_mono (cdf : list R) (u u' : R) :
  u <= u' -> (searchsorted_right cdf u <= searchsorted_right cdf u')%nat.
Proof.
  intros Hu. induction cdf as [|c cdf IH]; simpl; [lia|].
  unfold Rltb. destruct (Rlt_dec u c), (Rlt_dec u' c); try lia. lra.
Qed.

Lemma sorted_nth_error_le (l : list R) (i j : nat) (x y : R) :
  StronglySorted Rle l -> (i <= j)%nat ->
  nth_error l i = Some x -> nth_error l j = Some y -> x <= y.
Proof.
  intros Hs. revert i j. induction Hs as [|a l Hs IH Hall]; intros i j Hij Hi Hj.
  - destruct i; discriminate Hi.
  - destruct i as [|i], j as [|j]; simpl in Hi, Hj; try lia.
    + injection Hi as <-. injection Hj as <-. lra.
    + injection Hi as <-. apply nth_error_In in Hj.
      rewrite List.Forall_forall in Hall. apply Hall. exact Hj.
    + apply (IH i j); [lia | exact Hi | exact Hj].
Qed.

(** A sample that [interpolate] returns, with the bracket it was taken
    from: it is [b0 + t * (b1 - b0)] for the entries [b0], [b1] of [bins]
    at the bracket, with [t] in [0,1] unless the bracket is a single
    index. *)
Lemma interpolate_in_bracket (bins cdf : list R) (u s : R) :
  interpolate bins cdf u = Ok s ->
  exists c0 c1 b0 b1,
    gather1 cdf (fst (bracket cdf u)) = Ok c0 /\
    gather1 cdf (snd (bracket cdf u)) = Ok c1 /\
    gather1 bins (fst (bracket cdf u)) = Ok b0 /\
    gather1 bins (snd (bracket cdf u)) = Ok b1 /\
    s = b0 + (u - c0) / (if Rltb (c1 - c0) 1e-5 then 1 else c1 - c0) * (b1 - b0) /\
    (fst (bracket cdf u) = snd (bracket cdf u) \/
     0 <= (u - c0) / (if Rltb (c1 - c0) 1e-5 then 1 else c1 - c0) <= 1).
Proof.
  intros H. destruct (bracket cdf u) as [below above] eqn:Eb.
  unfold interpolate in H. rewrite Eb in H. cbn [fst snd].
  destruct (gather1 cdf below) as [e | c0] eqn:Gc0; [discriminate H|].
  destruct (gather1 cdf above) as [e | c1] eqn:Gc1; [discriminate H|].
  destruct (gather1 bins below) as [e | b0] eqn:Gb0; [discriminate H|].
  destruct (gather1 bins above) as [e | b1] eqn:Gb1; [discriminate H|].
  cbn [res_bind Ok] in H.
  rewrite checked_div_ok in H by apply interpolate_denom_nonzero.
  cbn [res_bind Ok] in H. injection H as <-.
  assert (Hne : cdf <> []).
  { intros ->. apply gather1_Some in Gc0. destruct Gc0 as [_ Gc0].
    destruct (Z.to_nat below); discriminate Gc0. }
  destruct (bracket_cases cdf u below above Hne Eb) as [_ [_ Hcase]].
  exists c0, c1, b0, b1. repeat (split; [reflexivity|]).
  destruct Hcase as [Heq | [Habove [Hbelow Hpos]]]; [left; exact Heq | right].
  apply gather1_Some in Gc0, Gc1. destruct Gc0 as [_ Gc0], Gc1 as [_ Gc1].
  assert (Hc0 : c0 <= u).
  { apply (searchsorted_right_before cdf u (Z.to_nat below)); [lia | exact Gc0]. }
  assert (Hc1 : u < c1).
  { apply (searchsorted_right_at cdf u). rewrite Habove, Nat2Z.id in Gc1. exact Gc1. }
  destruct (interpolate_weight_bounds c0 c1 u Hc0 Hc1) as [_ Ht]. exact Ht.
Qed.

(** For bins in non-decreasing order, a greater quantile gives a greater
    or equal sample. *)
Lemma interpolate_mono (bins cdf : list R) (u u' s s' : R) :
  StronglySorted Rle bins -> u <= u' ->
  interpolate bins cdf u = Ok s -> interpolate bins cdf u' = Ok s' -> s <= s'.
Proof.
  intros Hs Hu H H'.
  destruct (interpolate_in_bracket bins cdf u s H)
    as [c0 [c1 [b0 [b1 [Gc0 [Gc1 [Gb0 [Gb1 [-> Ht]]]]]]]]].
  destruct (interpolate_in_bracket bins cdf u' s' H')
    as [c0' [c1' [b0' [b1' [Gc0' [Gc1' [Gb0' [Gb1' [-> Ht']]]]]]]]].
  pose proof (searchsorted_right_mono cdf u u' Hu) as Hmono.
  pose proof (searchsorted_right_le_length cdf u) as Hlen.
  pose proof (searchsorted_right_le_length cdf u') as Hlen'.
  unfold bracket in *. cbn [fst snd] in *.
  set (i := searchsorted_right cdf u) in *.
  set (i' := searchsorted_right cdf u') in *.
  pose proof (interpolate_denom_nonzero c0 c1) as Hd.
  assert (Hdpos : 0 < (if Rltb (c1 - c0) 1e-5 then 1 else c1 - c0)).
  { unfold Rltb. destruct (Rlt_dec (c1 - c0) 1e-5); lra. }
  apply gather1_Some in Gb0, Gb1, Gb0', Gb1'.
  destruct Gb0 as [Hb0 Gb0], Gb1 as [Hb1 Gb1], Gb0' as [Hb0' Gb0'], Gb1' as [Hb1' Gb1'].
  assert (H01 : b0 <= b1).
  { eapply (sorted_nth_error_le bins); [exact Hs | | exact Gb0 | exact Gb1]. lia. }
  assert (H01' : b0' <= b1').
  { eapply (sorted_nth_error_le bins); [exact Hs | | exact Gb0' | exact Gb1']. lia. }
  destruct (Nat.eq_dec i i') as [Hii | Hii].
  - (* the same bracket *)
    rewrite <- Hii in *.
    rewrite Gc0 in Gc0'. injection Gc0' as <-.
    rewrite Gc1 in Gc1'. injection Gc1' as <-.
    rewrite Gb0 in Gb0'. injection Gb0' as <-.
    rewrite Gb1 in Gb1'. injection Gb1' as <-.
    set (d := if Rltb (c1 - c0) 1e-5 then 1 else c1 - c0) in *.
    assert ((u - c0) / d <= (u' - c0) / d).
    { unfold Rdiv. apply Rmult_le_compat_r; [left; apply Rinv_0_lt_compat; exact Hdpos | lra]. }
    nra.
  - (* the bracket of [u] ends where the bracket of [u'] starts, or before *)
    assert (Hmid : b1 <= b0').
    { eapply (sorted_nth_error_le bins); [exact Hs | | exact Gb1 | exact Gb0']. lia. }
    set (t := (u - c0) / _) in *. set (t' := (u' - c0') / _) in *.
    assert (Hup : b0 + t * (b1 - b0) <= b1).
    { destruct Ht as [Heq | Ht].
      - rewrite Heq in Gb0. rewrite Gb0 in Gb1. injection Gb1 as <-. lra.
      - nra. }
    assert (Hlo : b0' <= b0' + t' * (b1' - b0')).
    { destruct Ht' as [Heq | Ht'].
      - rewrite Heq in Gb0'. rewrite Gb0' in Gb1'. injection Gb1' as <-. lra.
      - nra. }
    lra.
Qed.

Lemma res_map_mono {A} (f : A -> res R) (leA : A -> A -> Prop) (l : list A) (out : list R) :
  (forall a a' b b', leA a a' -> f a = Ok b -> f a' = Ok b' -> b <= b') ->
  StronglySorted leA l -> res_map f l = Ok out -> StronglySorted Rle out.
Proof.
  intros Hf Hs. revert out. induction Hs as [|a l Hs IH Hall]; intros out H; simpl in H.
  - injection H as <-. constructor.
  - destruct (f a) as [e | b] eqn:Ea; [discriminate H|]. cbn [res_bind Ok] in H.
    destruct (res_map f l) as [e | bs] eqn:El; [discriminate H|].
    injection H as <-. constructor; [apply IH; reflexivity|].
    rewrite List.Forall_forall. intros b' Hb'.
    destruct (res_map_In f l bs b' El Hb') as [a' [Ha' Ea']].
    rewrite List.Forall_forall in Hall. exact (Hf a a' b b' (Hall a' Ha') Ea Ea').
Qed.

Lemma linspace_sorted (a b : R) (n : nat) : a <= b -> StronglySorted Rle (linspace a b n).
Proof.
  intros Hab. unfold linspace. destruct n as [|[|n]]; [constructor | repeat constructor |].
  set (h := (b - a) / INR (S (S n) - 1)).
  assert (Hh : 0 <= h).
  { subst h. unfold Rdiv. apply Rmult_le_pos; [lra|]. left. apply Rinv_0_lt_compat.
    replace (S (S n) - 1)%nat with (S n) by lia. rewrite S_INR. pose proof (pos_INR n). lra. }
  clearbody h. generalize (S (S n)) as m. generalize 0%nat as s.
  intros s m. revert s. induction m as [|m IH]; intros s; [constructor|].
  cbn [seq map]. constructor; [apply IH|].
  rewrite List.Forall_forall. intros x Hx. apply in_map_iff in Hx.
  destruct Hx as [j [<- Hj]]. apply in_seq in Hj.
  assert (INR s <= INR j) by (apply le_INR; lia). nra.
Qed.

(** X7. Inverse-CDF sampling is monotone: for bins in non-decreasing
    order and non-negative weights, quantiles in non-decreasing order give
    samples in non-decreasing order. The deterministic quantiles are in
    that order, so deterministic resampling returns sorted samples. (The
    weights are non-negative so that the CDF is sorted, as the search of
    line 24 expects; the order of the samples comes from the scan and
    from the order of the bins.) *)
Theorem sample_pdf_monotone (bins weights : list R) (n_samples : nat) (det : bool)
    (rand_u samples : list R) :
  Forall (fun w => 0 <= w) weights ->
  StronglySorted Rle bins ->
  (det = false -> StronglySorted Rle rand_u) ->
  sample_pdf bins weights n_samples det rand_u = Ok samples ->
  StronglySorted Rle samples.
Proof.
  intros _ Hs Hu H. unfold sample_pdf in H.
  destruct (cdf_of_weights weights) as [e | cdf]; [discriminate H|]. cbn [res_bind Ok] in H.
  destruct (quantiles n_samples det rand_u) as [e | u] eqn:Eq; [discriminate H|].
  cbn [res_bind Ok] in H.
  destruct (expand_last bins (length cdf)) as [e | bins'] eqn:Eb; [discriminate H|].
  cbn [res_bind Ok] in H.
  assert (Hs' : StronglySorted Rle bins').
  { unfold expand_last in Eb. destruct (length bins =? length cdf)%nat.
    - injection Eb as <-. exact Hs.
    - destruct bins as [|x [|y bins]]; try discriminate Eb. injection Eb as <-.
      clear. induction (length cdf) as [|n IH]; simpl; constructor; [exact IH|].
      rewrite List.Forall_forall. intros z Hz. apply repeat_spec in Hz. lra. }
  assert (Hus : StronglySorted Rle u).
  { unfold quantiles in Eq. destruct det.
    - destruct n_samples as [|n]; [discriminate Eq|].
      assert (Eu : u = linspace (0 + 0.5 / INR (S n)) (1 - 0.5 / INR (S n)) (S n))
        by (unfold Ok in Eq; congruence).
      rewrite Eu. apply linspace_sorted.
      assert (Hn : 1 <= INR (S n)) by (rewrite S_INR; pose proof (pos_INR n); lra).
      assert (0.5 / INR (S n) <= 0.5).
      { unfold Rdiv. rewrite <- (Rmult_1_r 0.5) at 2.
        apply Rmult_le_compat_l; [lra|]. rewrite <- Rinv_1.
        apply Rinv_le_contravar; lra. }
      lra.
    - injection Eq as <-. apply Hu. reflexivity. }
  apply (res_map_mono (interpolate bins' cdf) Rle u samples); [|exact Hus | exact H].
  intros a a' b b' Haa Ha Ha'. exact (interpolate_mono bins' cdf a a' b b' Hs' Haa Ha Ha').
Qed.

Lemma sample_pdf_monotone_witness :
  exists samples,
    sample_pdf [0; 1; 2] [0; 0] 2 true [] = Ok samples /\ StronglySorted Rle samples.
Proof.
  destruct sample_pdf_zero_weights as [s0 [s1 [E _]]].
  exists [s0; s1]. split; [exact E|].
  apply (sample_pdf_monotone [0; 1; 2] [0; 0] 2 true [] [s0; s1]);
    [repeat constructor; lra | repeat constructor; lra | discriminate | exact E].
Defined.

End SamplePdf.

(** ** The renderer ([NeRFRenderer], renderer.py lines 48-626) *)

Module NeRFRenderer.

Import SamplePdf.

Definition vec3 : Type := R * R * R.

Definition vadd (a b : vec3) : vec3 :=
  let '(a0, a1, a2) := a in let '(b0, b1, b2) := b in (a0 + b0, a1 + b1, a2 + b2).

Definition vscale (k : R) (a : vec3) : vec3 :=
  let '(a0, a1, a2) := a in (k * a0, k * a1, k * a2).

(** [torch.sum(_, dim=-2)] of a row of colours. *)
Definition vsum (l : list vec3) : vec3 := fold_right vadd (0, 0, 0) l.

(** [torch.min(torch.max(p, aabb[:3]), aabb[3:])] *)
Definition vclip (lo hi p : vec3) : vec3 :=
  let '(p0, p1, p2) := p in
  let '(l0, l1, l2) := lo in
  let '(h0, h1, h2) := hi in
  (Rmin (Rmax p0 l0) h0, Rmin (Rmax p1 l1) h1, Rmin (Rmax p2 l2) h2).

(** [x.clamp(lo, hi)] *)
Definition clamp (lo hi x : R) : R := Rmin (Rmax x lo) hi.

Definition ray : Type := vec3 * vec3.

(** What the renderer calls and this file does not define: the CUDA
    extension [raymarching] and the methods of the field ([density],
    [color], [background]), which the class leaves to its subclasses.
    [dens_out] is an entry of the dictionary that [density] returns, and
    [sigma] its ['sigma'] key. *)
Record externals : Type := {
  dens_out : Type;
  near_far_from_aabb : vec3 -> vec3 -> vec3 * vec3 -> R -> R * R;
  polar_from_ray : vec3 -> vec3 -> R -> R * R;
  density : vec3 -> dens_out;
  sigma : dens_out -> R;
  color : vec3 -> vec3 -> bool -> dens_out -> vec3;
  background : R * R -> vec3 -> vec3;
  packbits : list (list R) -> R -> list bool -> list bool;
}.

(** The fields of [self] that the embedded methods read or write. The grid
    is [density_grid[cas][index]]; the bitfield has one bit per voxel. *)
Record renderer : Type := {
  bound : R;
  cascade : nat;
  grid_size : nat;
  density_scale : R;
  min_near : R;
  density_thresh : R;
  bg_radius : R;
  training : bool;
  aabb_train : vec3 * vec3;
  aabb_infer : vec3 * vec3;
  cuda_ray : bool;
  density_grid : list (list R);
  density_bitfield : list bool;
  mean_density : R;
  iter_density : nat;
  step_counter : list (Z * Z);
  mean_count : Z;
  local_step : nat;
}.

(** The keyword arguments of [run]. *)
Record run_args : Type := {
  num_steps : nat;
  upsample_steps : nat;
  bg_color : option vec3;
  perturb : bool;
}.

(** *** The random generator *)

(** The generator's state is the stream of numbers it will return;
    [torch.rand(shape)] takes as many as the shape has entries, in
    row-major order. *)
Definition rng : Type := nat -> R.

Definition rand_rows (rows cols : nat) (g : rng) : list (list R) * rng :=
  (map (fun r => map (fun c => g (r * cols + c)%nat) (seq 0 cols)) (seq 0 rows),
   fun i => g (rows * cols + i)%nat).

(** *** Sorting and gathering (lines 234-242) *)

(** [torch.sort(_, dim=1)] on one row: the sorted values and, for each
    output slot, the index of the input entry that landed there. *)
Fixpoint insert_by_key (x : R * nat) (l : list (R * nat)) : list (R * nat) :=
  match l with
  | [] => [x]
  | y :: l' => if Rleb (fst x) (fst y) then x :: l else y :: insert_by_key x l'
  end.

Definition sort_by_key (l : list (R * nat)) : list (R * nat) :=
  fold_right insert_by_key [] l.

Definition torch_sort (row : list R) : list R * list nat :=
  let sorted := sort_by_key (combine row (seq 0 (length row))) in
  (map fst sorted, map snd sorted).

(** [torch.gather(row, dim=1, index)] for a row of any entries. *)
Definition gather {A} (row : list A) (index : list nat) : res (list A) :=
  res_map (fun i => match nth_error row i with
                    | Some x => Ok x
                    | None => Err RuntimeError
                    end) index.

(** The re-ordering of lines 234-242 on one ray: concatenate the uniform
    and the new samples, sort the distances, and permute positions and
    density outputs by the indices of the sort. *)
Definition merge_samples {D} (z_vals : list R) (xyzs : list vec3) (density_outputs : list D)
    (new_z_vals : list R) (new_xyzs : list vec3) (new_density_outputs : list D)
    : res (list R * list vec3 * list D) :=
  let z_vals := z_vals ++ new_z_vals in
  let '(z_vals, z_index) := torch_sort z_vals in
  let xyzs := xyzs ++ new_xyzs in
  let! xyzs := gather xyzs z_index in
  let tmp_output := density_outputs ++ new_density_outputs in
  let! density_outputs := gather tmp_output z_index in
  Ok (z_vals, xyzs, density_outputs).

(** *** Compositing weights (lines 211-216 and 244-248) *)

(** An elementwise operation on two rows, as the tensor library
    broadcasts them: equal lengths, or one of the rows of length 1. *)
Definition broadcast2 {A B C} (f : A -> B -> C) (l1 : list A) (l2 : list B) : res (list C) :=
  if (length l1 =? length l2)%nat then Ok (zip_with f l1 l2)
  else match l1, l2 with
       | [a], _ => Ok (map (f a) l2)
       | _, [b] => Ok (map (fun a => f a b) l1)
       | _, _ => Err RuntimeError
       end.

(** [torch.cumprod(_, dim=-1)] *)
Fixpoint cumprod_from (acc : R) (l : list R) : list R :=
  match l with
  | [] => []
  | x :: l' => (acc * x) :: cumprod_from (acc * x) l'
  end.

Definition cumprod (l : list R) : list R := cumprod_from 1 l.

(** [z_vals[..., 1:] - z_vals[..., :-1]], then the last interval
    [sample_dist * ones_like(deltas[..., :1])]. *)
Definition deltas_of (z_vals : list R) (sample_dist : R) : list R :=
  let deltas := zip_with Rminus (tail z_vals) (removelast z_vals) in
  deltas ++ map (fun _ => sample_dist * 1) (firstn 1 deltas).

Definition alphas_of (density_scale : R) (deltas sigmas : list R) : res (list R) :=
  broadcast2 (fun d s => 1 - exp (- d * density_scale * s)) deltas sigmas.

Definition alphas_shifted_of (alphas : list R) : list R :=
  map (fun _ => 1) (firstn 1 alphas) ++ map (fun a => 1 - a + 1e-15) alphas.

Definition weights_of_alphas (alphas : list R) : list R :=
  zip_with Rmult alphas (removelast (cumprod (alphas_shifted_of alphas))).

(** The weights of one ray from its sample distances and densities. *)
Definition composite_weights (density_scale : R) (z_vals : list R) (sample_dist : R)
    (sigmas : list R) : res (list R) :=
  let deltas := deltas_of z_vals sample_dist in
  let! alphas := alphas_of density_scale deltas sigmas in
  Ok (weights_of_alphas alphas).


(** *** Lemmas on the compositing weights *)

(** The weights as the transmittance recurrence: [T] is the transmittance
    before the first sample of [alphas]. *)
Fixpoint trans_weights (T : R) (alphas : list R) : list R :=
  match alphas with
  | [] => []
  | a :: l => a * T :: trans_weights (T * (1 - a + 1e-15)) l
  end.

Lemma weights_from_cumprod (T : R) (alphas : list R) :
  zip_with Rmult alphas
    (removelast (T :: cumprod_from T (map (fun a => 1 - a + 1e-15) alphas)))
  = trans_weights T alphas.
Proof.
  revert T. induction alphas as [|a l IH]; intros T; [reflexivity|].
  cbn [map cumprod_from]. 
  change (removelast (T :: ?x :: ?r)) with (T :: removelast (x :: r)).
  cbn [zip_with trans_weights]. f_equal. apply IH.
Qed.

Lemma weights_of_alphas_recurrence (alphas : list R) :
  weights_of_alphas alphas = trans_weights (1 * 1) alphas.
Proof.
  unfold weights_of_alphas, alphas_shifted_of, cumprod.
  destruct alphas as [|a l]; [reflexivity|].
  cbn [firstn map app cumprod_from].
  apply (weights_from_cumprod (1 * 1) (a :: l)).
Qed.




(** An alpha is in [0,1) for a non-negative exponent, and zero exactly
    when the exponent is. *)
Lemma alpha_range (x : R) : 0 <= x -> 0 <= 1 - exp (- x) <= 1 /\ (1 - exp (- x) = 0 <-> x = 0).
Proof.
  intros Hx. pose proof (exp_pos (- x)) as Hpos.
  destruct (Req_dec x 0) as [-> | Hne].
  - rewrite Ropp_0, exp_0. split; [lra | split; intros; lra].
  - assert (Hlt : exp (- x) < 1).
    { rewrite <- exp_0. apply exp_increasing. lra. }
    split; [lra | split; intros; lra].
Qed.

Lemma removelast_length {A} (l : list A) : length (removelast l) = pred (length l).
Proof.
  induction l as [|a [|b l] IH]; try reflexivity.
  change (removelast (a :: b :: l)) with (a :: removelast (b :: l)).
  simpl length in *. rewrite IH. reflexivity.
Qed.

Lemma deltas_of_length (z_vals : list R) (sample_dist : R) :
  (2 <= length z_vals)%nat -> length (deltas_of z_vals sample_dist) = length z_vals.
Proof.
  intros H. unfold deltas_of. destruct z_vals as [|a [|b l]]; simpl in H; try lia.
  rewrite length_app, length_map, length_firstn, length_zip_with.
  rewrite removelast_length. simpl. lia.
Qed.

Lemma deltas_of_nonneg (z_vals : list R) (sample_dist : R) :
  Sorted Rle z_vals -> 0 <= sample_dist ->
  Forall (fun d => 0 <= d) (deltas_of z_vals sample_dist).
Proof.
  intros Hs Hd. unfold deltas_of. apply Forall_app_2.
  - induction Hs as [|a l Hl IH Hhd]; [constructor|].
    destruct l as [|b l']; [constructor|].
    change (tail (a :: b :: l')) with (b :: l').
    change (removelast (a :: b :: l')) with (a :: removelast (b :: l')).
    cbn [zip_with]. constructor.
    + inversion Hhd; subst. lra.
    + exact IH.
  - destruct (zip_with Rminus (tail z_vals) (removelast z_vals)); simpl; constructor; [lra | constructor].
Qed.

(** The alphas of rows of equal length. *)
Lemma alphas_of_equal_length (k : R) (deltas sigmas : list R) :
  length deltas = length sigmas ->
  alphas_of k deltas sigmas = Ok (zip_with (fun d s => 1 - exp (- d * k * s)) deltas sigmas).
Proof.
  intros H. unfold alphas_of, broadcast2. rewrite (proj2 (Nat.eqb_eq _ _) H). reflexivity.
Qed.

Lemma alphas_in_range (k : R) (deltas sigmas : list R) :
  0 <= k -> Forall (fun d => 0 <= d) deltas -> Forall (fun s => 0 <= s) sigmas ->
  Forall (fun a => 0 <= a <= 1) (zip_with (fun d s => 1 - exp (- d * k * s)) deltas sigmas).
Proof.
  intros Hk Hd. revert sigmas. induction Hd as [|d deltas Hd0 Hd IH]; intros sigmas Hs; [constructor|].
  destruct Hs as [|s sigmas Hs0 Hs]; [constructor|]. cbn [zip_with]. constructor; [|apply IH; exact Hs].
  replace (- d * k * s) with (- (d * k * s)) by lra.
  apply alpha_range. apply Rmult_le_pos; [apply Rmult_le_pos|]; assumption.
Qed.


(** *** Claim C2 *)




(** *** Lemmas on sorting and gathering *)

Definition key_le (p q : R * nat) : Prop := fst p <= fst q.

Lemma insert_by_key_perm (x : R * nat) (l : list (R * nat)) :
  Permutation (insert_by_key x l) (x :: l).
Proof.
  induction l as [|y l IH]; simpl; [reflexivity|].
  destruct (Rleb (fst x) (fst y)); [reflexivity|].
  rewrite IH. apply perm_swap.
Qed.

Lemma sort_by_key_perm (l : list (R * nat)) : Permutation (sort_by_key l) l.
Proof.
  induction l as [|x l IH]; simpl; [reflexivity|].
  rewrite insert_by_key_perm. constructor. exact IH.
Qed.

Lemma insert_by_key_hd (x y : R * nat) (l : list (R * nat)) :
  key_le y x -> HdRel key_le y l -> HdRel key_le y (insert_by_key x l).
Proof.
  intros Hyx Hhd. destruct l as [|z l]; simpl; [constructor; exact Hyx|].
  destruct (Rleb (fst x) (fst z)); constructor; [exact Hyx|].
  inversion Hhd; subst. assumption.
Qed.

Lemma insert_by_key_sorted (x : R * nat) (l : list (R * nat)) :
  Sorted key_le l -> Sorted key_le (insert_by_key x l).
Proof.
  induction 1 as [|y l Hl IH Hhd]; simpl; [repeat constructor|].
  destruct (Rleb (fst x) (fst y)) eqn:E.
  - apply Rleb_spec in E.
    constructor; [constructor; assumption | constructor; exact E].
  - constructor; [exact IH|]. apply insert_by_key_hd; [|exact Hhd].
    unfold key_le. unfold Rleb in E. destruct (Rle_dec (fst x) (fst y)); [discriminate E | lra].
Qed.

Lemma sort_by_key_sorted (l : list (R * nat)) : Sorted key_le (sort_by_key l).
Proof.
  induction l as [|x l IH]; simpl; [constructor | apply insert_by_key_sorted; exact IH].
Qed.

Lemma sorted_keys (l : list (R * nat)) : Sorted key_le l -> Sorted Rle (map fst l).
Proof.
  induction 1 as [|y l Hl IH Hhd]; simpl; constructor; [exact IH|].
  destruct Hhd; simpl; constructor. assumption.
Qed.

(** Every pair of [combine row (seq 0 n)] is an entry with its index. *)
Lemma combine_seq_entries (pre row : list R) :
  Forall (fun p => nth_error (pre ++ row) (snd p) = Some (fst p))
         (combine row (seq (length pre) (length row))).
Proof.
  revert pre. induction row as [|x row IH]; intros pre; simpl; constructor.
  - simpl. rewrite nth_error_app2 by lia. rewrite Nat.sub_diag. reflexivity.
  - specialize (IH (pre ++ [x])). rewrite length_app, Nat.add_1_r in IH.
    rewrite <- app_assoc in IH. exact IH.
Qed.

Lemma combine_seq_indices {A} (row : list A) (k : nat) :
  map snd (combine row (seq k (length row))) = seq k (length row).
Proof.
  revert k. induction row as [|x row IH]; intros k; simpl; [reflexivity|].
  f_equal. apply IH.
Qed.

Lemma pairs_to_Forall2 (row : list R) (l : list (R * nat)) :
  Forall (fun p => nth_error row (snd p) = Some (fst p)) l ->
  Forall2 (fun i z => nth_error row i = Some z) (map snd l) (map fst l).
Proof. induction 1; simpl; constructor; assumption. Qed.

(** The contract of [torch.sort] on a row. *)
Lemma torch_sort_spec (row zs : list R) (idx : list nat) :
  torch_sort row = (zs, idx) ->
  Sorted Rle zs /\
  Permutation idx (seq 0 (length row)) /\
  Forall2 (fun i z => nth_error row i = Some z) idx zs.
Proof.
  unfold torch_sort. intros H. injection H as <- <-.
  set (pairs := combine row (seq 0 (length row))).
  pose proof (sort_by_key_perm pairs) as Hperm.
  split; [|split].
  - apply sorted_keys, sort_by_key_sorted.
  - rewrite <- (combine_seq_indices row 0). fold pairs.
    apply Permutation_map. exact Hperm.
  - apply pairs_to_Forall2.
    apply (Permutation_Forall (Permutation_sym Hperm)).
    exact (combine_seq_entries [] row).
Qed.

(** [gather] with indices in range returns the entries at the indices. *)
Lemma gather_in_range {A} (row : list A) (index : list nat) :
  Forall (fun i => (i < length row)%nat) index ->
  exists out, gather row index = Ok out /\
              Forall2 (fun i x => nth_error row i = Some x) index out.
Proof.
  unfold gather. induction 1 as [|i index Hi Hrest [out [Hout HF]]]; simpl.
  - exists []. split; [reflexivity | constructor].
  - destruct (nth_error row i) as [x|] eqn:E; [|apply nth_error_None in E; lia].
    rewrite Hout. cbn [res_bind Ok]. exists (x :: out).
    split; [reflexivity | constructor; assumption].
Qed.

Lemma Forall2_slots {A B} (P : A -> B -> Prop) (l : list A) (l' : list B) (k : nat) (a : A) :
  Forall2 P l l' -> nth_error l k = Some a -> exists b, nth_error l' k = Some b /\ P a b.
Proof.
  intros HF. revert k. induction HF as [|x y l l' Hxy HF IH]; intros k Hk.
  - destruct k; discriminate Hk.
  - destruct k as [|k]; simpl in *.
    + injection Hk as <-. exists y. split; [reflexivity | exact Hxy].
    + apply IH. exact Hk.
Qed.

(** *** Claim C7 *)

(** C7. After the merge of lines 234-242 the distances of a ray are
    sorted in non-decreasing order, the index row of the sort is a
    permutation of the input slots (every input sample lands in exactly
    one output slot), and at every output slot [k] the distance, the
    position and the density output are those of the one input sample
    [z_index[k]] that landed there. The colours are computed afterwards,
    slot by slot, from these positions and density outputs. *)
Theorem merge_sorts_and_keeps_attributes {D : Type} (z_vals : list R) (xyzs : list vec3)
    (density_outputs : list D) (new_z_vals : list R) (new_xyzs : list vec3)
    (new_density_outputs : list D) :
  length xyzs = length z_vals -> length density_outputs = length z_vals ->
  length new_xyzs = length new_z_vals ->
  length new_density_outputs = length new_z_vals ->
  exists z_sorted xyzs_sorted outputs_sorted z_index,
    merge_samples z_vals xyzs density_outputs new_z_vals new_xyzs new_density_outputs
      = Ok (z_sorted, xyzs_sorted, outputs_sorted) /\
    Sorted Rle z_sorted /\
    Permutation z_index (seq 0 (length (z_vals ++ new_z_vals))) /\
    length z_sorted = length (z_vals ++ new_z_vals) /\
    forall k i, nth_error z_index k = Some i ->
      (i < length (z_vals ++ new_z_vals))%nat /\
      nth_error z_sorted k = nth_error (z_vals ++ new_z_vals) i /\
      nth_error xyzs_sorted k = nth_error (xyzs ++ new_xyzs) i /\
      nth_error outputs_sorted k = nth_error (density_outputs ++ new_density_outputs) i.
Proof.
  intros Hx Hd Hnx Hnd. unfold merge_samples.
  destruct (torch_sort (z_vals ++ new_z_vals)) as [zs idx] eqn:Es.
  destruct (torch_sort_spec _ _ _ Es) as [Hsorted [Hperm HFz]].
  assert (Hrange : Forall (fun i => (i < length (z_vals ++ new_z_vals))%nat) idx).
  { apply (Permutation_Forall (Permutation_sym Hperm)).
    apply List.Forall_forall. intros i Hi. apply in_seq in Hi. lia. }
  destruct (gather_in_range (xyzs ++ new_xyzs) idx) as [xs [Hxs HFx]].
  { eapply Forall_impl; [exact Hrange|]. intros i Hi. simpl in *.
    rewrite length_app in *. lia. }
  destruct (gather_in_range (density_outputs ++ new_density_outputs) idx) as [ds [Hds HFd]].
  { eapply Forall_impl; [exact Hrange|]. intros i Hi. simpl in *.
    rewrite length_app in *. lia. }
  rewrite Hxs, Hds. cbn [res_bind Ok].
  exists zs, xs, ds, idx. split; [reflexivity|]. split; [exact Hsorted|].
  split; [exact Hperm|]. split.
  - rewrite <- (Forall2_length _ _ _ HFz). apply Permutation_length in Hperm.
    rewrite Hperm, length_seq. reflexivity.
  - intros k i Hk.
    destruct (Forall2_slots _ _ _ _ _ HFz Hk) as [z [Hz Hzi]].
    destruct (Forall2_slots _ _ _ _ _ HFx Hk) as [x [Hxk Hxi]].
    destruct (Forall2_slots _ _ _ _ _ HFd Hk) as [d [Hdk Hdi]].
    split; [|split; [|split]]; try congruence.
    apply nth_error_Some. congruence.
Qed.

Lemma merge_sorts_and_keeps_attributes_witness :
  exists z_sorted xyzs_sorted outputs_sorted z_index,
    merge_samples [1; 3] [(1, 0, 0); (3, 0, 0)] [10%nat; 30%nat]
                  [2] [(2, 0, 0)] [20%nat]
      = Ok (z_sorted, xyzs_sorted, outputs_sorted) /\
    Sorted Rle z_sorted /\
    Permutation z_index (seq 0 (length ([1; 3] ++ [2]))) /\
    length z_sorted = length ([1; 3] ++ [2]) /\
    forall k i, nth_error z_index k = Some i ->
      (i < length ([1; 3] ++ [2]))%nat /\
      nth_error z_sorted k = nth_error ([1; 3] ++ [2]) i /\
      nth_error xyzs_sorted k = nth_error ([(1, 0, 0); (3, 0, 0)] ++ [(2, 0, 0)]) i /\
      nth_error outputs_sorted k = nth_error ([10%nat; 30%nat] ++ [20%nat]) i.
Proof.
  apply (merge_sorts_and_keeps_attributes [1; 3] [(1, 0, 0); (3, 0, 0)] [10%nat; 30%nat]
           [2] [(2, 0, 0)] [20%nat]); reflexivity.
Defined.

(** A merge of three samples, evaluated: the new sample goes to the middle
    slot with its position and its density output. *)
Example merge_samples_1_3_2 :
  merge_samples [1; 3] [(1, 0, 0); (3, 0, 0)] [10%nat; 30%nat] [2] [(2, 0, 0)] [20%nat]
  = Ok ([1; 2; 3], [(1, 0, 0); (2, 0, 0); (3, 0, 0)], [10%nat; 20%nat; 30%nat]).
Proof.
  unfold merge_samples, torch_sort, sort_by_key.
  cbn [app length seq combine fold_right insert_by_key fst snd]. rcmp.
  cbn [insert_by_key fst snd]. rcmp. cbn [insert_by_key fst snd]. rcmp.
  reflexivity.
Qed.

(** *** [run] (lines 168-292) *)

Definition vmul (a : vec3) (k : R) : vec3 :=
  let '(a0, a1, a2) := a in (a0 * k, a1 * k, a2 * k).

(** The mask of a result: [run] returns a boolean tensor, the staging
    buffer of [render] is a float tensor. *)
Inductive mask_tensor : Type :=
| BoolTensor (m : list (list bool))
| FloatTensor (m : list (list R)).

(** The keys ['depth'], ['image'] and ['mask'] of a result (the other keys
    of [run] are the constant [None]). *)
Record results : Type := {
  depth : list (list R);
  image : list (list vec3);
  mask : mask_tensor;
}.

(** [view] to the shape [prefix]: a flat list cut into rows of the given
    lengths. *)
Fixpoint view_rows {A} (prefix : list nat) (flat : list A) : list (list A) :=
  match prefix with
  | [] => []
  | n :: prefix' => firstn n flat :: view_rows prefix' (skipn n flat)
  end.

Section Run.

Variable E : externals.

(** Lines 195-196 and 223-225: a sample position, clipped to the box. *)
Definition position (aabb : vec3 * vec3) (rays_o rays_d : vec3) (z : R) : vec3 :=
  vclip (fst aabb) (snd aabb) (vadd rays_o (vmul rays_d z)).

(** Lines 184-186. *)
Definition uniform_z_vals (nears fars : R) (num_steps : nat) : list R :=
  map (fun z => nears + (fars - nears) * z) (linspace 0 1 num_steps).

(** Lines 208-242: the importance resampling and the merge, for one ray. *)
Definition upsample (self : renderer) (a : run_args) (aabb : vec3 * vec3)
    (rays_o rays_d : vec3) (sample_dist : R) (u_pdf : list R)
    (z_vals : list R) (xyzs : list vec3) (density_outputs : list (dens_out E))
    : res (list R * list vec3 * list (dens_out E)) :=
  let deltas := deltas_of z_vals sample_dist in
  let! alphas := alphas_of (density_scale self) deltas (map (sigma E) density_outputs) in
  let weights := weights_of_alphas alphas in
  let z_vals_mid :=
    zip_with (fun z d => z + 0.5 * d) (removelast z_vals) (removelast deltas) in
  let! new_z_vals :=
    sample_pdf z_vals_mid (removelast (tail weights)) (upsample_steps a)
      (negb (training self)) u_pdf in
  let new_xyzs := map (position aabb rays_o rays_d) new_z_vals in
  let new_density_outputs := map (density E) new_xyzs in
  merge_samples z_vals xyzs density_outputs new_z_vals new_xyzs new_density_outputs.

(** Lines 244-285: weights, colours, depth, image and mask of one ray.
    For a ray with a single sample the weights are an empty row, and the
    products with the one-entry rows are empty as well. *)
Definition composite (self : renderer) (a : run_args) (rays_o rays_d : vec3)
    (nears fars sample_dist : R)
    (z_vals : list R) (xyzs : list vec3) (density_outputs : list (dens_out E))
    : res (R * vec3 * bool) :=
  let! weights :=
    composite_weights (density_scale self) z_vals sample_dist
      (map (sigma E) density_outputs) in
  let mask := map (fun w => Rltb 1e-4 w) weights in
  let rgbs :=
    zip_with (fun xm o => color E (fst xm) rays_d (snd xm) o)
      (zip xyzs mask) density_outputs in
  let weights_sum := Rsum weights in
  let! ori_z_vals :=
    res_map (fun z => let! q := checked_div (z - nears) (fars - nears) in
                      Ok (clamp 0 1 q)) z_vals in
  let depth := Rsum (zip_with Rmult weights ori_z_vals) in
  let image := vsum (zip_with vscale weights rgbs) in
  let bg_color :=
    if Rltb 0 (bg_radius self)
    then background E (polar_from_ray E rays_o rays_d (bg_radius self)) rays_d
    else match bg_color a with
         | None => (1, 1, 1)
         | Some c => c
         end in
  let image := vadd image (vscale (1 - weights_sum) bg_color) in
  Ok (depth, image, Rltb 0.95 weights_sum).

(** [run] on one ray. [u_perturb] and [u_pdf] are the rows that the two
    calls of [torch.rand] drew for the ray; they are read only when
    [perturb] is set, or when the resampling is random (training). *)
Definition run_ray (self : renderer) (a : run_args) (u_perturb u_pdf : list R)
    (r : ray) : res (R * vec3 * bool) :=
  let '(rays_o, rays_d) := r in
  let aabb := if training self then aabb_train self else aabb_infer self in
  let '(nears, fars) := near_far_from_aabb E rays_o rays_d aabb (min_near self) in
  let z_vals := uniform_z_vals nears fars (num_steps a) in
  let! sample_dist := checked_div (fars - nears) (INR (num_steps a)) in
  let z_vals :=
    if perturb a
    then zip_with (fun z u => z + (u - 0.5) * sample_dist) z_vals u_perturb
    else z_vals in
  let xyzs := map (position aabb rays_o rays_d) z_vals in
  let density_outputs := map (density E) xyzs in
  let! merged :=
    if (0 <? upsample_steps a)%nat
    then upsample self a aabb rays_o rays_d sample_dist u_pdf z_vals xyzs density_outputs
    else Ok (z_vals, xyzs, density_outputs) in
  let '(z_vals, xyzs, density_outputs) := merged in
  composite self a rays_o rays_d nears fars sample_dist z_vals xyzs density_outputs.

Definition pack_results (prefix : list nat) (out : list (R * vec3 * bool)) : results :=
  {| depth := view_rows prefix (map (fun o => fst (fst o)) out);
     image := view_rows prefix (map (fun o => snd (fst o)) out);
     mask := BoolTensor (view_rows prefix (map snd out)) |}.

(** [run] on a batch of shape [B, N]: the rays are flattened, the random
    rows are drawn for the whole batch (first the perturbation, then the
    quantiles), and the outputs take the shape of the batch again. The
    renderer is returned as it was: [run] writes no field of [self]. *)
Definition run (a : run_args) (rays : list (list ray)) (self : renderer) (g : rng)
    : res (results * renderer * rng) :=
  let prefix := map length rays in
  let flat := concat rays in
  let N := length flat in
  let '(u_perturb, g) :=
    if perturb a then rand_rows N (num_steps a) g else (repeat [] N, g) in
  let '(u_pdf, g) :=
    if (0 <? upsample_steps a)%nat && training self
    then rand_rows N (upsample_steps a) g
    else (repeat [] N, g) in
  let! out :=
    res_map (fun x => run_ray self a (snd (fst x)) (snd x) (fst (fst x)))
      (zip (zip flat u_perturb) u_pdf) in
  Ok (pack_results prefix out, self, g).

End Run.

(** *** [render] (lines 596-626) *)









(** *** Lemmas on batches and buffers *)










(** *** Staged rendering over a ray-wise [_run] *)

Section Staging.

(** What one ray yields, and a [_run] that applies it to every ray of its
    batch, whatever the generator state, and leaves the renderer [self]
    and the generator as they are. *)
Variable F : ray -> res (R * vec3 * bool).
Variable self : renderer.
Variable _run : list (list ray) -> renderer -> rng -> res (results * renderer * rng).

Hypothesis _run_raywise : forall rays g,
  _run rays self g =
  let! out := res_map F (concat rays) in
  Ok (pack_results (map length rays) out, self, g).







End Staging.

(** *** Claim C1 *)





(** *** A scene for the random path *)

(** A field that is opaque only for 3 < x < 3.5, rays along the x axis
    from the origin of the box [-4,4]^3, for which [near_far_from_aabb]
    (with [min_near] 1) answers near 1 and far 4. *)
Definition slab_field : externals :=
  {| dens_out := R;
     near_far_from_aabb := fun _ _ _ _ => (1, 4);
     polar_from_ray := fun _ _ _ => (0, 0);
     density := fun p => let '(x, _, _) := p in
                         if Rltb 3 x && Rltb x 3.5 then 1 else 0;
     sigma := fun s => s;
     color := fun _ _ _ _ => (0, 0, 0);
     background := fun _ _ => (0, 0, 0);
     packbits := fun _ _ bits => bits |}.

Definition slab_renderer : renderer :=
  {| bound := 4; cascade := 3; grid_size := 128; density_scale := 1;
     min_near := 1; density_thresh := 0.01; bg_radius := -1;
     training := true;
     aabb_train := ((-4, -4, -4), (4, 4, 4));
     aabb_infer := ((-4, -4, -4), (4, 4, 4));
     cuda_ray := false;
     density_grid := []; density_bitfield := [];
     mean_density := 0; iter_density := 0;
     step_counter := []; mean_count := 0; local_step := 0 |}.

(** Three uniform steps, one resampled step, perturbation on. *)
Definition slab_args : run_args :=
  {| num_steps := 3; upsample_steps := 1; bg_color := None; perturb := true |}.

(** The same renderer in evaluation mode, and the same arguments without
    perturbation: the configuration that draws no random number. *)
Definition slab_renderer_eval : renderer :=
  {| bound := 4; cascade := 3; grid_size := 128; density_scale := 1;
     min_near := 1; density_thresh := 0.01; bg_radius := -1;
     training := false;
     aabb_train := ((-4, -4, -4), (4, 4, 4));
     aabb_infer := ((-4, -4, -4), (4, 4, 4));
     cuda_ray := false;
     density_grid := []; density_bitfield := [];
     mean_density := 0; iter_density := 0;
     step_counter := []; mean_count := 0; local_step := 0 |}.

Definition slab_args_plain : run_args :=
  {| num_steps := 3; upsample_steps := 1; bg_color := None; perturb := false |}.

Definition x_ray : ray := ((0, 0, 0), (1, 0, 0)).

(** A generator whose fourth number is 0.9 and whose other numbers are 0.5. *)
Definition slab_rng : rng := fun i => if (i =? 3)%nat then 0.9 else 0.5.

(** *** Evaluation on the scene *)

Ltac list_eq tac :=
  repeat (apply (f_equal2 (@cons _)); [ tac | ]); try reflexivity.

Ltac exp_zero :=
  repeat match goal with
  | |- context [exp ?x] =>
      progress (replace (exp x) with 1
                 by (replace x with 0 by lra; rewrite exp_0; reflexivity))
  end.

Lemma uniform_z_vals_1_4_3 : uniform_z_vals 1 4 3 = [1; 5 / 2; 4].
Proof.
  unfold uniform_z_vals, linspace. cbn [seq map Nat.sub INR].
  list_eq ltac:(lra).
Qed.

Lemma slab_position (z : R) : -4 <= z <= 4 ->
  position ((-4, -4, -4), (4, 4, 4)) (0, 0, 0) (1, 0, 0) z = (z, 0, 0).
Proof.
  intros Hz. unfold position, vclip, vadd, vmul. cbn [fst snd].
  rewrite (Rmax_left (0 + 1 * z)) by lra. rewrite (Rmin_left (0 + 1 * z)) by lra.
  rewrite (Rmax_left (0 + 0 * z)) by lra. rewrite (Rmin_left (0 + 0 * z)) by lra.
  f_equal; [f_equal|]; lra.
Qed.

Lemma slab_density_outside (x : R) :
  x <= 3 \/ 3.5 <= x -> density slab_field (x, 0, 0) = 0.
Proof.
  intros H. cbn [density slab_field]. destruct H.
  - rewrite (Rltb_false 3 x) by lra. reflexivity.
  - rewrite (Rltb_false x 3.5) by lra. rewrite andb_false_r. reflexivity.
Qed.

Lemma slab_density_inside (x : R) : 3 < x < 3.5 -> density slab_field (x, 0, 0) = 1.
Proof.
  intros H. cbn [density slab_field].
  rewrite (Rltb_true 3 x), (Rltb_true x 3.5) by lra. reflexivity.
Qed.


(** One interval of bins and one weight: the sample is the linear
    interpolation of the two bins at the quantile. *)
Lemma sample_pdf_one_interval (b0 b1 w u : R) (n : nat) (det : bool) (rand_u : list R) :
  quantiles n det rand_u = Ok [u] ->
  0 <= w -> 0 <= u < 1 ->
  exists s, sample_pdf [b0; b1] [w] n det rand_u = Ok [s] /\ s = b0 + u * (b1 - b0).
Proof.
  intros Hq Hw Hu.
  assert (Hcdf : cdf_of_weights [w] = Ok [0; 0 + (w + 1e-5) / (w + 1e-5 + 0)]).
  { unfold cdf_of_weights. cbn [map Rsum fold_right res_map].
    rewrite checked_div_ok by lra. reflexivity. }
  assert (Hc1 : 0 + (w + 1e-5) / (w + 1e-5 + 0) = 1) by (field; lra).
  unfold sample_pdf. rewrite Hcdf, Hq. cbn [res_bind Ok].
  rewrite expand_last_same by reflexivity. cbn [res_bind Ok res_map].
  rewrite Hc1.
  assert (Hb : bracket [0; 1] u = (0, 1)%Z).
  { unfold bracket. cbn [searchsorted_right]. rcmp. reflexivity. }
  rewrite (interpolate_gathered _ _ _ 0 1 0 1 b0 b1 Hb) by reflexivity.
  rcmp. cbn [res_bind Ok]. eexists. split; [reflexivity|]. field.
Qed.

(** [run_ray] on the ray of the scene, step by step, for concrete draws
    that keep the three uniform samples outside the slab. *)
Ltac eval_slab_ray :=
  unfold run_ray, x_ray;
  cbn [training slab_renderer slab_renderer_eval aabb_train aabb_infer min_near
       near_far_from_aabb slab_field num_steps slab_args slab_args_plain perturb
       upsample_steps Nat.ltb Nat.leb];
  rewrite uniform_z_vals_1_4_3;
  rewrite checked_div_ok by (simpl; lra); cbn [res_bind Ok];
  replace ((4 - 1) / INR 3) with 1 by (simpl; lra);
  cbn [zip_with map];
  rewrite !slab_position by lra;
  rewrite !slab_density_outside by lra;
  unfold upsample;
  cbn [density_scale slab_renderer slab_renderer_eval sigma slab_field map
       upsample_steps slab_args slab_args_plain training negb];
  cbn [deltas_of tail removelast zip_with firstn map app];
  rewrite alphas_of_equal_length by reflexivity; cbn [res_bind Ok zip_with];
  exp_zero; rewrite weights_of_alphas_recurrence;
  cbn [trans_weights tail removelast];
  match goal with
  | |- context [sample_pdf [?b0; ?b1] [?w] ?n ?det ?ru] =>
      let s := fresh "s" in
      let Hs := fresh "Hs" in
      let Hv := fresh "Hv" in
      edestruct (sample_pdf_one_interval b0 b1 w _ n det ru eq_refl) as [s [Hs Hv]];
      [ lra | cbn [INR]; lra | rewrite Hs; clear Hs; subst s; cbn [INR] ]
  end;
  cbn [res_bind Ok map];
  rewrite slab_position by lra;
  first [ rewrite slab_density_inside by lra | rewrite slab_density_outside by lra ];
  unfold merge_samples, torch_sort, sort_by_key;
  cbn [app length seq combine fold_right insert_by_key fst snd]; rcmp;
  repeat (cbn [insert_by_key fst snd]; rcmp);
  cbn [map fst snd gather res_map nth_error res_bind Ok];
  unfold composite, composite_weights;
  cbn [density_scale slab_renderer slab_renderer_eval sigma slab_field map bg_radius
       bg_color slab_args slab_args_plain color];
  cbn [deltas_of tail removelast zip_with firstn map app];
  rewrite alphas_of_equal_length by reflexivity; cbn [res_bind Ok zip_with];
  exp_zero; rewrite weights_of_alphas_recurrence; cbn [trans_weights];
  cbn [res_map]; rewrite !checked_div_ok by lra;
  cbn [res_bind Ok zip_with Rsum fold_right].

(** Evaluation mode without perturbation: the quantile is 0.5, every
    sample is outside the slab, and the call returns with depth 0. *)
Lemma slab_ray_deterministic :
  exists d i m,
    run_ray slab_field slab_renderer_eval slab_args_plain [] [] x_ray = Ok (d, i, m)
    /\ d = 0.
Proof.
  eval_slab_ray. eexists _, _, _. split; [reflexivity|]. lra.
Qed.






(** *** Further properties of [run] *)

(** **** The sample distances (lines 184-192) *)

Lemma linspace_0_1_entries (n : nat) :
  (2 <= n)%nat ->
  linspace 0 1 n = map (fun i => INR i / INR (n - 1)) (seq 0 n).
Proof.
  intros Hn. unfold linspace. destruct n as [|[|n]]; try lia.
  apply map_ext. intros i. lra.
Qed.

(** X8. The uniform samples of a ray with [near <= far] and at least two
    steps: one per step, the first at [near], the last at [far], all of
    them in [near, far] and in non-decreasing order. *)
Theorem uniform_z_vals_span (nears fars : R) (num_steps : nat) :
  nears <= fars -> (2 <= num_steps)%nat ->
  length (uniform_z_vals nears fars num_steps) = num_steps /\
  hd 0 (uniform_z_vals nears fars num_steps) = nears /\
  List.last (uniform_z_vals nears fars num_steps) 0 = fars /\
  Forall (fun z => nears <= z <= fars) (uniform_z_vals nears fars num_steps) /\
  StronglySorted Rle (uniform_z_vals nears fars num_steps).
Proof.
  intros Hnf Hn. unfold uniform_z_vals.
  split; [rewrite length_map; apply linspace_length|].
  split; [|split; [|split]].
  - destruct num_steps as [|[|n]]; try lia. unfold linspace. cbn [seq map hd INR]. lra.
  - rewrite linspace_0_1_entries by exact Hn.
    destruct num_steps as [|n]; [lia|].
    rewrite seq_S, !map_app. cbn [map]. rewrite last_last.
    replace (S n - 1)%nat with n by lia. cbn [Nat.add].
    assert (INR n <> 0) by (apply not_0_INR; lia).
    field. assumption.
  - rewrite linspace_0_1_entries by exact Hn.
    rewrite List.Forall_forall. intros z Hz.
    apply in_map_iff in Hz. destruct Hz as [q [<- Hq]].
    apply in_map_iff in Hq. destruct Hq as [i [<- Hi]]. apply in_seq in Hi.
    assert (Hpos : 0 < INR (num_steps - 1)) by (apply lt_0_INR; lia).
    assert (Hi' : INR i <= INR (num_steps - 1)) by (apply le_INR; lia).
    assert (H0 : 0 <= INR i / INR (num_steps - 1)).
    { unfold Rdiv. apply Rmult_le_pos; [apply pos_INR | left; apply Rinv_0_lt_compat; exact Hpos]. }
    assert (H1 : INR i / INR (num_steps - 1) <= 1).
    { apply Rmult_le_reg_r with (INR (num_steps - 1)); [exact Hpos|].
      unfold Rdiv. rewrite Rmult_assoc, Rinv_l by lra. lra. }
    split; nra.
  - pose proof (linspace_sorted 0 1 num_steps ltac:(lra)) as Hs.
    induction Hs as [|q l Hs IH Hall]; cbn [map]; constructor; [exact IH|].
    rewrite List.Forall_forall in *. intros z Hz. apply in_map_iff in Hz.
    destruct Hz as [q' [<- Hq']]. specialize (Hall q' Hq'). nra.
Qed.

Lemma uniform_z_vals_span_witness :
  length (uniform_z_vals 1 4 3) = 3%nat /\
  hd 0 (uniform_z_vals 1 4 3) = 1 /\
  List.last (uniform_z_vals 1 4 3) 0 = 4 /\
  Forall (fun z => 1 <= z <= 4) (uniform_z_vals 1 4 3) /\
  StronglySorted Rle (uniform_z_vals 1 4 3).
Proof. apply (uniform_z_vals_span 1 4 3); [lra | lia]. Defined.

(** A row built index by index is in increasing order when its entries
    are, whatever the second operands (taken from [P]) are. *)
Lemma zip_with_seq_increasing (F : R -> R -> R) (G : nat -> R) (P : R -> Prop)
    (us : list R) (s m : nat) :
  (forall i j u u', (i < j)%nat -> P u -> P u' -> F (G i) u < F (G j) u') ->
  Forall P us ->
  StronglySorted Rlt (zip_with F (map G (seq s m)) us).
Proof.
  intros HF Hus. revert s m. induction Hus as [|u us Hu Hus IH]; intros s m.
  - destruct m; simpl; constructor.
  - destruct m as [|m]; [simpl; constructor|].
    cbn [seq map zip_with]. constructor; [apply IH|].
    clear IH. generalize (Nat.lt_succ_diag_r s). generalize (S s) as s'.
    intros s' Hs'. revert s' Hs' m.
    induction Hus as [|u' us Hu' Hus IH]; intros s' Hs' m.
    + destruct m; simpl; constructor.
    + destruct m as [|m]; [simpl; constructor|].
      cbn [seq map zip_with]. constructor.
      * apply HF; assumption.
      * apply IH. lia.
Qed.

Lemma zip_with_In {A B C} (f : A -> B -> C) (l : list A) (k : list B) (c : C) :
  In c (zip_with f l k) -> exists a b, In a l /\ In b k /\ c = f a b.
Proof.
  revert k. induction l as [|a l IH]; intros k H; [destruct H|].
  destruct k as [|b k]; [destruct H|]. cbn [zip_with] in H.
  destruct H as [<- | H].
  - exists a, b. repeat split; left; reflexivity.
  - destruct (IH k H) as [a' [b' [Ha [Hb Hc]]]].
    exists a', b'. repeat split; [right; exact Ha | right; exact Hb | exact Hc].
Qed.

(** X9. Perturbation keeps the order of the samples. For a ray with
    [near < far] and random numbers in [0,1), the perturbed distances
    (line 191) are strictly increasing, so every interval between
    neighbours is positive; each stays within half a [sample_dist] of
    [near, far], and nothing clamps it to that interval. *)
Theorem perturbed_z_vals_increasing (nears fars : R) (num_steps : nat) (u : list R) :
  nears < fars -> (1 <= num_steps)%nat ->
  Forall (fun x => 0 <= x < 1) u ->
  let sample_dist := (fars - nears) / INR num_steps in
  let z_vals :=
    zip_with (fun z u => z + (u - 0.5) * sample_dist)
      (uniform_z_vals nears fars num_steps) u in
  StronglySorted Rlt z_vals /\
  Forall (fun z => nears - sample_dist / 2 <= z < fars + sample_dist / 2) z_vals.
Proof.
  intros Hnf Hn Hu sample_dist z_vals.
  assert (HN : 0 < INR num_steps) by (apply lt_0_INR; lia).
  assert (Hsd : 0 < sample_dist).
  { subst sample_dist. unfold Rdiv. apply Rmult_lt_0_compat; [lra | apply Rinv_0_lt_compat; exact HN]. }
  destruct (Nat.eq_dec num_steps 1%nat) as [-> | Hne].
  - subst z_vals. unfold uniform_z_vals, linspace. cbn [map].
    destruct u as [|u0 u]; cbn [zip_with]; [split; constructor|].
    inversion Hu as [|? ? Hu0 Hu']; subst.
    cbn [INR] in *.
    assert (Hsd' : sample_dist = fars - nears) by (subst sample_dist; field).
    split; [constructor; constructor | constructor; [nra | constructor]].
  - assert (Hn2 : (2 <= num_steps)%nat) by lia.
    assert (HM : 0 < INR (num_steps - 1)) by (apply lt_0_INR; lia).
    assert (HMN : INR num_steps = INR (num_steps - 1) + 1).
    { rewrite <- S_INR. f_equal. lia. }
    set (M := INR (num_steps - 1)) in *.
    assert (Hstep : sample_dist < (fars - nears) / M).
    { subst sample_dist. unfold Rdiv. apply Rmult_lt_compat_l; [lra|].
      apply Rinv_lt_contravar; [apply Rmult_lt_0_compat; lra | lra]. }
    subst z_vals. unfold uniform_z_vals. rewrite linspace_0_1_entries by exact Hn2.
    fold M. rewrite map_map. split.
    + apply zip_with_seq_increasing with (P := fun x => 0 <= x < 1); [|exact Hu].
      intros i j a b Hij Ha Hb.
      assert (Hij' : INR i + 1 <= INR j).
      { rewrite <- S_INR. apply le_INR. lia. }
      assert (Hd : (fars - nears) * (INR j / M) - (fars - nears) * (INR i / M)
                   >= (fars - nears) / M).
      { replace ((fars - nears) * (INR j / M) - (fars - nears) * (INR i / M))
          with ((fars - nears) / M * (INR j - INR i)) by (field; lra).
        assert (0 < (fars - nears) / M).
        { unfold Rdiv. apply Rmult_lt_0_compat; [lra | apply Rinv_0_lt_compat; exact HM]. }
        nra. }
      nra.
    + rewrite List.Forall_forall. intros z Hz.
      apply zip_with_In in Hz. destruct Hz as [q [a [Hq [Ha ->]]]].
      apply in_map_iff in Hq. destruct Hq as [i [<- Hi]]. apply in_seq in Hi.
      rewrite List.Forall_forall in Hu. specialize (Hu a Ha).
      assert (Hi' : INR i <= M) by (apply le_INR; lia).
      assert (H0 : 0 <= INR i / M).
      { unfold Rdiv. apply Rmult_le_pos; [apply pos_INR | left; apply Rinv_0_lt_compat; exact HM]. }
      assert (H1 : INR i / M <= 1).
      { apply Rmult_le_reg_r with M; [exact HM|].
        unfold Rdiv. rewrite Rmult_assoc, Rinv_l by lra. lra. }
      split; nra.
Qed.

Lemma perturbed_z_vals_increasing_witness :
  StronglySorted Rlt
    (zip_with (fun z u => z + (u - 0.5) * ((4 - 1) / INR 3)) (uniform_z_vals 1 4 3)
       [0; 0.5; 0.9]) /\
  Forall (fun z => 1 - (4 - 1) / INR 3 / 2 <= z < 4 + (4 - 1) / INR 3 / 2)
    (zip_with (fun z u => z + (u - 0.5) * ((4 - 1) / INR 3)) (uniform_z_vals 1 4 3)
       [0; 0.5; 0.9]).
Proof.
  apply (perturbed_z_vals_increasing 1 4 3 [0; 0.5; 0.9]);
    [lra | lia | repeat constructor; lra].
Defined.

(** **** Resampling needs three uniform steps *)

(** With no weight at all the CDF is the empty row, and the first
    quantile finds nothing to gather; a row of two or more bins is
    refused before that, when it is expanded to the CDF's length. *)
Lemma sample_pdf_no_weights (bins : list R) (n_samples : nat) (det : bool)
    (rand_u : list R) :
  (if det then n_samples <> 0%nat else rand_u <> []) ->
  sample_pdf bins [] n_samples det rand_u = Err RuntimeError.
Proof.
  intros Hq. unfold sample_pdf, cdf_of_weights.
  cbn [map res_map res_bind Ok cumsum cumsum_from firstn app length].
  assert (Hu : exists q u, quantiles n_samples det rand_u = Ok (q :: u)).
  { unfold quantiles. destruct det.
    - destruct n_samples as [|[|n]]; [contradiction | |].
      + eexists; eexists; reflexivity.
      + unfold linspace. cbn [seq map]. eexists; eexists; reflexivity.
    - destruct rand_u as [|q u]; [contradiction | eexists; eexists; reflexivity]. }
  destruct Hu as [q [u ->]]. cbn [res_bind Ok].
  destruct bins as [|x [|y bins]]; reflexivity.
Qed.

Lemma removelast_tail_short {A} (l : list A) : (length l <= 2)%nat -> removelast (tail l) = [].
Proof. destruct l as [|a [|b [|c l]]]; simpl; try reflexivity; lia. Qed.

Lemma upsample_few_samples (E : externals) (self : renderer) (a : run_args)
    (aabb : vec3 * vec3) (rays_o rays_d : vec3) (sample_dist : R) (u_pdf z_vals : list R)
    (xyzs : list vec3) (density_outputs : list (dens_out E)) :
  (length z_vals <= 2)%nat -> length density_outputs = length z_vals ->
  (if negb (training self) then upsample_steps a <> 0%nat else u_pdf <> []) ->
  upsample E self a aabb rays_o rays_d sample_dist u_pdf z_vals xyzs density_outputs
  = Err RuntimeError.
Proof.
  intros Hz Hd Hq. unfold upsample.
  assert (Ha : exists alphas,
             alphas_of (density_scale self) (deltas_of z_vals sample_dist)
               (map (sigma E) density_outputs) = Ok alphas /\ (length alphas <= 2)%nat).
  { destruct z_vals as [|z0 [|z1 [|z2 z_vals]]]; simpl in Hz; try lia;
      destruct density_outputs as [|d0 [|d1 [|d2 ds]]]; try discriminate Hd;
      eexists; (split; [reflexivity | simpl; lia]). }
  destruct Ha as [alphas [-> Hl]]. cbn [res_bind Ok].
  rewrite removelast_tail_short.
  - rewrite sample_pdf_no_weights by exact Hq. reflexivity.
  - unfold weights_of_alphas. rewrite length_zip_with. lia.
Qed.

Lemma run_ray_few_steps (E : externals) (self : renderer) (a : run_args)
    (u_perturb u_pdf : list R) (r : ray) :
  (1 <= num_steps a <= 2)%nat -> (0 < upsample_steps a)%nat ->
  (training self = true -> u_pdf <> []) ->
  run_ray E self a u_perturb u_pdf r = Err RuntimeError.
Proof.
  intros HT Ht Hu. unfold run_ray. destruct r as [rays_o rays_d].
  destruct (near_far_from_aabb E rays_o rays_d _ (min_near self)) as [nears fars].
  rewrite checked_div_ok by (apply not_0_INR; lia). cbn [res_bind Ok].
  rewrite (proj2 (Nat.ltb_lt _ _) Ht).
  rewrite upsample_few_samples; [reflexivity | | |].
  - destruct (perturb a).
    + rewrite length_zip_with. unfold uniform_z_vals.
      rewrite length_map, linspace_length. lia.
    + unfold uniform_z_vals. rewrite length_map, linspace_length. lia.
  - rewrite !length_map. reflexivity.
  - destruct (training self); cbn [negb]; [apply Hu; reflexivity | lia].
Qed.

(** X10. Importance resampling needs at least three uniform steps: with
    [num_steps] 1 or 2 and [upsample_steps > 0] the interior weights
    [weights[:, 1:-1]] are an empty row, [sample_pdf] gets an empty CDF,
    and [run] raises [RuntimeError] on any batch that holds a ray. *)
Theorem run_upsampling_needs_three_steps (E : externals) (a : run_args)
    (rays : list (list ray)) (self : renderer) (g : rng) :
  (1 <= num_steps a <= 2)%nat -> (0 < upsample_steps a)%nat ->
  concat rays <> [] ->
  run E a rays self g = Err RuntimeError.
Proof.
  intros HT Ht Hne. unfold run.
  destruct (concat rays) as [|r0 flat]; [contradiction|].
  rewrite (proj2 (Nat.ltb_lt _ _) Ht). cbn [andb length].
  destruct (if perturb a then rand_rows (S (length flat)) (num_steps a) g
            else (repeat [] (S (length flat)), g)) as [u_perturb g1] eqn:Ep.
  assert (Hp : exists up ups, u_perturb = up :: ups).
  { destruct (perturb a); injection Ep as <- _; unfold rand_rows; cbn [seq map repeat fst];
      eexists; eexists; reflexivity. }
  destruct Hp as [up [ups ->]].
  destruct (if training self then rand_rows (S (length flat)) (upsample_steps a) g1
            else (repeat [] (S (length flat)), g1)) as [u_pdf g2] eqn:Eu.
  assert (Hu : exists ud uds, u_pdf = ud :: uds /\ (training self = true -> ud <> [])).
  { destruct (training self); injection Eu as <- _.
    - unfold rand_rows. cbn [seq map fst]. eexists; eexists. split; [reflexivity|].
      intros _ Hnil. apply (f_equal (@length R)) in Hnil.
      rewrite length_map, length_seq in Hnil. simpl in Hnil. lia.
    - cbn [repeat]. eexists; eexists. split; [reflexivity | discriminate]. }
  destruct Hu as [ud [uds [-> Hud]]].
  cbn [zip zip_with res_map fst snd].
  rewrite run_ray_few_steps by assumption. reflexivity.
Qed.

Lemma run_upsampling_needs_three_steps_witness :
  run slab_field
    {| num_steps := 2; upsample_steps := 1; bg_color := None; perturb := false |}
    [[x_ray]] slab_renderer_eval slab_rng = Err RuntimeError.
Proof.
  apply run_upsampling_needs_three_steps; [simpl; lia | simpl; lia | discriminate].
Defined.

(** **** Compositing (lines 244-285) *)

(** The background colour that lines 275-279 choose for a ray. *)
Definition background_of (E : externals) (self : renderer) (a : run_args)
    (rays_o rays_d : vec3) : vec3 :=
  if Rltb 0 (bg_radius self)
  then background E (polar_from_ray E rays_o rays_d (bg_radius self)) rays_d
  else match bg_color a with
       | None => (1, 1, 1)
       | Some c => c
       end.

Lemma trans_weights_nonneg (alphas : list R) (T : R) :
  0 < T -> Forall (fun a => 0 <= a <= 1) alphas ->
  Forall (fun w => 0 <= w) (trans_weights T alphas).
Proof.
  intros HT Hall. revert T HT. induction Hall as [|a l Ha Hl IH]; intros T HT; [constructor|].
  cbn [trans_weights]. constructor.
  - apply Rmult_le_pos; lra.
  - apply IH. apply Rmult_lt_0_compat; lra.
Qed.

Lemma trans_weights_zero (n : nat) (T : R) : trans_weights T (repeat 0 n) = repeat 0 n.
Proof.
  revert T. induction n as [|n IH]; intros T; [reflexivity|].
  cbn [repeat trans_weights]. rewrite IH. f_equal. lra.
Qed.

Lemma zero_sigma_alphas (k : R) (deltas sigmas : list R) :
  length deltas = length sigmas -> Forall (fun s => s = 0) sigmas ->
  zip_with (fun d s => 1 - exp (- d * k * s)) deltas sigmas = repeat 0 (length sigmas).
Proof.
  intros Hlen Hs. revert deltas Hlen. induction Hs as [|s sigmas Hs0 Hs IH]; intros deltas Hlen.
  - destruct deltas; [reflexivity | discriminate Hlen].
  - destruct deltas as [|d deltas]; [discriminate Hlen|]. injection Hlen as Hlen.
    cbn [zip_with length repeat]. rewrite IH by exact Hlen. f_equal.
    subst s. replace (- d * k * 0) with 0 by lra. rewrite exp_0. lra.
Qed.

(** Where every density is zero, every weight is zero. *)
Lemma composite_weights_zero_sigma (k : R) (z_vals : list R) (sample_dist : R)
    (sigmas : list R) :
  (2 <= length z_vals)%nat -> length sigmas = length z_vals ->
  Forall (fun s => s = 0) sigmas ->
  composite_weights k z_vals sample_dist sigmas = Ok (repeat 0 (length z_vals)).
Proof.
  intros Hz Hlen Hs. unfold composite_weights.
  rewrite alphas_of_equal_length by (rewrite deltas_of_length by exact Hz; congruence).
  cbn [res_bind Ok]. rewrite zero_sigma_alphas; [|rewrite deltas_of_length by exact Hz; congruence | exact Hs].
  rewrite weights_of_alphas_recurrence, trans_weights_zero, Hlen. reflexivity.
Qed.

Lemma Rsum_repeat_0 (n : nat) : Rsum (repeat 0 n) = 0.
Proof. induction n as [|n IH]; simpl; [reflexivity | rewrite IH; lra]. Qed.

Lemma Rsum_zip_repeat_0 (n : nat) (l : list R) : Rsum (zip_with Rmult (repeat 0 n) l) = 0.
Proof.
  revert l. induction n as [|n IH]; intros l; [reflexivity|].
  destruct l as [|x l]; [reflexivity|]. cbn [repeat zip_with Rsum fold_right].
  fold (Rsum (zip_with Rmult (repeat 0 n) l)). rewrite IH. lra.
Qed.

Lemma vsum_zip_repeat_0 (n : nat) (l : list vec3) :
  vsum (zip_with vscale (repeat 0 n) l) = (0, 0, 0).
Proof.
  revert l. induction n as [|n IH]; intros l; [reflexivity|].
  destruct l as [|[[x y] z] l]; [reflexivity|]. cbn [repeat zip_with vsum fold_right].
  fold (vsum (zip_with vscale (repeat 0 n) l)). rewrite IH.
  cbn [vscale vadd]. f_equal; [f_equal|]; lra.
Qed.

Lemma ori_z_vals_returns (nears fars : R) (z_vals : list R) :
  fars <> nears ->
  res_map (fun z => let! q := checked_div (z - nears) (fars - nears) in Ok (clamp 0 1 q))
    z_vals
  = Ok (map (fun z => clamp 0 1 ((z - nears) / (fars - nears))) z_vals).
Proof.
  intros Hnf. apply res_map_ok. intros z _.
  rewrite checked_div_ok by lra. reflexivity.
Qed.

Lemma composite_zero_sigma (E : externals) (self : renderer) (a : run_args)
    (rays_o rays_d : vec3) (nears fars sample_dist : R)
    (z_vals : list R) (xyzs : list vec3) (density_outputs : list (dens_out E)) :
  fars <> nears -> (2 <= length z_vals)%nat ->
  length density_outputs = length z_vals ->
  Forall (fun o => sigma E o = 0) density_outputs ->
  composite E self a rays_o rays_d nears fars sample_dist z_vals xyzs density_outputs
  = Ok (0, background_of E self a rays_o rays_d, false).
Proof.
  intros Hnf Hz Hlen Hs. unfold composite.
  rewrite composite_weights_zero_sigma;
    [| exact Hz | rewrite length_map; exact Hlen
     | clear - Hs; induction Hs; cbn [map]; constructor; assumption].
  cbn [res_bind Ok]. rewrite ori_z_vals_returns by exact Hnf. cbn [res_bind Ok].
  rewrite Rsum_zip_repeat_0, vsum_zip_repeat_0, Rsum_repeat_0.
  rewrite (Rltb_false 0.95 0) by lra. fold (background_of E self a rays_o rays_d).
  destruct (background_of E self a rays_o rays_d) as [[b0 b1] b2].
  cbn [vscale vadd].
  replace (0 + (1 - 0) * b0) with b0 by lra.
  replace (0 + (1 - 0) * b1) with b1 by lra.
  replace (0 + (1 - 0) * b2) with b2 by lra.
  reflexivity.
Qed.

(** [sample_pdf] returns when there is one non-negative weight per
    interval of [bins], and at least one. *)
Lemma sample_pdf_returns (bins weights : list R) (n_samples : nat) (det : bool)
    (rand_u : list R) :
  weights <> [] -> Forall (fun w => 0 <= w) weights ->
  length bins = S (length weights) -> (det = true -> n_samples <> 0%nat) ->
  exists samples, sample_pdf bins weights n_samples det rand_u = Ok samples.
Proof.
  intros Hne Hnn Hb Hn.
  destruct (cdf_of_weights_ok weights Hne Hnn) as [cdf [Hcdf Hlen]].
  unfold sample_pdf. rewrite Hcdf. cbn [res_bind Ok].
  assert (Hq : exists u, quantiles n_samples det rand_u = Ok u).
  { unfold quantiles. destruct det; [|eexists; reflexivity].
    destruct n_samples; [exfalso; apply Hn; reflexivity | eexists; reflexivity]. }
  destruct Hq as [u ->]. cbn [res_bind Ok].
  rewrite expand_last_same by congruence. cbn [res_bind Ok].
  destruct (res_map_all (interpolate bins cdf) (fun _ => True) u) as [out [Hout _]].
  { intros q. destruct (interpolate_between_bins bins cdf q) as [s [_ [_ [Hs _]]]];
      [destruct cdf; [discriminate Hlen | discriminate] | congruence |].
    exists s. split; [exact Hs | exact I]. }
  exists out. exact Hout.
Qed.

(** The merge returns one slot per input sample, each density output
    taken from the inputs. *)
Lemma merge_samples_returns {D : Type} (z_vals : list R) (xyzs : list vec3)
    (density_outputs : list D) (new_z_vals : list R) (new_xyzs : list vec3)
    (new_density_outputs : list D) :
  length xyzs = length z_vals -> length density_outputs = length z_vals ->
  length new_xyzs = length new_z_vals ->
  length new_density_outputs = length new_z_vals ->
  exists zs xs ds,
    merge_samples z_vals xyzs density_outputs new_z_vals new_xyzs new_density_outputs
      = Ok (zs, xs, ds) /\
    Sorted Rle zs /\
    length zs = (length z_vals + length new_z_vals)%nat /\
    length ds = length zs /\
    Forall (fun d => In d (density_outputs ++ new_density_outputs)) ds.
Proof.
  intros Hx Hd Hnx Hnd. unfold merge_samples.
  destruct (torch_sort (z_vals ++ new_z_vals)) as [zs idx] eqn:Es.
  destruct (torch_sort_spec _ _ _ Es) as [Hsorted [Hperm HFz]].
  assert (Hrange : Forall (fun i => (i < length (z_vals ++ new_z_vals))%nat) idx).
  { apply (Permutation_Forall (Permutation_sym Hperm)).
    apply List.Forall_forall. intros i Hi. apply in_seq in Hi. lia. }
  destruct (gather_in_range (xyzs ++ new_xyzs) idx) as [xs [Hxs HFx]].
  { eapply Forall_impl; [exact Hrange|]. intros i Hi. simpl in *.
    rewrite length_app in *. lia. }
  destruct (gather_in_range (density_outputs ++ new_density_outputs) idx) as [ds [Hds HFd]].
  { eapply Forall_impl; [exact Hrange|]. intros i Hi. simpl in *.
    rewrite length_app in *. lia. }
  rewrite Hxs, Hds. cbn [res_bind Ok].
  exists zs, xs, ds. split; [reflexivity|]. split; [exact Hsorted|].
  assert (Hlz : length zs = (length z_vals + length new_z_vals)%nat).
  { rewrite <- (Forall2_length _ _ _ HFz). apply Permutation_length in Hperm.
    rewrite Hperm, length_seq, length_app. reflexivity. }
  split; [exact Hlz|]. split.
  - rewrite <- (Forall2_length _ _ _ HFd), (Forall2_length _ _ _ HFz). reflexivity.
  - clear - HFd. induction HFd as [|i d idx ds Hid HF IH]; constructor; [|exact IH].
    eapply nth_error_In. exact Hid.
Qed.

Lemma removelast_tail_repeat {A} (x : A) (n : nat) :
  removelast (tail (repeat x n)) = repeat x (n - 2).
Proof.
  destruct n as [|n]; [reflexivity|]. cbn [repeat tail].
  induction n as [|n IH]; [reflexivity|].
  destruct n as [|n]; [reflexivity|].
  change (removelast (repeat x (S (S n)))) with (x :: removelast (repeat x (S n))).
  rewrite IH. simpl. rewrite Nat.sub_0_r. reflexivity.
Qed.

(** X11. A ray through empty space shows the background. If the field
    returns density 0 at every point, then [run] gives the ray depth 0,
    the background colour as its colour and a false mask, with or
    without perturbation and resampling (at least two uniform steps, three
    with resampling, and [near] different from [far]). *)
Theorem transparent_ray_renders_background (E : externals) (self : renderer)
    (a : run_args) (u_perturb u_pdf : list R) (rays_o rays_d : vec3) :
  (forall p, sigma E (density E p) = 0) ->
  (let '(nears, fars) :=
     near_far_from_aabb E rays_o rays_d
       (if training self then aabb_train self else aabb_infer self) (min_near self) in
   fars <> nears) ->
  (2 <= num_steps a)%nat ->
  (perturb a = true -> length u_perturb = num_steps a) ->
  ((0 < upsample_steps a)%nat -> (3 <= num_steps a)%nat) ->
  run_ray E self a u_perturb u_pdf (rays_o, rays_d)
  = Ok (0, background_of E self a rays_o rays_d, false).
Proof.
  intros Hzero Hnf HT Hp Hup. unfold run_ray.
  destruct (near_far_from_aabb E rays_o rays_d _ (min_near self)) as [nears fars].
  rewrite checked_div_ok by (apply not_0_INR; lia). cbn [res_bind Ok].
  set (sample_dist := (fars - nears) / INR (num_steps a)).
  set (aabb := if training self then aabb_train self else aabb_infer self).
  set (z_vals := if perturb a
                 then zip_with (fun z u => z + (u - 0.5) * sample_dist)
                        (uniform_z_vals nears fars (num_steps a)) u_perturb
                 else uniform_z_vals nears fars (num_steps a)).
  assert (Hlz : length z_vals = num_steps a).
  { subst z_vals. unfold uniform_z_vals. destruct (perturb a).
    - rewrite length_zip_with, length_map, linspace_length, Hp by reflexivity. lia.
    - rewrite length_map, linspace_length. reflexivity. }
  assert (Hall : forall xs : list vec3, Forall (fun o => sigma E o = 0) (map (density E) xs)).
  { intros xs. induction xs; cbn [map]; constructor; [apply Hzero | assumption]. }
  assert (Hs0 : forall xs : list vec3,
             Forall (fun s => s = 0) (map (sigma E) (map (density E) xs))).
  { intros xs. induction xs; cbn [map]; constructor; [apply Hzero | assumption]. }
  destruct (0 <? upsample_steps a)%nat eqn:Et.
  - apply Nat.ltb_lt in Et. specialize (Hup Et).
    unfold upsample.
    rewrite alphas_of_equal_length
      by (rewrite deltas_of_length, !length_map by lia; reflexivity).
    cbn [res_bind Ok].
    rewrite zero_sigma_alphas;
      [| rewrite deltas_of_length, !length_map by lia; reflexivity | apply Hs0 ].
    rewrite weights_of_alphas_recurrence, trans_weights_zero, !length_map, Hlz.
    rewrite removelast_tail_repeat.
    destruct (sample_pdf_returns
                (zip_with (fun z d => z + 0.5 * d) (removelast z_vals)
                   (removelast (deltas_of z_vals sample_dist)))
                (repeat 0 (num_steps a - 2)) (upsample_steps a) (negb (training self)) u_pdf)
      as [new_z_vals Hnew].
    { destruct (num_steps a) as [|[|[|n]]]; try lia. discriminate. }
    { clear. induction (num_steps a - 2)%nat; cbn [repeat]; constructor; [lra | assumption]. }
    { rewrite length_zip_with, !removelast_length, deltas_of_length, repeat_length by lia.
      lia. }
    { intros _. lia. }
    rewrite Hnew. cbn [res_bind Ok].
    destruct (merge_samples_returns z_vals (map (position aabb rays_o rays_d) z_vals)
                (map (density E) (map (position aabb rays_o rays_d) z_vals))
                new_z_vals (map (position aabb rays_o rays_d) new_z_vals)
                (map (density E) (map (position aabb rays_o rays_d) new_z_vals)))
      as [zs [xs [ds [Hm [_ [Hzs [Hds Hin]]]]]]];
      try (rewrite !length_map; reflexivity).
    rewrite Hm. cbn [res_bind Ok].
    apply composite_zero_sigma; [exact Hnf | lia | exact Hds |].
    eapply Forall_impl; [exact Hin|]. intros o Ho. cbn beta in Ho.
    rewrite <- map_app in Ho. apply in_map_iff in Ho. destruct Ho as [p [<- _]].
    apply Hzero.
  - cbn [res_bind Ok].
    apply composite_zero_sigma; [exact Hnf | lia | rewrite !length_map; reflexivity | apply Hall].
Qed.

(** A field that is empty everywhere, with red samples on a black
    background. *)
Definition empty_field : externals :=
  {| dens_out := R;
     near_far_from_aabb := fun _ _ _ _ => (1, 4);
     polar_from_ray := fun _ _ _ => (0, 0);
     density := fun _ => 0;
     sigma := fun s => s;
     color := fun _ _ _ _ => (1, 0, 0);
     background := fun _ _ => (0, 0, 0);
     packbits := fun _ _ bits => bits |}.

Lemma transparent_ray_renders_background_witness :
  run_ray empty_field slab_renderer_eval slab_args_plain [] [] ((0, 0, 0), (1, 0, 0))
  = Ok (0, background_of empty_field slab_renderer_eval slab_args_plain (0, 0, 0) (1, 0, 0),
        false).
Proof.
  apply transparent_ray_renders_background;
    [reflexivity | simpl; lra | simpl; lia | discriminate | simpl; lia].
Defined.

Lemma weighted_sum_bounds (ws os : list R) :
  Forall (fun w => 0 <= w) ws -> Forall (fun o => 0 <= o <= 1) os ->
  0 <= Rsum (zip_with Rmult ws os) <= Rsum ws.
Proof.
  intros Hw. revert os. induction Hw as [|w ws Hw0 Hw IH]; intros os Ho.
  - simpl. lra.
  - destruct Ho as [|o os Ho0 Ho].
    + cbn [zip_with Rsum fold_right]. fold (Rsum ws).
      assert (0 <= Rsum ws).
      { clear - Hw. induction Hw as [|x l Hx Hl IHl]; simpl; [lra|]. fold (Rsum l). lra. }
      lra.
    + cbn [zip_with Rsum fold_right]. fold (Rsum ws). fold (Rsum (zip_with Rmult ws os)).
      specialize (IH os Ho). nra.
Qed.

(** X12. The depth of a ray is a part of its weight sum. For a ray with
    at least two samples at non-decreasing distances, non-negative
    densities, a positive [density_scale], a non-negative [sample_dist]
    and [near] different from [far], the compositing returns; every
    weight is non-negative; the depth lies between 0 and the weight sum
    (the normalised distances are clamped to [0,1]); and the mask is set
    exactly when the weight sum exceeds 0.95. *)
Theorem depth_within_weight_sum (E : externals) (self : renderer) (a : run_args)
    (rays_o rays_d : vec3) (nears fars sample_dist : R)
    (z_vals : list R) (xyzs : list vec3) (density_outputs : list (dens_out E)) :
  0 < density_scale self -> Sorted Rle z_vals -> 0 <= sample_dist ->
  Forall (fun o => 0 <= sigma E o) density_outputs ->
  length density_outputs = length z_vals -> (2 <= length z_vals)%nat ->
  fars <> nears ->
  exists weights d im m,
    composite_weights (density_scale self) z_vals sample_dist
      (map (sigma E) density_outputs) = Ok weights /\
    composite E self a rays_o rays_d nears fars sample_dist z_vals xyzs density_outputs
      = Ok (d, im, m) /\
    Forall (fun w => 0 <= w) weights /\
    0 <= d <= Rsum weights /\
    (m = true <-> 0.95 < Rsum weights).
Proof.
  intros Hk Hs Hsd Hsig Hlen Hz Hnf.
  assert (Hw : composite_weights (density_scale self) z_vals sample_dist
                 (map (sigma E) density_outputs)
               = Ok (trans_weights (1 * 1)
                       (zip_with (fun d s => 1 - exp (- d * density_scale self * s))
                          (deltas_of z_vals sample_dist) (map (sigma E) density_outputs)))).
  { unfold composite_weights.
    rewrite alphas_of_equal_length
      by (rewrite deltas_of_length, length_map by exact Hz; congruence).
    cbn [res_bind Ok]. rewrite weights_of_alphas_recurrence. reflexivity. }
  set (weights := trans_weights _ _) in Hw.
  assert (Hnn : Forall (fun w => 0 <= w) weights).
  { subst weights. apply trans_weights_nonneg; [lra|].
    apply alphas_in_range; [lra | apply deltas_of_nonneg; assumption |].
    clear - Hsig. induction Hsig; cbn [map]; constructor; assumption. }
  unfold composite. rewrite Hw. cbn [res_bind Ok].
  rewrite ori_z_vals_returns by exact Hnf. cbn [res_bind Ok].
  eexists; eexists; eexists; eexists.
  split; [reflexivity|]. split; [reflexivity|]. split; [exact Hnn|]. split.
  - apply weighted_sum_bounds; [exact Hnn|].
    clear. induction z_vals as [|z l IH]; cbn [map]; constructor; [|exact IH].
    unfold clamp, Rmin, Rmax.
    destruct (Rle_dec ((z - nears) / (fars - nears)) 0);
      destruct (Rle_dec _ 1); lra.
  - apply Rltb_spec.
Qed.

Lemma depth_within_weight_sum_witness :
  exists weights d im m,
    composite_weights (density_scale slab_renderer) [1; 2] 1 (map (sigma slab_field) [0; 1])
      = Ok weights /\
    composite slab_field slab_renderer slab_args (0, 0, 0) (1, 0, 0) 1 4 1 [1; 2]
      [(1, 0, 0); (2, 0, 0)] [0; 1] = Ok (d, im, m) /\
    Forall (fun w => 0 <= w) weights /\
    0 <= d <= Rsum weights /\
    (m = true <-> 0.95 < Rsum weights).
Proof.
  apply (depth_within_weight_sum slab_field slab_renderer slab_args (0, 0, 0) (1, 0, 0)
           1 4 1 [1; 2] [(1, 0, 0); (2, 0, 0)] [0; 1]);
    [ simpl; lra | repeat constructor; lra | lra | repeat constructor; simpl; lra
    | reflexivity | simpl; lia | lra ].
Defined.

(** **** The shape of the results *)






End NeRFRenderer.


(** ** The density grid (renderer.py lines 460-594) *)

Module DensityGrid.

Import NeRFRenderer.

(** [density_grid[cas][index]] *)
Abbreviation grid := (list (list R)).

Definition cell (g : grid) (cas index : nat) : option R :=
  match nth_error g cas with
  | Some row => nth_error row index
  | None => None
  end.

Definition with_density_grid (g : grid) (self : renderer) : renderer :=
  {| bound := bound self; cascade := cascade self; grid_size := grid_size self;
     density_scale := density_scale self; min_near := min_near self;
     density_thresh := density_thresh self; bg_radius := bg_radius self;
     training := training self; aabb_train := aabb_train self;
     aabb_infer := aabb_infer self; cuda_ray := cuda_ray self;
     density_grid := g; density_bitfield := density_bitfield self;
     mean_density := mean_density self; iter_density := iter_density self;
     step_counter := step_counter self; mean_count := mean_count self;
     local_step := local_step self |}.

(** *** [mark_untrained_grid] (lines 460-510) *)

(** Line 510, [density_grid[count == 0] = -1]: [count] has the shape of
    the grid. *)
Definition mark_cells (count : list (list nat)) (g : grid) : grid :=
  zip_with (zip_with (fun n x => if (n =? 0)%nat then -1 else x)) count g.

(** [count] is what lines 468-509 leave in the tensor of that name: for
    every voxel of every cascade, the number of camera poses whose view
    frustum covers the voxel. *)
Definition mark_untrained_grid (self : renderer) (count : list (list nat)) : renderer :=
  if negb (cuda_ray self) then self
  else with_density_grid (mark_cells count (density_grid self)) self.

(** *** [update_extra_state] (lines 512-594) *)

(** One assignment [tmp_grid[cas, index] = sigma * density_scale]. *)
Definition write_cell (density_scale : R) (tmp_grid : grid) (s : nat * nat * R) : res grid :=
  let '(cas, index, sigma) := s in
  match nth_error tmp_grid cas with
  | Some row =>
      if (index <? length row)%nat
      then Ok (<[cas := <[index := sigma * density_scale]> row]> tmp_grid)
      else Err RuntimeError
  | None => Err RuntimeError
  end.

Fixpoint write_cells (density_scale : R) (tmp_grid : grid) (samples : list (nat * nat * R))
    : res grid :=
  match samples with
  | [] => Ok tmp_grid
  | s :: samples' =>
      let! tmp_grid := write_cell density_scale tmp_grid s in
      write_cells density_scale tmp_grid samples'
  end.

(** Lines 517-578. [full] and [partial] are the voxels that the full and
    the partial update query, in the order of their assignments, each with
    its cascade, its Morton index and the density returned for it: they
    come from [raymarching.morton3D], [torch.rand] and the field. *)
Definition sample_grid (self : renderer) (force_full_update : bool)
    (full partial : list (nat * nat * R)) : res grid :=
  let tmp_grid := map (map (fun _ => -1)) (density_grid self) in
  if (iter_density self <? 16)%nat || force_full_update
  then write_cells (density_scale self) tmp_grid full
  else write_cells (density_scale self) tmp_grid partial.

(** Lines 580-583 for one voxel. *)
Definition combine_cell (decay : R) (force_full_grid : bool) (old sampled : R) : R :=
  let valid_mask := Rleb 0 old && Rleb 0 sampled in
  let valid_mask := if force_full_grid then true else valid_mask in
  if valid_mask then Rmax (old * decay) sampled else old.

Definition combine_grids (decay : R) (force_full_grid : bool) (g tmp_grid : grid) : grid :=
  zip_with (zip_with (combine_cell decay force_full_grid)) g tmp_grid.

(** [torch.mean(density_grid.clamp(min=0))] *)
Definition mean_clamped (g : grid) : res R :=
  let cells := map (fun x => Rmax x 0) (concat g) in
  checked_div (Rsum cells) (INR (length cells)).

(** [int(step_counter[:total_step, 0].sum().item() / total_step)] *)
Definition mean_steps (step_counter : list (Z * Z)) (total_step : nat) : Z :=
  Z.quot (fold_right Z.add 0%Z (map fst (firstn total_step step_counter)))
         (Z.of_nat total_step).

Definition update_extra_state (E : externals) (self : renderer) (decay : R)
    (force_full_update force_full_grid : bool)
    (full partial : list (nat * nat * R)) : res renderer :=
  if negb (cuda_ray self) then Ok self
  else
    let! tmp_grid := sample_grid self force_full_update full partial in
    let density_grid' := combine_grids decay force_full_grid (density_grid self) tmp_grid in
    let! mean_density' := mean_clamped density_grid' in
    let density_thresh' := Rmin mean_density' (density_thresh self) in
    let density_bitfield' :=
      packbits E density_grid' density_thresh' (density_bitfield self) in
    let total_step := Nat.min 16 (local_step self) in
    let mean_count' :=
      if (0 <? total_step)%nat
      then mean_steps (step_counter self) total_step
      else mean_count self in
    Ok {| bound := bound self; cascade := cascade self; grid_size := grid_size self;
          density_scale := density_scale self; min_near := min_near self;
          density_thresh := density_thresh self; bg_radius := bg_radius self;
          training := training self; aabb_train := aabb_train self;
          aabb_infer := aabb_infer self; cuda_ray := cuda_ray self;
          density_grid := density_grid';
          density_bitfield := density_bitfield';
          mean_density := mean_density';
          iter_density := S (iter_density self);
          step_counter := step_counter self;
          mean_count := mean_count';
          local_step := 0 |}.

(** One later call of [update_extra_state], by its arguments. *)
Record update_call : Type := {
  call_decay : R;
  call_force_full_update : bool;
  call_force_full_grid : bool;
  call_full : list (nat * nat * R);
  call_partial : list (nat * nat * R);
}.

(** A sequence of calls, each on the state the previous one left. *)
Fixpoint update_many (E : externals) (self : renderer) (calls : list update_call)
    : res renderer :=
  match calls with
  | [] => Ok self
  | c :: calls' =>
      let! self := update_extra_state E self (call_decay c) (call_force_full_update c)
                     (call_force_full_grid c) (call_full c) (call_partial c) in
      update_many E self calls'
  end.

(** [initialize_states] (lines 160-166): one forced call with decay 0 and
    thirty forced calls with decay 1. [samples k] is what call [k] samples. *)
Definition initialize_calls (samples : nat -> list (nat * nat * R)) : list update_call :=
  {| call_decay := 0; call_force_full_update := true; call_force_full_grid := true;
     call_full := samples 0%nat; call_partial := [] |}
  :: map (fun k => {| call_decay := 1; call_force_full_update := true;
                      call_force_full_grid := true;
                      call_full := samples (S k); call_partial := [] |})
         (seq 0 30).

Definition initialize_states (E : externals) (self : renderer)
    (samples : nat -> list (nat * nat * R)) : res renderer :=
  update_many E self (initialize_calls samples).

(** *** Lemmas on grids *)

Lemma nth_error_zip_with {A B C} (f : A -> B -> C) (l : list A) (k : list B) (i : nat) :
  nth_error (zip_with f l k) i =
  match nth_error l i, nth_error k i with
  | Some a, Some b => Some (f a b)
  | _, _ => None
  end.
Proof.
  revert k i. induction l as [|a l IH]; intros k i.
  - destruct i; reflexivity.
  - destruct k as [|b k]; [destruct i; simpl; [reflexivity | destruct (nth_error l i); reflexivity]|].
    destruct i as [|i]; simpl; [reflexivity | apply IH].
Qed.

Lemma cell_zip_with (f : R -> R -> R) (g1 g2 : grid) (c v : nat) (a b : R) :
  cell g1 c v = Some a -> cell g2 c v = Some b ->
  cell (zip_with (zip_with f) g1 g2) c v = Some (f a b).
Proof.
  unfold cell. intros H1 H2. rewrite nth_error_zip_with.
  destruct (nth_error g1 c) as [r1|]; [|discriminate H1].
  destruct (nth_error g2 c) as [r2|]; [|discriminate H2].
  rewrite nth_error_zip_with, H1, H2. reflexivity.
Qed.

Lemma cell_in_concat (g : grid) (c v : nat) (x : R) : cell g c v = Some x -> In x (concat g).
Proof.
  unfold cell. intros H. destruct (nth_error g c) as [row|] eqn:Er; [|discriminate H].
  apply in_concat. exists row. split; [eapply nth_error_In; exact Er | eapply nth_error_In; exact H].
Qed.

Lemma nth_error_insert_eq {A} (l : list A) (i : nat) (x : A) :
  (i < length l)%nat -> nth_error (<[i := x]> l) i = Some x.
Proof.
  revert i. induction l as [|a l IH]; intros i Hi; simpl in Hi; [lia|].
  destruct i as [|i]; simpl; [reflexivity | apply IH; lia].
Qed.

Lemma nth_error_insert_ne {A} (l : list A) (i j : nat) (x : A) :
  i <> j -> nth_error (<[i := x]> l) j = nth_error l j.
Proof.
  revert i j. induction l as [|a l IH]; intros i j Hij; [destruct i; reflexivity|].
  destruct i as [|i], j as [|j]; simpl; try reflexivity; try congruence.
  apply IH. congruence.
Qed.

(** A write changes the written voxel only, and no shape. *)
Lemma write_cell_other (k : R) (tmp tmp' : grid) (cas index : nat) (sigma : R) (c v : nat) :
  write_cell k tmp (cas, index, sigma) = Ok tmp' ->
  (cas, index) <> (c, v) -> cell tmp' c v = cell tmp c v.
Proof.
  unfold write_cell. destruct (nth_error tmp cas) as [row|] eqn:Er; [|discriminate].
  destruct (index <? length row)%nat eqn:Ei; [|discriminate].
  intros H Hne. injection H as <-. unfold cell.
  destruct (Nat.eq_dec cas c) as [-> | Hc].
  - rewrite nth_error_insert_eq by (apply nth_error_Some; congruence).
    rewrite Er. apply nth_error_insert_ne. congruence.
  - rewrite nth_error_insert_ne by exact Hc. reflexivity.
Qed.

Lemma write_cell_defined (k : R) (tmp tmp' : grid) (s : nat * nat * R) (c v : nat) :
  write_cell k tmp s = Ok tmp' ->
  (exists x, cell tmp c v = Some x) -> exists x', cell tmp' c v = Some x'.
Proof.
  destruct s as [[cas index] sigma]. intros H [x Hx].
  destruct (Nat.eq_dec cas c) as [-> | Hc]; [destruct (Nat.eq_dec index v) as [-> | Hv]|].
  - revert H. unfold write_cell.
    destruct (nth_error tmp c) as [row|] eqn:Er; [|discriminate].
    destruct (v <? length row)%nat eqn:Ei; [|discriminate].
    intros H. injection H as <-. apply Nat.ltb_lt in Ei. unfold cell.
    rewrite nth_error_insert_eq by (apply nth_error_Some; congruence).
    rewrite nth_error_insert_eq by exact Ei. eexists; reflexivity.
  - rewrite (write_cell_other _ _ _ _ _ _ _ _ H) by congruence. exists x; exact Hx.
  - rewrite (write_cell_other _ _ _ _ _ _ _ _ H) by congruence. exists x; exact Hx.
Qed.

Lemma write_cells_defined (k : R) (samples : list (nat * nat * R)) (tmp tmp' : grid)
    (c v : nat) :
  write_cells k tmp samples = Ok tmp' ->
  (exists x, cell tmp c v = Some x) -> exists x', cell tmp' c v = Some x'.
Proof.
  revert tmp. induction samples as [|s samples IH]; intros tmp H Hx; simpl in H.
  - injection H as <-. exact Hx.
  - destruct (write_cell k tmp s) as [e | tmp1] eqn:E1; [discriminate H|].
    apply (IH tmp1 H). eapply write_cell_defined; eassumption.
Qed.

Lemma write_cells_untouched (k : R) (samples : list (nat * nat * R)) (tmp tmp' : grid)
    (c v : nat) :
  write_cells k tmp samples = Ok tmp' ->
  Forall (fun s => (fst (fst s), snd (fst s)) <> (c, v)) samples ->
  cell tmp' c v = cell tmp c v.
Proof.
  revert tmp. induction samples as [|s samples IH]; intros tmp H Hall; simpl in H.
  - injection H as <-. reflexivity.
  - destruct (write_cell k tmp s) as [e | tmp1] eqn:E1; [discriminate H|].
    apply Forall_cons in Hall. destruct Hall as [Hs Hall].
    rewrite (IH tmp1 H Hall). destruct s as [[cas index] sigma].
    eapply write_cell_other; eassumption.
Qed.

Lemma cell_map (f : R -> R) (g : grid) (c v : nat) :
  cell (map (map f) g) c v = option_map f (cell g c v).
Proof.
  unfold cell. rewrite nth_error_map. destruct (nth_error g c) as [row|]; [|reflexivity].
  simpl. rewrite nth_error_map. reflexivity.
Qed.

(** The samples in use: the full update in the first 16 calls or when
    forced, the partial update otherwise (line 520). *)
Definition chosen_samples (self : renderer) (force_full_update : bool)
    (full partial : list (nat * nat * R)) : list (nat * nat * R) :=
  if (iter_density self <? 16)%nat || force_full_update then full else partial.

Lemma sample_grid_chosen (self : renderer) (ffu : bool) (full partial : list (nat * nat * R)) :
  sample_grid self ffu full partial =
  write_cells (density_scale self) (map (map (fun _ => -1)) (density_grid self))
    (chosen_samples self ffu full partial).
Proof. unfold sample_grid, chosen_samples. destruct (_ || _); reflexivity. Qed.

(** The sampled grid has a value wherever the grid has one, and it is -1
    at every voxel that no sample addresses. *)
Lemma sample_grid_defined (self : renderer) (ffu : bool) (full partial : list (nat * nat * R))
    (tmp : grid) (c v : nat) (old : R) :
  sample_grid self ffu full partial = Ok tmp ->
  cell (density_grid self) c v = Some old ->
  exists sampled, cell tmp c v = Some sampled.
Proof.
  rewrite sample_grid_chosen. intros H Hold.
  eapply write_cells_defined; [exact H|].
  rewrite cell_map, Hold. eexists; reflexivity.
Qed.

Lemma sample_grid_unsampled (self : renderer) (ffu : bool)
    (full partial : list (nat * nat * R)) (tmp : grid) (c v : nat) (old : R) :
  sample_grid self ffu full partial = Ok tmp ->
  cell (density_grid self) c v = Some old ->
  Forall (fun s => (fst (fst s), snd (fst s)) <> (c, v))
         (chosen_samples self ffu full partial) ->
  cell tmp c v = Some (-1).
Proof.
  rewrite sample_grid_chosen. intros H Hold Hall.
  rewrite (write_cells_untouched _ _ _ _ _ _ H Hall), cell_map, Hold. reflexivity.
Qed.

Lemma mean_clamped_defined (g : grid) (c v : nat) (x : R) :
  cell g c v = Some x ->
  mean_clamped g =
  Ok (Rsum (map (fun y => Rmax y 0) (concat g)) / INR (length (concat g))).
Proof.
  intros Hx. unfold mean_clamped. rewrite length_map. apply checked_div_ok.
  apply cell_in_concat in Hx. destruct (concat g) as [|y l]; [destruct Hx|].
  apply not_0_INR. simpl. lia.
Qed.

(** [update_extra_state] on an accelerated renderer, once the samples are
    written: the new grid is the combination, and the call returns. *)
Lemma update_extra_state_returns (E : externals) (self : renderer) (decay : R)
    (ffu ffg : bool) (full partial : list (nat * nat * R)) (tmp : grid)
    (c v : nat) (old : R) :
  cuda_ray self = true ->
  sample_grid self ffu full partial = Ok tmp ->
  cell (density_grid self) c v = Some old ->
  exists self' sampled,
    update_extra_state E self decay ffu ffg full partial = Ok self' /\
    cell tmp c v = Some sampled /\
    density_grid self' = combine_grids decay ffg (density_grid self) tmp /\
    cell (density_grid self') c v = Some (combine_cell decay ffg old sampled) /\
    mean_clamped (density_grid self') = Ok (mean_density self') /\
    density_bitfield self' =
      packbits E (density_grid self')
        (Rmin (mean_density self') (density_thresh self)) (density_bitfield self) /\
    cuda_ray self' = true /\ density_thresh self' = density_thresh self.
Proof.
  intros Hcuda Htmp Hold.
  destruct (sample_grid_defined _ _ _ _ _ _ _ _ Htmp Hold) as [sampled Hs].
  pose proof (cell_zip_with (combine_cell decay ffg) _ _ _ _ _ _ Hold Hs) as Hnew.
  fold (combine_grids decay ffg (density_grid self) tmp) in Hnew.
  unfold update_extra_state. rewrite Hcuda, Htmp. cbn [negb res_bind Ok].
  rewrite (mean_clamped_defined _ _ _ _ Hnew). cbn [res_bind Ok].
  eexists. exists sampled. split; [reflexivity|].
  cbn [density_grid mean_density density_bitfield cuda_ray density_thresh].
  split; [exact Hs|]. split; [reflexivity|]. split; [exact Hnew|].
  split; [apply (mean_clamped_defined _ _ _ _ Hnew)|].
  split; [reflexivity|]. split; reflexivity.
Qed.

Lemma update_extra_state_step (E : externals) (self self' : renderer) (decay : R)
    (ffu ffg : bool) (full partial : list (nat * nat * R)) (c v : nat) (old : R) :
  update_extra_state E self decay ffu ffg full partial = Ok self' ->
  cuda_ray self = true ->
  cell (density_grid self) c v = Some old ->
  exists sampled,
    cell (density_grid self') c v = Some (combine_cell decay ffg old sampled) /\
    cuda_ray self' = true.
Proof.
  intros Hup Hcuda Hold.
  destruct (sample_grid self ffu full partial) as [e | tmp] eqn:Etmp.
  - unfold update_extra_state in Hup. rewrite Hcuda, Etmp in Hup. discriminate Hup.
  - destruct (update_extra_state_returns E self decay ffu ffg full partial tmp c v old
                Hcuda Etmp Hold) as [self2 [sampled [H2 [_ [_ [Hc [_ [_ [Hcu _]]]]]]]]].
    rewrite H2 in Hup. injection Hup as <-. exists sampled. split; assumption.
Qed.

Lemma combine_cell_invalid (decay old sampled : R) :
  old < 0 \/ sampled < 0 -> combine_cell decay false old sampled = old.
Proof.
  intros H. unfold combine_cell. destruct H.
  - rewrite (Rleb_false 0 old) by lra. reflexivity.
  - rewrite (Rleb_false 0 sampled) by lra. rewrite andb_false_r. reflexivity.
Qed.

Lemma combine_cell_valid (decay old sampled : R) :
  0 <= old -> 0 <= sampled -> combine_cell decay false old sampled = Rmax (old * decay) sampled.
Proof.
  intros Ho Hs. unfold combine_cell. rewrite !Rleb_true by assumption. reflexivity.
Qed.

(** The sum of the cells clamped at 0 is the sum of the non-negative cells. *)
Lemma sum_clamped_is_sum_nonneg (cells : list R) :
  Rsum (map (fun x => Rmax x 0) cells) = Rsum (List.filter (fun x => Rleb 0 x) cells).
Proof.
  induction cells as [|x cells IH]; [reflexivity|]. cbn [map List.filter Rsum fold_right].
  fold (Rsum (map (fun x => Rmax x 0) cells)). rewrite IH.
  unfold Rleb. destruct (Rle_dec 0 x) as [Hx | Hx].
  - rewrite Rmax_left by lra. reflexivity.
  - rewrite Rmax_right by lra. cbn [Rsum fold_right]. unfold Rsum. lra.
Qed.

(** Every call of [initialize_states] forces the whole grid. *)
Lemma initialize_states_forces_full_grid (samples : nat -> list (nat * nat * R)) :
  Forall (fun call => call_force_full_grid call = true) (initialize_calls samples).
Proof.
  unfold initialize_calls. constructor; [reflexivity|].
  apply List.Forall_forall. intros call Hc. apply in_map_iff in Hc.
  destruct Hc as [k [<- _]]. reflexivity.
Qed.

(** A forced call replaces every voxel by [max (old * decay) sampled]. *)
Lemma forced_update_cell (E : externals) (self self' : renderer) (decay : R)
    (ffu : bool) (full partial : list (nat * nat * R)) (c v : nat) (old : R) :
  update_extra_state E self decay ffu true full partial = Ok self' ->
  cuda_ray self = true ->
  cell (density_grid self) c v = Some old ->
  exists x, cell (density_grid self') c v = Some x /\ old * decay <= x /\
            cuda_ray self' = true.
Proof.
  intros Hup Hcuda Hold.
  destruct (update_extra_state_step _ _ _ _ _ _ _ _ c v old Hup Hcuda Hold)
    as [sampled [Hcell Hcu]].
  eexists. split; [exact Hcell|]. split; [|exact Hcu].
  unfold combine_cell. apply Rmax_l.
Qed.

Lemma forced_decay_1_keeps_nonneg (E : externals) (calls : list update_call)
    (self self' : renderer) (c v : nat) (old : R) :
  Forall (fun call => call_force_full_grid call = true /\ call_decay call = 1) calls ->
  update_many E self calls = Ok self' ->
  cuda_ray self = true -> cell (density_grid self) c v = Some old -> 0 <= old ->
  exists x, cell (density_grid self') c v = Some x /\ 0 <= x.
Proof.
  intros Hcalls. revert self old.
  induction Hcalls as [|call calls [Hffg Hdecay] Hcalls IH]; intros self old Hup Hcuda Hold Hnn.
  - injection Hup as <-. exists old. split; assumption.
  - cbn [update_many] in Hup. rewrite Hffg, Hdecay in Hup.
    destruct (update_extra_state E self 1 (call_force_full_update call) true
                (call_full call) (call_partial call)) as [e | s1] eqn:E1; [discriminate Hup|].
    cbn [res_bind] in Hup.
    destruct (forced_update_cell _ _ _ _ _ _ _ c v old E1 Hcuda Hold) as [x [Hx [Hle Hcu]]].
    apply (IH s1 x Hup Hcu Hx). lra.
Qed.

(** A forced call with decay 0 followed by forced calls with decay 1
    leaves every voxel non-negative. *)
Lemma forced_calls_clear_marks (E : externals) (first : update_call)
    (rest : list update_call) (self self' : renderer) (c v : nat) (old : R) :
  call_force_full_grid first = true -> call_decay first = 0 ->
  Forall (fun call => call_force_full_grid call = true /\ call_decay call = 1) rest ->
  update_many E self (first :: rest) = Ok self' ->
  cuda_ray self = true -> cell (density_grid self) c v = Some old ->
  exists x, cell (density_grid self') c v = Some x /\ 0 <= x.
Proof.
  intros Hffg Hdecay Hrest Hup Hcuda Hold.
  cbn [update_many] in Hup. rewrite Hffg, Hdecay in Hup.
  destruct (update_extra_state E self 0 (call_force_full_update first) true
              (call_full first) (call_partial first)) as [e | s1] eqn:E1;
    [discriminate Hup|].
  cbn [res_bind] in Hup.
  destruct (forced_update_cell _ _ _ _ _ _ _ c v old E1 Hcuda Hold) as [x [Hx [Hle Hcu]]].
  assert (Hx0 : 0 <= x) by lra.
  exact (forced_decay_1_keeps_nonneg E rest s1 self' c v x Hrest Hup Hcu Hx Hx0).
Qed.

Lemma initialize_calls_shape (samples : nat -> list (nat * nat * R)) :
  exists first rest,
    initialize_calls samples = first :: rest /\
    call_force_full_grid first = true /\ call_decay first = 0 /\
    Forall (fun call => call_force_full_grid call = true /\ call_decay call = 1) rest.
Proof.
  unfold initialize_calls. eexists _, _. split; [reflexivity|].
  split; [reflexivity|]. split; [reflexivity|].
  apply List.Forall_forall. intros call Hc. apply in_map_iff in Hc.
  destruct Hc as [k [<- _]]. split; reflexivity.
Qed.

(** [initialize_states] leaves no voxel at -1: after it, every voxel of an
    accelerated renderer is non-negative, the marked ones too. *)
Lemma initialize_states_clears_marks (E : externals) (self self' : renderer)
    (samples : nat -> list (nat * nat * R)) (c v : nat) (old : R) :
  initialize_states E self samples = Ok self' ->
  cuda_ray self = true -> cell (density_grid self) c v = Some old ->
  exists x, cell (density_grid self') c v = Some x /\ 0 <= x.
Proof.
  unfold initialize_states. intros Hup Hcuda Hold.
  destruct (initialize_calls_shape samples) as [first [rest [Hcalls [Hffg [Hdecay Hrest]]]]].
  rewrite Hcalls in Hup.
  exact (forced_calls_clear_marks E first rest self self' c v old Hffg Hdecay Hrest
           Hup Hcuda Hold).
Qed.

(** *** A grid of one cascade and two voxels *)

Definition two_voxel_renderer : renderer :=
  {| bound := 1; cascade := 1; grid_size := 128; density_scale := 1;
     min_near := 0.2; density_thresh := 0.01; bg_radius := -1;
     training := true;
     aabb_train := ((-1, -1, -1), (1, 1, 1));
     aabb_infer := ((-1, -1, -1), (1, 1, 1));
     cuda_ray := true;
     density_grid := [[1; 5]]; density_bitfield := [false; false];
     mean_density := 0; iter_density := 0;
     step_counter := repeat (0%Z, 0%Z) 16; mean_count := 0; local_step := 0 |}.

(** A full update that finds density 2 at voxel 0 and 3 at voxel 1. *)
Definition both_voxels : list (nat * nat * R) := [(0%nat, 0%nat, 2); (0%nat, 1%nat, 3)].

Example sample_both_voxels :
  sample_grid two_voxel_renderer true both_voxels [] = Ok [[2 * 1; 3 * 1]].
Proof. reflexivity. Qed.

(** No camera sees voxel 1: it is marked. *)
Example mark_second_voxel :
  density_grid (mark_untrained_grid two_voxel_renderer [[1%nat; 0%nat]]) = [[1; -1]].
Proof. reflexivity. Qed.

(** *** Claims *)

(** C5. A call of [update_extra_state] without [force_full_grid] on an
    accelerated renderer, whose samples address voxels of the grid,
    returns, and then for every voxel with old value [old] and sampled
    value [sampled]: if both are non-negative the voxel holds
    [max (old * decay) sampled]; if one of them is negative the voxel
    keeps [old]; and a voxel that no sample addresses has the sampled
    value -1 and keeps [old]. *)
Theorem grid_update_combines_valid_voxels (E : externals) (self : renderer) (decay : R)
    (force_full_update : bool) (full partial : list (nat * nat * R)) (tmp_grid : grid)
    (c v : nat) (old sampled : R) :
  cuda_ray self = true ->
  sample_grid self force_full_update full partial = Ok tmp_grid ->
  cell (density_grid self) c v = Some old ->
  cell tmp_grid c v = Some sampled ->
  exists self',
    update_extra_state E self decay force_full_update false full partial = Ok self' /\
    (0 <= old -> 0 <= sampled ->
     cell (density_grid self') c v = Some (Rmax (old * decay) sampled)) /\
    (old < 0 \/ sampled < 0 -> cell (density_grid self') c v = Some old) /\
    (Forall (fun s => (fst (fst s), snd (fst s)) <> (c, v))
            (chosen_samples self force_full_update full partial) ->
     sampled = -1 /\ cell (density_grid self') c v = Some old).
Proof.
  intros Hcuda Htmp Hold Hsampled.
  destruct (update_extra_state_returns E self decay force_full_update false full partial
              tmp_grid c v old Hcuda Htmp Hold)
    as [self' [sampled' [Hup [Hs' [_ [Hcell _]]]]]].
  rewrite Hsampled in Hs'. injection Hs' as <-.
  exists self'. split; [exact Hup|]. split; [|split].
  - intros Ho Hs. rewrite Hcell, combine_cell_valid by assumption. reflexivity.
  - intros Hneg. rewrite Hcell, combine_cell_invalid by assumption. reflexivity.
  - intros Hnone.
    pose proof (sample_grid_unsampled _ _ _ _ _ _ _ _ Htmp Hold Hnone) as Hm.
    rewrite Hsampled in Hm. injection Hm as Hm. split; [exact Hm|].
    rewrite Hcell, combine_cell_invalid by (right; lra). reflexivity.
Qed.

Lemma grid_update_combines_valid_voxels_witness :
  exists self',
    update_extra_state slab_field two_voxel_renderer 0.95 true false both_voxels []
      = Ok self' /\
    cell (density_grid self') 0 0 = Some (Rmax (1 * 0.95) (2 * 1)).
Proof.
  destruct (grid_update_combines_valid_voxels slab_field two_voxel_renderer 0.95 true
              both_voxels [] [[2 * 1; 3 * 1]] 0 0 1 (2 * 1)
              eq_refl eq_refl eq_refl eq_refl) as [self' [Hup [Hvalid _]]].
  exists self'. split; [exact Hup|]. apply Hvalid; lra.
Defined.

(** C6. After a call of [update_extra_state] on an accelerated renderer
    (forced or not), [mean_density] is the mean over all cells of the new
    grid of the cells clamped at 0 - the sum of the non-negative cells
    divided by the number of all cells - and the bitfield is
    [packbits] of the new grid with the threshold
    [min mean_density density_thresh]. *)
Theorem grid_update_recomputes_mean_and_bitfield (E : externals) (self : renderer)
    (decay : R) (force_full_update force_full_grid : bool)
    (full partial : list (nat * nat * R)) (tmp_grid : grid) (c v : nat) (old : R) :
  cuda_ray self = true ->
  sample_grid self force_full_update full partial = Ok tmp_grid ->
  cell (density_grid self) c v = Some old ->
  exists self',
    update_extra_state E self decay force_full_update force_full_grid full partial
      = Ok self' /\
    mean_density self' =
      Rsum (map (fun x => Rmax x 0) (concat (density_grid self')))
      / INR (length (concat (density_grid self'))) /\
    mean_density self' =
      Rsum (List.filter (fun x => Rleb 0 x) (concat (density_grid self')))
      / INR (length (concat (density_grid self'))) /\
    density_bitfield self' =
      packbits E (density_grid self')
        (Rmin (mean_density self') (density_thresh self)) (density_bitfield self).
Proof.
  intros Hcuda Htmp Hold.
  destruct (update_extra_state_returns E self decay force_full_update force_full_grid
              full partial tmp_grid c v old Hcuda Htmp Hold)
    as [self' [sampled [Hup [_ [_ [Hcell [Hmean [Hbits _]]]]]]]].
  exists self'. split; [exact Hup|].
  rewrite (mean_clamped_defined _ _ _ _ Hcell) in Hmean. injection Hmean as Hmean.
  split; [symmetry; exact Hmean|]. split; [|exact Hbits].
  rewrite <- sum_clamped_is_sum_nonneg. symmetry. exact Hmean.
Qed.

Lemma grid_update_recomputes_mean_and_bitfield_witness :
  exists self',
    update_extra_state slab_field two_voxel_renderer 0.95 true false both_voxels []
      = Ok self' /\
    mean_density self' =
      Rsum (map (fun x => Rmax x 0) (concat (density_grid self')))
      / INR (length (concat (density_grid self'))) /\
    mean_density self' =
      Rsum (List.filter (fun x => Rleb 0 x) (concat (density_grid self')))
      / INR (length (concat (density_grid self'))) /\
    density_bitfield self' =
      packbits slab_field (density_grid self')
        (Rmin (mean_density self') (density_thresh two_voxel_renderer))
        (density_bitfield two_voxel_renderer).
Proof.
  apply (grid_update_recomputes_mean_and_bitfield slab_field two_voxel_renderer 0.95
           true false both_voxels [] [[2 * 1; 3 * 1]] 0 0 1); reflexivity.
Defined.

(** C8, as stated, fails: a call with [force_full_grid] (as
    [initialize_states] makes them) writes every voxel, the marked ones
    too. Voxel 1 of the two-voxel grid is marked -1, and a forced full
    update that samples density 3 there leaves it at
    [max (-1 * 0.95) 3 = 3]. *)
Lemma forced_update_overwrites_marked_voxel :
  exists self' x,
    cell (density_grid (mark_untrained_grid two_voxel_renderer [[1%nat; 0%nat]])) 0 1
      = Some (-1) /\
    update_many slab_field (mark_untrained_grid two_voxel_renderer [[1%nat; 0%nat]])
      [ {| call_decay := 0.95; call_force_full_update := true;
           call_force_full_grid := true; call_full := both_voxels;
           call_partial := [] |} ] = Ok self' /\
    cell (density_grid self') 0 1 = Some x /\ x = 3 /\ x <> -1.
Proof.
  destruct (update_extra_state_returns slab_field
              (mark_untrained_grid two_voxel_renderer [[1%nat; 0%nat]]) 0.95 true true
              both_voxels [] [[2 * 1; 3 * 1]] 0 1 (-1) eq_refl eq_refl eq_refl)
    as [self' [sampled [Hup [Hs [_ [Hcell _]]]]]].
  injection Hs as <-.
  exists self', (combine_cell 0.95 true (-1) (3 * 1)).
  split; [reflexivity|]. split.
  - cbn [update_many call_decay call_force_full_update call_force_full_grid call_full
         call_partial]. rewrite Hup. reflexivity.
  - split; [exact Hcell|]. unfold combine_cell. rewrite Rmax_right by lra. split; lra.
Qed.

(** C8, amended. On an accelerated renderer, a voxel that
    [mark_untrained_grid] finds covered by no camera is set to -1, and it
    is -1 after every sequence of later calls of [update_extra_state]
    that do not set [force_full_grid], whatever their decay and whether
    they update in full or in part. *)
Theorem marked_voxels_stay_invalid (E : externals) (self : renderer)
    (count : list (list nat)) (calls : list update_call) (c v : nat) (old : R) :
  cuda_ray self = true ->
  cell (density_grid self) c v = Some old ->
  match nth_error count c with
  | Some row => nth_error row v
  | None => None
  end = Some 0%nat ->
  Forall (fun call => call_force_full_grid call = false) calls ->
  cell (density_grid (mark_untrained_grid self count)) c v = Some (-1) /\
  match update_many E (mark_untrained_grid self count) calls with
  | inr self' => cell (density_grid self') c v = Some (-1)
  | inl _ => True
  end.
Proof.
  intros Hcuda Hold Hcount Hcalls.
  assert (Hmarked : cell (density_grid (mark_untrained_grid self count)) c v = Some (-1)).
  { unfold mark_untrained_grid. rewrite Hcuda. cbn [negb with_density_grid density_grid].
    unfold cell, mark_cells in *. rewrite nth_error_zip_with.
    destruct (nth_error count c) as [crow|]; [|discriminate Hcount].
    destruct (nth_error (density_grid self) c) as [row|]; [|discriminate Hold].
    rewrite nth_error_zip_with, Hcount, Hold. reflexivity. }
  split; [exact Hmarked|].
  assert (Hcuda' : cuda_ray (mark_untrained_grid self count) = true).
  { unfold mark_untrained_grid. rewrite Hcuda. exact Hcuda. }
  revert Hmarked Hcuda'. generalize (mark_untrained_grid self count) as s.
  induction Hcalls as [|call calls Hffg Hcalls IH]; intros s Hm Hc.
  - exact Hm.
  - cbn [update_many]. rewrite Hffg.
    destruct (update_extra_state E s (call_decay call) (call_force_full_update call)
                false (call_full call) (call_partial call)) as [e | s1] eqn:Eup;
      [exact I|].
    cbn [res_bind].
    destruct (update_extra_state_step _ _ _ _ _ _ _ _ c v (-1) Eup Hc Hm)
      as [sampled [Hcell Hcu]].
    apply IH; [|exact Hcu].
    rewrite Hcell, combine_cell_invalid by (left; lra). reflexivity.
Qed.

Lemma marked_voxels_stay_invalid_witness :
  cell (density_grid (mark_untrained_grid two_voxel_renderer [[1%nat; 0%nat]])) 0 1
    = Some (-1) /\
  match update_many slab_field (mark_untrained_grid two_voxel_renderer [[1%nat; 0%nat]])
          [ {| call_decay := 0.95; call_force_full_update := true;
               call_force_full_grid := false; call_full := both_voxels;
               call_partial := [] |} ] with
  | inr self' => cell (density_grid self') 0 1 = Some (-1)
  | inl _ => True
  end.
Proof.
  apply (marked_voxels_stay_invalid slab_field two_voxel_renderer [[1%nat; 0%nat]]
           [ {| call_decay := 0.95; call_force_full_update := true;
                call_force_full_grid := false; call_full := both_voxels;
                call_partial := [] |} ] 0 1 5).
  - reflexivity.
  - reflexivity.
  - reflexivity.
  - repeat constructor.
Defined.

(** An unforced call on the marked grid returns: the unmarked voxel 0 takes the new
    density, the marked voxel 1 stays at -1. *)
Example unforced_update_on_marked_grid :
  exists self',
    update_many slab_field (mark_untrained_grid two_voxel_renderer [[1%nat; 0%nat]])
      [ {| call_decay := 0.95; call_force_full_update := true;
           call_force_full_grid := false; call_full := both_voxels;
           call_partial := [] |} ] = Ok self' /\
    cell (density_grid self') 0 0 = Some (Rmax (1 * 0.95) (2 * 1)) /\
    cell (density_grid self') 0 1 = Some (-1).
Proof.
  destruct (update_extra_state_returns slab_field
              (mark_untrained_grid two_voxel_renderer [[1%nat; 0%nat]]) 0.95 true false
              both_voxels [] [[2 * 1; 3 * 1]] 0 1 (-1) eq_refl eq_refl eq_refl)
    as [self' [sampled [Hup [Hs [Hgrid [Hcell _]]]]]].
  injection Hs as <-. exists self'. split; [|split].
  - cbn [update_many call_decay call_force_full_update call_force_full_grid call_full
         call_partial]. rewrite Hup. reflexivity.
  - rewrite Hgrid. unfold cell. cbn [mark_untrained_grid two_voxel_renderer cuda_ray negb
      with_density_grid density_grid mark_cells combine_grids zip_with nth_error Nat.eqb].
    rewrite combine_cell_valid by lra. reflexivity.
  - rewrite Hcell, combine_cell_invalid by (left; lra). reflexivity.
Qed.

(** *** Further properties of the grid update *)

(** A sample addresses a voxel of a grid of the given row lengths. *)
Definition in_shape (shape : list nat) (s : nat * nat * R) : Prop :=
  match nth_error shape (fst (fst s)) with
  | Some n => (snd (fst s) < n)%nat
  | None => False
  end.

Lemma insert_row_shape {A} (g : list (list A)) (cas : nat) (row row' : list A) :
  nth_error g cas = Some row -> length row' = length row ->
  map length (<[cas := row']> g) = map length g.
Proof.
  revert cas. induction g as [|r g IH]; intros cas Hrow Hlen.
  - destruct cas; discriminate Hrow.
  - destruct cas as [|cas]; simpl in *.
    + injection Hrow as ->. rewrite Hlen. reflexivity.
    + f_equal. apply IH; assumption.
Qed.

Lemma write_cell_shape (k : R) (tmp tmp' : grid) (s : nat * nat * R) :
  write_cell k tmp s = Ok tmp' -> map length tmp' = map length tmp.
Proof.
  destruct s as [[cas index] sg]. unfold write_cell.
  destruct (nth_error tmp cas) as [row|] eqn:Er; [|discriminate].
  destruct (index <? length row)%nat; [|discriminate].
  intros H. injection H as <-.
  apply (insert_row_shape tmp cas row); [exact Er | apply length_insert].
Qed.

Lemma write_cells_shape (k : R) (samples : list (nat * nat * R)) (tmp tmp' : grid) :
  write_cells k tmp samples = Ok tmp' -> map length tmp' = map length tmp.
Proof.
  revert tmp. induction samples as [|s samples IH]; intros tmp H; simpl in H.
  - injection H as <-. reflexivity.
  - destruct (write_cell k tmp s) as [e | tmp1] eqn:E1; [discriminate H|].
    cbn [res_bind] in H. rewrite (IH tmp1 H). exact (write_cell_shape k tmp tmp1 s E1).
Qed.

Lemma write_cells_returns (k : R) (samples : list (nat * nat * R)) (tmp : grid) :
  Forall (in_shape (map length tmp)) samples ->
  exists tmp', write_cells k tmp samples = Ok tmp'.
Proof.
  intros H. revert tmp H. induction samples as [|s samples IH]; intros tmp H.
  - eexists; reflexivity.
  - inversion H as [|? ? Hs Hrest]; subst. cbn [write_cells].
    assert (H1 : exists tmp1, write_cell k tmp s = Ok tmp1).
    { destruct s as [[cas index] sg]. unfold in_shape in Hs. cbn [fst snd] in Hs.
      unfold write_cell. rewrite nth_error_map in Hs.
      destruct (nth_error tmp cas) as [row|]; [|contradiction]. cbn [option_map] in Hs.
      rewrite (proj2 (Nat.ltb_lt _ _) Hs). eexists; reflexivity. }
    destruct H1 as [tmp1 H1]. rewrite H1. cbn [res_bind].
    apply IH. rewrite (write_cell_shape k tmp tmp1 s H1). exact Hrest.
Qed.

Lemma blank_shape (g : grid) : map length (map (map (fun _ : R => -1)) g) = map length g.
Proof. rewrite map_map. apply map_ext. intros row. apply length_map. Qed.

Lemma sample_grid_shape (self : renderer) (ffu : bool) (full partial : list (nat * nat * R))
    (tmp : grid) :
  sample_grid self ffu full partial = Ok tmp ->
  map length tmp = map length (density_grid self).
Proof.
  rewrite sample_grid_chosen. intros H.
  rewrite (write_cells_shape _ _ _ _ H). apply blank_shape.
Qed.

Lemma combine_grids_shape (decay : R) (ffg : bool) (g tmp : grid) :
  map length tmp = map length g ->
  map length (combine_grids decay ffg g tmp) = map length g.
Proof.
  unfold combine_grids. revert tmp. induction g as [|r g IH]; intros tmp H.
  - reflexivity.
  - destruct tmp as [|t tmp]; [discriminate H|]. injection H as Hr Hg.
    cbn [zip_with map]. f_equal; [rewrite length_zip_with; lia | apply IH; exact Hg].
Qed.

(** What a call on an accelerated renderer that returns has done. *)
Lemma update_extra_state_inv (E : externals) (self self' : renderer) (decay : R)
    (ffu ffg : bool) (full partial : list (nat * nat * R)) :
  update_extra_state E self decay ffu ffg full partial = Ok self' ->
  cuda_ray self = true ->
  exists tmp,
    sample_grid self ffu full partial = Ok tmp /\
    density_grid self' = combine_grids decay ffg (density_grid self) tmp /\
    mean_clamped (density_grid self') = Ok (mean_density self') /\
    iter_density self' = S (iter_density self) /\
    local_step self' = 0%nat /\
    step_counter self' = step_counter self /\
    density_scale self' = density_scale self /\
    cuda_ray self' = true.
Proof.
  intros H Hcuda. unfold update_extra_state in H. rewrite Hcuda in H. cbn [negb] in H.
  destruct (sample_grid self ffu full partial) as [e | tmp]; [discriminate H|].
  cbn [res_bind] in H.
  destruct (mean_clamped (combine_grids decay ffg (density_grid self) tmp))
    as [e | m] eqn:Em; [discriminate H|].
  cbn [res_bind] in H. injection H as <-. exists tmp.
  cbn [density_grid mean_density iter_density local_step step_counter density_scale cuda_ray].
  repeat split; try reflexivity. exact Em.
Qed.

Lemma update_extra_state_shape (E : externals) (self self' : renderer) (decay : R)
    (ffu ffg : bool) (full partial : list (nat * nat * R)) :
  update_extra_state E self decay ffu ffg full partial = Ok self' ->
  map length (density_grid self') = map length (density_grid self) /\
  length (step_counter self') = length (step_counter self) /\
  cuda_ray self' = cuda_ray self.
Proof.
  intros H. destruct (cuda_ray self) eqn:Hcuda.
  - destruct (update_extra_state_inv E self self' decay ffu ffg full partial H Hcuda)
      as [tmp [Htmp [Hg [_ [_ [_ [Hsc [_ Hcu]]]]]]]].
    rewrite Hg, Hsc. split; [|split; [reflexivity | exact Hcu]].
    apply combine_grids_shape. exact (sample_grid_shape _ _ _ _ _ Htmp).
  - unfold update_extra_state in H. rewrite Hcuda in H. injection H as <-.
    repeat split; try reflexivity. exact Hcuda.
Qed.

(** A call returns on an accelerated renderer whose grid has a voxel,
    when every sample it takes addresses a voxel of the grid. *)
Lemma update_extra_state_total (E : externals) (self : renderer) (decay : R)
    (ffu ffg : bool) (full partial : list (nat * nat * R)) :
  cuda_ray self = true -> concat (density_grid self) <> [] ->
  Forall (in_shape (map length (density_grid self))) (chosen_samples self ffu full partial) ->
  exists self', update_extra_state E self decay ffu ffg full partial = Ok self'.
Proof.
  intros Hcuda Hne Hin.
  destruct (write_cells_returns (density_scale self) (chosen_samples self ffu full partial)
              (map (map (fun _ => -1)) (density_grid self))) as [tmp Htmp].
  { rewrite blank_shape. exact Hin. }
  rewrite <- sample_grid_chosen in Htmp.
  unfold update_extra_state. rewrite Hcuda, Htmp. cbn [negb res_bind Ok].
  unfold mean_clamped. rewrite checked_div_ok; [eexists; reflexivity|].
  rewrite length_map. apply not_0_INR.
  rewrite length_concat, combine_grids_shape, <- length_concat
    by exact (sample_grid_shape _ _ _ _ _ Htmp).
  destruct (concat (density_grid self)); [contradiction | discriminate].
Qed.

Lemma update_many_shape (E : externals) (calls : list update_call)
    (self self' : renderer) :
  update_many E self calls = Ok self' ->
  map length (density_grid self') = map length (density_grid self).
Proof.
  revert self. induction calls as [|call calls IH]; intros self H; simpl in H.
  - injection H as <-. reflexivity.
  - destruct (update_extra_state E self _ _ _ _ _) as [e | self1] eqn:E1; [discriminate H|].
    cbn [res_bind] in H. rewrite (IH self1 H).
    destruct (update_extra_state_shape _ _ _ _ _ _ _ _ E1) as [Hg1 _]. exact Hg1.
Qed.

(** X13. Updates never change the shape of the density grid (the number
    of cascades and of voxels per cascade), the number of step counters
    or the choice of the accelerated path, whatever they sample and
    however many they are. *)
Theorem update_keeps_grid_shape (E : externals) (calls : list update_call)
    (self self' : renderer) :
  update_many E self calls = Ok self' ->
  map length (density_grid self') = map length (density_grid self) /\
  length (step_counter self') = length (step_counter self) /\
  cuda_ray self' = cuda_ray self.
Proof.
  revert self. induction calls as [|call calls IH]; intros self H; simpl in H.
  - injection H as <-. repeat split; reflexivity.
  - destruct (update_extra_state E self _ _ _ _ _) as [e | self1] eqn:E1; [discriminate H|].
    cbn [res_bind] in H. destruct (IH self1 H) as [Hg [Hs Hc]].
    destruct (update_extra_state_shape _ _ _ _ _ _ _ _ E1) as [Hg1 [Hs1 Hc1]].
    repeat split; congruence.
Qed.

Lemma update_many_total (E : externals) (calls : list update_call) (self : renderer) :
  cuda_ray self = true -> concat (density_grid self) <> [] ->
  Forall (fun call =>
            Forall (in_shape (map length (density_grid self))) (call_full call) /\
            Forall (in_shape (map length (density_grid self))) (call_partial call)) calls ->
  exists self', update_many E self calls = Ok self'.
Proof.
  intros Hcuda Hne Hcalls. revert self Hcuda Hne Hcalls.
  induction calls as [|call calls IH]; intros self Hcuda Hne Hcalls.
  - eexists; reflexivity.
  - inversion Hcalls as [|? ? [Hfull Hpart] Hrest]; subst. cbn [update_many].
    destruct (update_extra_state_total E self (call_decay call) (call_force_full_update call)
                (call_force_full_grid call) (call_full call) (call_partial call) Hcuda Hne)
      as [self1 H1].
    { unfold chosen_samples. destruct (_ || _); assumption. }
    rewrite H1. cbn [res_bind].
    destruct (update_extra_state_shape _ _ _ _ _ _ _ _ H1) as [Hg [_ Hcu]].
    apply IH.
    + congruence.
    + intros Hnil. apply Hne. apply length_zero_iff_nil.
      apply (f_equal (@length R)) in Hnil. rewrite length_concat in *.
      rewrite <- Hg. exact Hnil.
    + rewrite Hg. exact Hrest.
Qed.

(** A full, unforced update of the two voxels with decay 0.95. *)
Definition full_update_call : update_call :=
  {| call_decay := 0.95; call_force_full_update := true;
     call_force_full_grid := false; call_full := both_voxels; call_partial := [] |}.

Lemma update_keeps_grid_shape_witness :
  exists self',
    update_many slab_field two_voxel_renderer [full_update_call] = Ok self' /\
    map length (density_grid self') = map length (density_grid two_voxel_renderer) /\
    length (step_counter self') = length (step_counter two_voxel_renderer) /\
    cuda_ray self' = cuda_ray two_voxel_renderer.
Proof.
  destruct (update_many_total slab_field [full_update_call] two_voxel_renderer) as [self' H];
    [ reflexivity | discriminate
    | repeat constructor; unfold in_shape; simpl; lia | ].
  exists self'. split; [exact H|].
  exact (update_keeps_grid_shape slab_field [full_update_call] two_voxel_renderer self' H).
Defined.

(** The product of the decay factors of a sequence of calls. *)
Definition decay_product (calls : list update_call) : R :=
  fold_right (fun call p => call_decay call * p) 1 calls.

Lemma combine_cell_lower_bound (decay : R) (ffg : bool) (old sampled : R) :
  0 <= decay <= 1 -> 0 <= old ->
  0 <= combine_cell decay ffg old sampled /\ old * decay <= combine_cell decay ffg old sampled.
Proof.
  intros Hd Ho. assert (0 <= old * decay) by (apply Rmult_le_pos; lra).
  assert (old * decay <= old) by nra.
  unfold combine_cell.
  pose proof (Rmax_l (old * decay) sampled).
  destruct ffg; [split; lra|].
  destruct (Rleb 0 old && Rleb 0 sampled); split; lra.
Qed.

(** X14. Updates never untrain a voxel, and lower it at most by their
    decay factors: through any sequence of calls with decay factors in
    [0,1], a voxel that holds a density [old >= 0] holds afterwards a
    density that is non-negative and at least [old] times the product of
    the decay factors, forced or not, sampled or not. *)
Theorem trained_voxels_stay_trained (E : externals) (calls : list update_call)
    (self self' : renderer) (c v : nat) (old : R) :
  Forall (fun call => 0 <= call_decay call <= 1) calls ->
  update_many E self calls = Ok self' ->
  cuda_ray self = true -> cell (density_grid self) c v = Some old -> 0 <= old ->
  exists x, cell (density_grid self') c v = Some x /\ 0 <= x /\
            old * decay_product calls <= x.
Proof.
  intros Hcalls. revert self old.
  induction Hcalls as [|call calls Hd Hcalls IH]; intros self old Hup Hcuda Hold Hnn.
  - simpl in Hup. injection Hup as <-. exists old. simpl. repeat split; [exact Hold | lra | lra].
  - cbn [update_many] in Hup.
    destruct (update_extra_state E self _ _ _ _ _) as [e | self1] eqn:E1; [discriminate Hup|].
    cbn [res_bind] in Hup.
    destruct (update_extra_state_step _ _ _ _ _ _ _ _ _ _ _ E1 Hcuda Hold)
      as [sampled [Hc1 Hcu1]].
    destruct (combine_cell_lower_bound (call_decay call) (call_force_full_grid call)
                old sampled Hd Hnn) as [H0 H1].
    destruct (IH self1 _ Hup Hcu1 Hc1 H0) as [x [Hx [Hx0 Hxp]]].
    exists x. split; [exact Hx|]. split; [exact Hx0|].
    cbn [decay_product fold_right]. fold (decay_product calls).
    assert (Hp : 0 <= decay_product calls).
    { clear - Hcalls. induction Hcalls as [|k l Hk Hl IHl]; simpl; [lra|].
      apply Rmult_le_pos; [lra | exact IHl]. }
    nra.
Qed.

Lemma trained_voxels_stay_trained_witness :
  exists self' x,
    update_many slab_field two_voxel_renderer [full_update_call] = Ok self' /\
    cell (density_grid self') 0 1 = Some x /\ 0 <= x /\
    5 * decay_product [full_update_call] <= x.
Proof.
  destruct (update_many_total slab_field [full_update_call] two_voxel_renderer) as [self' H];
    [ reflexivity | discriminate
    | repeat constructor; unfold in_shape; simpl; lia | ].
  destruct (trained_voxels_stay_trained slab_field [full_update_call] two_voxel_renderer
              self' 0 1 5) as [x Hx];
    [ repeat constructor; simpl; lra | exact H | reflexivity | reflexivity | lra | ].
  exists self', x. split; [exact H | exact Hx].
Defined.

Lemma combine_cell_decay_0_idempotent (ffg : bool) (old sampled : R) :
  combine_cell 0 ffg (combine_cell 0 ffg old sampled) sampled = combine_cell 0 ffg old sampled.
Proof.
  unfold combine_cell. destruct ffg.
  - unfold Rmax. repeat destruct (Rle_dec _ _); lra.
  - unfold Rleb. destruct (Rle_dec 0 old) as [Ho | Ho]; cbn [andb].
    + destruct (Rle_dec 0 sampled) as [Hs | Hs].
      * assert (Hm : Rmax (old * 0) sampled = sampled).
        { unfold Rmax. destruct (Rle_dec (old * 0) sampled); lra. }
        rewrite Hm. destruct (Rle_dec 0 sampled); [|contradiction]. cbn [andb].
        unfold Rmax. destruct (Rle_dec (sampled * 0) sampled); lra.
      * destruct (Rle_dec 0 old); [|contradiction]. cbn [andb].
        destruct (Rle_dec 0 sampled); [contradiction | reflexivity].
    + destruct (Rle_dec 0 old); [contradiction | reflexivity].
Qed.

Lemma combine_grids_decay_0_idempotent (ffg : bool) (g tmp : grid) :
  combine_grids 0 ffg (combine_grids 0 ffg g tmp) tmp = combine_grids 0 ffg g tmp.
Proof.
  unfold combine_grids. revert tmp. induction g as [|r g IH]; intros tmp; [reflexivity|].
  destruct tmp as [|t tmp]; [reflexivity|]. cbn [zip_with]. f_equal; [|apply IH].
  clear. revert t. induction r as [|x r IHr]; intros t; [reflexivity|].
  destruct t as [|y t]; [reflexivity|]. cbn [zip_with]. f_equal; [|apply IHr].
  apply combine_cell_decay_0_idempotent.
Qed.

Lemma blank_of_shape (g g' : grid) :
  map length g' = map length g ->
  map (map (fun _ : R => -1)) g' = map (map (fun _ : R => -1)) g.
Proof.
  revert g'. induction g as [|r g IH]; intros g' H.
  - destruct g'; [reflexivity | discriminate H].
  - destruct g' as [|r' g']; [discriminate H|]. injection H as Hr Hg.
    cbn [map]. f_equal; [|apply IH; exact Hg].
    clear - Hr. revert r' Hr. induction r as [|x r IHr]; intros r' Hr.
    + destruct r'; [reflexivity | discriminate Hr].
    + destruct r' as [|x' r']; [discriminate Hr|]. injection Hr as Hr.
      cbn [map]. f_equal. apply IHr. exact Hr.
Qed.

(** X15. With [decay = 0] a forced-full update is idempotent on the
    grid: a second call that samples the same densities returns, and
    leaves the density grid and the mean density as the first call left
    them ([max(old * 0, sampled)] depends on the sample alone). *)
Theorem update_decay_0_idempotent (E : externals) (self self1 : renderer)
    (ffg : bool) (full partial : list (nat * nat * R)) :
  cuda_ray self = true ->
  update_extra_state E self 0 true ffg full partial = Ok self1 ->
  exists self2,
    update_extra_state E self1 0 true ffg full partial = Ok self2 /\
    density_grid self2 = density_grid self1 /\
    mean_density self2 = mean_density self1.
Proof.
  intros Hcuda H1.
  destruct (update_extra_state_inv E self self1 0 true ffg full partial H1 Hcuda)
    as [tmp [Htmp [Hg [Hm [_ [_ [_ [Hk Hcu]]]]]]]].
  destruct (update_extra_state_shape _ _ _ _ _ _ _ _ H1) as [Hshape _].
  assert (Htmp1 : sample_grid self1 true full partial = Ok tmp).
  { rewrite sample_grid_chosen in *. unfold chosen_samples in *.
    rewrite orb_true_r in *. rewrite Hk, (blank_of_shape _ _ Hshape). exact Htmp. }
  assert (Hg2 : combine_grids 0 ffg (density_grid self1) tmp = density_grid self1).
  { rewrite Hg. apply combine_grids_decay_0_idempotent. }
  unfold update_extra_state. rewrite Hcu, Htmp1. cbn [negb res_bind Ok].
  rewrite Hg2, Hm. cbn [res_bind Ok].
  eexists. split; [reflexivity|]. split; reflexivity.
Qed.

Lemma update_decay_0_idempotent_witness :
  exists self1 self2,
    update_extra_state slab_field two_voxel_renderer 0 true false both_voxels [] = Ok self1 /\
    update_extra_state slab_field self1 0 true false both_voxels [] = Ok self2 /\
    density_grid self2 = density_grid self1 /\
    mean_density self2 = mean_density self1.
Proof.
  destruct (update_extra_state_total slab_field two_voxel_renderer 0 true false both_voxels [])
    as [self1 H1];
    [ reflexivity | discriminate | repeat constructor; unfold in_shape; simpl; lia | ].
  destruct (update_decay_0_idempotent slab_field two_voxel_renderer self1 false both_voxels []
              eq_refl H1) as [self2 H2].
  exists self1, self2. split; [exact H1 | exact H2].
Defined.

Lemma Rsum_bounds (l : list R) (M : R) :
  Forall (fun x => 0 <= x <= M) l -> 0 <= Rsum l <= INR (length l) * M.
Proof.
  induction 1 as [|x l Hx Hl IH].
  - simpl. lra.
  - cbn [Rsum fold_right length]. fold (Rsum l). rewrite S_INR. lra.
Qed.

(** X16. The mean density that an update stores is never negative,
    although marked voxels hold -1 (they count as 0), and it is at most
    any bound [M >= 0] on the voxels of the new grid. *)
Theorem mean_density_bounds (E : externals) (self self' : renderer) (decay : R)
    (ffu ffg : bool) (full partial : list (nat * nat * R)) (M : R) :
  update_extra_state E self decay ffu ffg full partial = Ok self' ->
  cuda_ray self = true ->
  0 <= M -> Forall (fun x => x <= M) (concat (density_grid self')) ->
  0 <= mean_density self' <= M.
Proof.
  intros H Hcuda HM Hall.
  destruct (update_extra_state_inv E self self' decay ffu ffg full partial H Hcuda)
    as [tmp [_ [_ [Hm _]]]].
  unfold mean_clamped, checked_div in Hm.
  destruct (Req_dec_T _ 0) as [Hz | Hnz]; [discriminate Hm|].
  injection Hm as Hm. rewrite <- Hm.
  set (cells := map (fun x => Rmax x 0) (concat (density_grid self'))) in *.
  assert (Hb : Forall (fun x => 0 <= x <= M) cells).
  { subst cells. clear - Hall HM.
    induction Hall as [|x l Hx Hl IH]; cbn [map]; constructor; [|exact IH].
    unfold Rmax. destruct (Rle_dec x 0); lra. }
  pose proof (Rsum_bounds cells M Hb) as [H0 H1].
  assert (Hn : 0 < INR (length cells)).
  { pose proof (pos_INR (length cells)). lra. }
  split.
  - unfold Rdiv. apply Rmult_le_pos; [exact H0 | left; apply Rinv_0_lt_compat; exact Hn].
  - apply Rmult_le_reg_r with (INR (length cells)); [exact Hn|].
    unfold Rdiv. rewrite Rmult_assoc, Rinv_l by lra. lra.
Qed.

Lemma mean_density_bounds_witness :
  exists self',
    update_extra_state slab_field
      (mark_untrained_grid two_voxel_renderer [[1%nat; 0%nat]]) 0.95 true false
      both_voxels [] = Ok self' /\
    0 <= mean_density self' <= 2.
Proof.
  destruct (update_extra_state_total slab_field
              (mark_untrained_grid two_voxel_renderer [[1%nat; 0%nat]]) 0.95 true false
              both_voxels []) as [self' H];
    [ reflexivity | discriminate | repeat constructor; unfold in_shape; simpl; lia | ].
  exists self'. split; [exact H|].
  apply (mean_density_bounds slab_field _ self' 0.95 true false both_voxels [] 2 H);
    [reflexivity | lra |].
  destruct (update_extra_state_inv _ _ _ _ _ _ _ _ H eq_refl) as [tmp [Htmp [Hg _]]].
  rewrite Hg. 
  assert (Et : tmp = [[2 * 1; 3 * 1]]).
  { assert (Hs : sample_grid (mark_untrained_grid two_voxel_renderer [[1%nat; 0%nat]])
                   true both_voxels [] = Ok [[2 * 1; 3 * 1]]) by reflexivity.
    rewrite Hs in Htmp. injection Htmp as <-. reflexivity. }
  rewrite Et. unfold combine_grids, combine_cell.
  cbn [mark_untrained_grid two_voxel_renderer cuda_ray negb with_density_grid density_grid
       mark_cells zip_with Nat.eqb concat app].
  rcmp. cbn [andb]. unfold Rmax. destruct (Rle_dec (1 * 0.95) (2 * 1)); [|lra].
  repeat constructor; lra.
Defined.

Lemma same_shape_cell (g g' : grid) (c v : nat) (x : R) :
  map length g' = map length g -> cell g' c v = Some x -> exists old, cell g c v = Some old.
Proof.
  intros Hs Hx. unfold cell in *.
  destruct (nth_error g' c) as [row'|] eqn:Er'; [|discriminate Hx].
  assert (Hl : nth_error (map length g') c = Some (length row'))
    by (rewrite nth_error_map, Er'; reflexivity).
  rewrite Hs, nth_error_map in Hl.
  destruct (nth_error g c) as [row|]; [|discriminate Hl].
  injection Hl as Hl.
  destruct (nth_error row v) as [old|] eqn:Eo; [exists old; reflexivity|].
  apply nth_error_None in Eo.
  assert (v < length row')%nat by (apply nth_error_Some; congruence). lia.
Qed.

Lemma update_many_iter_density (E : externals) (calls : list update_call)
    (self self' : renderer) :
  cuda_ray self = true -> update_many E self calls = Ok self' ->
  iter_density self' = (iter_density self + length calls)%nat /\ cuda_ray self' = true.
Proof.
  revert self. induction calls as [|call calls IH]; intros self Hcuda H; simpl in H.
  - injection H as <-. split; [simpl; lia | exact Hcuda].
  - destruct (update_extra_state E self _ _ _ _ _) as [e | self1] eqn:E1; [discriminate H|].
    cbn [res_bind] in H.
    destruct (update_extra_state_inv _ _ _ _ _ _ _ _ E1 Hcuda)
      as [_ [_ [_ [_ [Hi [_ [_ [_ Hcu]]]]]]]].
    destruct (IH self1 Hcu H) as [Hi' Hcu'].
    split; [simpl; lia | exact Hcu'].
Qed.

Lemma initialize_calls_in_shape (samples : nat -> list (nat * nat * R)) (shape : list nat) :
  (forall k, Forall (in_shape shape) (samples k)) ->
  Forall (fun call => Forall (in_shape shape) (call_full call) /\
                      Forall (in_shape shape) (call_partial call))
         (initialize_calls samples).
Proof.
  intros Hs. unfold initialize_calls. constructor.
  - split; [apply Hs | constructor].
  - induction (seq 0 30) as [|k l IH]; cbn [map]; constructor; [|exact IH].
    split; [apply Hs | constructor].
Qed.

Lemma initialize_calls_length (samples : nat -> list (nat * nat * R)) :
  length (initialize_calls samples) = 31%nat.
Proof. unfold initialize_calls. cbn [length]. rewrite length_map, length_seq. reflexivity. Qed.

(** X17. [initialize_states] leaves no voxel marked. On an accelerated
    renderer whose grid has a voxel, and with samples that address voxels
    of the grid, the 31 calls return, the grid keeps its shape, and every
    voxel holds a non-negative density afterwards, whatever it held
    before (in particular the -1 of [mark_untrained_grid]). *)
Theorem initialize_states_trains_every_voxel (E : externals) (self : renderer)
    (samples : nat -> list (nat * nat * R)) :
  cuda_ray self = true -> concat (density_grid self) <> [] ->
  (forall k, Forall (in_shape (map length (density_grid self))) (samples k)) ->
  exists self',
    initialize_states E self samples = Ok self' /\
    map length (density_grid self') = map length (density_grid self) /\
    forall c v x, cell (density_grid self') c v = Some x -> 0 <= x.
Proof.
  intros Hcuda Hne Hs. unfold initialize_states.
  destruct (update_many_total E (initialize_calls samples) self Hcuda Hne
              (initialize_calls_in_shape samples _ Hs)) as [self' H].
  exists self'. split; [exact H|].
  assert (Hshape : map length (density_grid self') = map length (density_grid self)).
  { exact (update_many_shape E (initialize_calls samples) self self' H). }
  split; [exact Hshape|].
  intros c v x Hx.
  destruct (same_shape_cell _ _ c v x Hshape Hx) as [old Hold].
  destruct (initialize_calls_shape samples) as [first [rest [Hcalls [Hffg [Hdecay Hrest]]]]].
  rewrite Hcalls in H.
  destruct (forced_calls_clear_marks E first rest self self' c v old Hffg Hdecay Hrest
              H Hcuda Hold) as [x' [Hx' Hnn]].
  congruence.
Qed.

Lemma initialize_states_trains_every_voxel_witness :
  exists self',
    initialize_states slab_field (mark_untrained_grid two_voxel_renderer [[1%nat; 0%nat]])
      (fun _ => both_voxels) = Ok self' /\
    map length (density_grid self')
      = map length (density_grid (mark_untrained_grid two_voxel_renderer [[1%nat; 0%nat]])) /\
    forall c v x, cell (density_grid self') c v = Some x -> 0 <= x.
Proof.
  apply (initialize_states_trains_every_voxel slab_field
           (mark_untrained_grid two_voxel_renderer [[1%nat; 0%nat]]) (fun _ => both_voxels));
    [ reflexivity | discriminate
    | intros _; repeat constructor; unfold in_shape; simpl; lia ].
Defined.

(** X18. [initialize_states] uses up the full updates: it advances
    [iter_density] by 31, past the 16 calls that are full by default, so
    the next call that does not force a full update samples the partial
    set. *)
Theorem initialize_states_ends_full_updates (E : externals) (self self' : renderer)
    (samples : nat -> list (nat * nat * R)) (full partial : list (nat * nat * R)) :
  cuda_ray self = true ->
  initialize_states E self samples = Ok self' ->
  iter_density self' = (iter_density self + 31)%nat /\
  local_step self' = 0%nat /\
  chosen_samples self' false full partial = partial /\
  sample_grid self' false full partial =
    write_cells (density_scale self') (map (map (fun _ => -1)) (density_grid self')) partial.
Proof.
  intros Hcuda H. unfold initialize_states in H.
  destruct (update_many_iter_density E _ self self' Hcuda H) as [Hi _].
  rewrite initialize_calls_length in Hi.
  assert (Hc : chosen_samples self' false full partial = partial).
  { unfold chosen_samples. rewrite Hi.
    destruct (Nat.ltb_spec (iter_density self + 31) 16); [lia | reflexivity]. }
  split; [exact Hi|]. split; [|split; [exact Hc|]].
  - destruct (initialize_calls_shape samples) as [first [rest [Hcalls _]]].
    rewrite Hcalls in H. clear Hcalls Hi Hc.
    revert self first Hcuda H. induction rest as [|call rest IH]; intros self first Hcuda H.
    + cbn [update_many] in H.
      destruct (update_extra_state E self _ _ _ _ _) as [e | self1] eqn:E1; [discriminate H|].
      cbn [res_bind] in H. injection H as <-.
      destruct (update_extra_state_inv _ _ _ _ _ _ _ _ E1 Hcuda) as [_ [_ [_ [_ [_ [Hl _]]]]]].
      exact Hl.
    + cbn [update_many] in H.
      destruct (update_extra_state E self _ _ _ _ _) as [e | self1] eqn:E1; [discriminate H|].
      cbn [res_bind] in H.
      destruct (update_extra_state_inv _ _ _ _ _ _ _ _ E1 Hcuda)
        as [_ [_ [_ [_ [_ [_ [_ [_ Hcu]]]]]]]].
      apply (IH self1 call Hcu). exact H.
  - rewrite sample_grid_chosen, Hc. reflexivity.
Qed.

Lemma initialize_states_ends_full_updates_witness :
  exists self',
    initialize_states slab_field two_voxel_renderer (fun _ => both_voxels) = Ok self' /\
    iter_density self' = (iter_density two_voxel_renderer + 31)%nat /\
    local_step self' = 0%nat /\
    chosen_samples self' false both_voxels [] = [] /\
    sample_grid self' false both_voxels [] =
      write_cells (density_scale self') (map (map (fun _ => -1)) (density_grid self')) [].
Proof.
  destruct (update_many_total slab_field (initialize_calls (fun _ => both_voxels))
              two_voxel_renderer) as [self' H];
    [ reflexivity | discriminate
    | apply initialize_calls_in_shape; intros _; repeat constructor;
      unfold in_shape; simpl; lia | ].
  exists self'. split; [exact H|].
  exact (initialize_states_ends_full_updates slab_field two_voxel_renderer self'
           (fun _ => both_voxels) both_voxels [] eq_refl H).
Defined.

(** *** [reset_extra_state] (lines 148-158) *)

(** The grid and the step counters are zeroed in place, the means and the
    counters of calls are set to 0; the bitfield is not touched. *)
Definition reset_extra_state (self : renderer) : renderer :=
  if negb (cuda_ray self) then self
  else
    {| bound := bound self; cascade := cascade self; grid_size := grid_size self;
       density_scale := density_scale self; min_near := min_near self;
       density_thresh := density_thresh self; bg_radius := bg_radius self;
       training := training self; aabb_train := aabb_train self;
       aabb_infer := aabb_infer self; cuda_ray := cuda_ray self;
       density_grid := map (map (fun _ => 0)) (density_grid self);
       density_bitfield := density_bitfield self;
       mean_density := 0;
       iter_density := 0;
       step_counter := map (fun _ => (0, 0)%Z) (step_counter self);
       mean_count := 0;
       local_step := 0 |}.

Lemma combine_cell_from_zero (decay : R) (ffg : bool) (sampled : R) :
  combine_cell decay ffg 0 sampled = Rmax 0 sampled.
Proof.
  unfold combine_cell. rewrite (Rleb_true 0 0) by lra. cbn [andb].
  replace (0 * decay) with 0 by lra.
  destruct ffg; [reflexivity|].
  unfold Rleb. destruct (Rle_dec 0 sampled) as [Hs | Hs]; [reflexivity|].
  unfold Rmax. destruct (Rle_dec 0 sampled); [contradiction | reflexivity].
Qed.

(** X19. [reset_extra_state] erases the density grid, the marks of
    [mark_untrained_grid] included (every voxel becomes 0), keeps the
    bitfield as it was, and restarts the full updates. The first update
    after it samples the full set whatever [force_full_update] is, and
    stores in every voxel the sampled density clamped at 0 (0 for a voxel
    that was not sampled), whatever the decay and [force_full_grid]. *)
Theorem update_after_reset (E : externals) (self : renderer) (decay : R)
    (ffu ffg : bool) (full partial : list (nat * nat * R)) (tmp : grid)
    (c v : nat) (old sampled : R) :
  cuda_ray self = true ->
  cell (density_grid self) c v = Some old ->
  sample_grid (reset_extra_state self) ffu full partial = Ok tmp ->
  cell tmp c v = Some sampled ->
  cell (density_grid (reset_extra_state self)) c v = Some 0 /\
  density_bitfield (reset_extra_state self) = density_bitfield self /\
  chosen_samples (reset_extra_state self) ffu full partial = full /\
  exists self',
    update_extra_state E (reset_extra_state self) decay ffu ffg full partial = Ok self' /\
    cell (density_grid self') c v = Some (Rmax 0 sampled) /\
    iter_density self' = 1%nat.
Proof.
  intros Hcuda Hold Htmp Hs.
  assert (Hr : cell (density_grid (reset_extra_state self)) c v = Some 0).
  { unfold reset_extra_state. rewrite Hcuda. cbn [negb density_grid].
    rewrite cell_map, Hold. reflexivity. }
  assert (Hcu : cuda_ray (reset_extra_state self) = true).
  { unfold reset_extra_state. rewrite Hcuda. reflexivity. }
  split; [exact Hr|]. split; [|split].
  - unfold reset_extra_state. rewrite Hcuda. reflexivity.
  - unfold chosen_samples, reset_extra_state. rewrite Hcuda. reflexivity.
  - destruct (update_extra_state_returns E (reset_extra_state self) decay ffu ffg full partial
                tmp c v 0 Hcu Htmp Hr)
      as [self' [sampled' [Hup [Hs' [_ [Hc _]]]]]].
    exists self'. split; [exact Hup|]. split.
    + rewrite Hc. rewrite Hs in Hs'. injection Hs' as <-.
      rewrite combine_cell_from_zero. reflexivity.
    + destruct (update_extra_state_inv _ _ _ _ _ _ _ _ Hup Hcu) as [_ [_ [_ [_ [Hi _]]]]].
      rewrite Hi. unfold reset_extra_state. rewrite Hcuda. reflexivity.
Qed.

Lemma update_after_reset_witness :
  cell (density_grid (reset_extra_state
          (mark_untrained_grid two_voxel_renderer [[1%nat; 0%nat]]))) 0 1 = Some 0 /\
  density_bitfield (reset_extra_state
          (mark_untrained_grid two_voxel_renderer [[1%nat; 0%nat]]))
    = density_bitfield (mark_untrained_grid two_voxel_renderer [[1%nat; 0%nat]]) /\
  chosen_samples (reset_extra_state
          (mark_untrained_grid two_voxel_renderer [[1%nat; 0%nat]])) false both_voxels []
    = both_voxels /\
  exists self',
    update_extra_state slab_field
      (reset_extra_state (mark_untrained_grid two_voxel_renderer [[1%nat; 0%nat]]))
      0.95 false false both_voxels [] = Ok self' /\
    cell (density_grid self') 0 1 = Some (Rmax 0 (3 * 1)) /\
    iter_density self' = 1%nat.
Proof.
  apply (update_after_reset slab_field
           (mark_untrained_grid two_voxel_renderer [[1%nat; 0%nat]]) 0.95 false false
           both_voxels [] [[2 * 1; 3 * 1]] 0 1 (-1) (3 * 1));
    reflexivity.
Defined.

(** *** The positions that an update queries (lines 535-544 and 569-575) *)

(** [min(2 ** cas, self.bound)]: the half-width of cascade [cas]. *)
Definition cascade_bound (bound : R) (cas : nat) : R := Rmin (2 ^ cas) bound.

(** One coordinate of the position queried for a voxel: the centre of
    the voxel with integer coordinate [coord], scaled to the cascade, plus
    the noise [(rand * 2 - 1) * half_grid_size]; [rand] is the number that
    [torch.rand_like] drew, in [0,1). *)
Definition query_coordinate (self : renderer) (cas coord : nat) (rand : R) : res R :=
  let! q := checked_div (2 * INR coord) (INR (grid_size self) - 1) in
  let xyzs := q - 1 in
  let bound := cascade_bound (bound self) cas in
  if (grid_size self =? 0)%nat then Err ZeroDivisionError
  else
    let half_grid_size := bound / INR (grid_size self) in
    let cas_xyzs := xyzs * (bound - half_grid_size) in
    Ok (cas_xyzs + (rand * 2 - 1) * half_grid_size).

(** X20. Every voxel is sampled inside its own cell. For a grid of at
    least two voxels per axis and a positive bound, the coordinate
    queried for the voxel with integer coordinate [coord] lies in the
    [coord]-th of the [grid_size] equal cells that divide
    [-b, b), where [b = min(2 ** cas, bound)]: so the jitter never leaves
    the voxel, the cells of distinct voxels do not overlap, and no query
    leaves the box of the cascade, which is inside the scene bound. *)
Theorem query_stays_in_voxel (self : renderer) (cas coord : nat) (rand : R) :
  (2 <= grid_size self)%nat -> (coord < grid_size self)%nat ->
  0 <= rand < 1 -> 0 < bound self ->
  let b := cascade_bound (bound self) cas in
  let cell_width := 2 * b / INR (grid_size self) in
  exists q,
    query_coordinate self cas coord rand = Ok q /\
    - b + INR coord * cell_width <= q < - b + (INR coord + 1) * cell_width /\
    - b <= q < b /\
    0 < b <= bound self.
Proof.
  intros HG Hc Hr Hb b cell_width.
  assert (HGr : 2 <= INR (grid_size self)) by (apply (le_INR 2); exact HG).
  assert (Hcr : INR coord + 1 <= INR (grid_size self)).
  { rewrite <- S_INR. apply le_INR. lia. }
  pose proof (pos_INR coord) as Hc0.
  assert (Hbpos : 0 < b <= bound self).
  { subst b. unfold cascade_bound. split; [|apply Rmin_r].
    apply Rmin_glb_lt; [apply pow_lt; lra | exact Hb]. }
  unfold query_coordinate. rewrite checked_div_ok by lra. cbn [res_bind Ok].
  destruct (Nat.eqb_spec (grid_size self) 0) as [E | _]; [lia|].
  fold b. set (G := INR (grid_size self)) in *.
  eexists. split; [reflexivity|].
  assert (Hq : (2 * INR coord / (G - 1) - 1) * (b - b / G) + (rand * 2 - 1) * (b / G)
               = - b + INR coord * cell_width + rand * cell_width).
  { subst cell_width. field. lra. }
  rewrite Hq.
  assert (Hw : 0 < cell_width).
  { subst cell_width. unfold Rdiv. apply Rmult_lt_0_compat; [lra | apply Rinv_0_lt_compat; lra]. }
  assert (HGw : G * cell_width = 2 * b) by (subst cell_width; field; lra).
  split; [split; nra|]. split; [split; nra | exact Hbpos].
Qed.

Lemma query_stays_in_voxel_witness :
  exists q,
    query_coordinate two_voxel_renderer 0 127 0.5 = Ok q /\
    - cascade_bound (bound two_voxel_renderer) 0
      + INR 127 * (2 * cascade_bound (bound two_voxel_renderer) 0
                   / INR (grid_size two_voxel_renderer)) <= q
    < - cascade_bound (bound two_voxel_renderer) 0
      + (INR 127 + 1) * (2 * cascade_bound (bound two_voxel_renderer) 0
                         / INR (grid_size two_voxel_renderer)) /\
    - cascade_bound (bound two_voxel_renderer) 0 <= q
    < cascade_bound (bound two_voxel_renderer) 0 /\
    0 < cascade_bound (bound two_voxel_renderer) 0 <= bound two_voxel_renderer.
Proof.
  apply (query_stays_in_voxel two_voxel_renderer 0 127 0.5);
    [simpl; lia | simpl; lia | lra | simpl; lra].
Defined.

(** *** The number of cascades ([__init__], line 65) *)

Definition log2 (x : R) : R := ln x / ln 2.

(** [1 + math.ceil(math.log2(bound))]; [math.log2] raises [ValueError]
    for a bound that is not positive, which is [None] here. *)
Definition init_cascade (bound : R) : option Z :=
  if Rlt_dec 0 bound then Some (1 + Zceil (log2 bound))%Z else None.

Lemma Zceil_bound (x : R) : IZR (Zceil x) - 1 < x <= IZR (Zceil x).
Proof.
  unfold Zceil. rewrite opp_IZR. pose proof (Zfloor_bound (- x)). lra.
Qed.

Lemma ln_2_pos : 0 < ln 2.
Proof. rewrite <- ln_1. apply ln_increasing; lra. Qed.

(** X21. The cascades that [__init__] counts are the ones the updates
    need. For [bound >= 1] the constructor computes a count [C >= 1] such
    that the last cascade reaches the bound ([min(2 ** (C-1), bound) =
    bound]) and every cascade before it is a power of two strictly inside
    the bound ([min(2 ** cas, bound) = 2 ** cas < bound]). *)
Theorem init_cascade_covers_bound (bound : R) :
  1 <= bound ->
  exists C : nat,
    init_cascade bound = Some (Z.of_nat C) /\ (1 <= C)%nat /\
    cascade_bound bound (C - 1) = bound /\
    forall cas, (cas < C - 1)%nat ->
      cascade_bound bound cas = 2 ^ cas /\ 2 ^ cas < bound.
Proof.
  intros Hb. pose proof ln_2_pos as H2.
  assert (Hln : 0 <= ln bound).
  { destruct (Req_dec bound 1) as [-> | Hne]; [rewrite ln_1; lra|].
    left. rewrite <- ln_1. apply ln_increasing; lra. }
  assert (HL : 0 <= log2 bound).
  { unfold log2, Rdiv. apply Rmult_le_pos; [exact Hln | left; apply Rinv_0_lt_compat; exact H2]. }
  destruct (Zceil_bound (log2 bound)) as [Hlo Hhi].
  set (K := Zceil (log2 bound)) in *.
  assert (HK : (0 <= K)%Z).
  { apply le_IZR. destruct (Z_lt_le_dec K 0) as [Hneg | Hok]; [|apply IZR_le; exact Hok].
    apply IZR_lt in Hneg. lra. }
  assert (Hlog : ln bound = log2 bound * ln 2) by (unfold log2; field; lra).
  assert (Hpow : forall n : nat, ln (2 ^ n) = INR n * ln 2) by (intros n; apply ln_pow; lra).
  exists (S (Z.to_nat K)). split; [|split; [lia|split]].
  - unfold init_cascade. destruct (Rlt_dec 0 bound); [|lra]. f_equal. fold K. lia.
  - replace (S (Z.to_nat K) - 1)%nat with (Z.to_nat K) by lia.
    unfold cascade_bound. apply Rmin_right.
    destruct (Rle_dec bound (2 ^ Z.to_nat K)) as [Hle | Hgt]; [exact Hle|].
    exfalso. assert (Hlt : 2 ^ Z.to_nat K < bound) by lra.
    apply ln_increasing in Hlt; [|apply pow_lt; lra].
    rewrite Hpow, INR_IZR_INZ, Z2Nat.id in Hlt by exact HK. nra.
  - intros cas Hcas. replace (S (Z.to_nat K) - 1)%nat with (Z.to_nat K) in Hcas by lia.
    assert (Hlt : 2 ^ cas < bound).
    { apply ln_lt_inv; [apply pow_lt; lra | lra |].
      rewrite Hpow, Hlog. apply Rmult_lt_compat_r; [exact H2|].
      assert (INR cas <= IZR K - 1).
      { rewrite INR_IZR_INZ, <- minus_IZR. apply IZR_le. lia. }
      lra. }
    split; [|exact Hlt]. unfold cascade_bound. apply Rmin_left. lra.
Qed.

Lemma init_cascade_covers_bound_witness :
  exists C : nat,
    init_cascade 1 = Some (Z.of_nat C) /\ (1 <= C)%nat /\
    cascade_bound 1 (C - 1) = 1 /\
    forall cas, (cas < C - 1)%nat -> cascade_bound 1 cas = 2 ^ cas /\ 2 ^ cas < 1.
Proof. apply (init_cascade_covers_bound 1). lra. Defined.

(** *** [sample] and the step counters (lines 294-317 and 591-594) *)

(** The keyword arguments of [sample]. *)
Record sample_args : Type := {
  dt_gamma : R;
  sample_perturb : bool;
  force_all_rays : bool;
  max_steps : nat;
}.

(** The arguments of [raymarching.march_rays_train] and of its
    differentiable variant, in the order of the call. [march_counter] is
    the row of [step_counter] that the call is given, already zeroed. *)
Record march_input : Type := {
  march_rays : list ray;
  march_bound : R;
  march_bitfield : list bool;
  march_cascade : nat;
  march_grid_size : nat;
  march_nears_fars : list (R * R);
  march_counter : Z * Z;
  march_mean_count : Z;
  march_perturb : bool;
  march_align : nat;
  march_force_all_rays : bool;
  march_dt_gamma : R;
  march_max_steps : nat;
}.

Section Sample.

Variable E : externals.

(** What the extension returns ([xyzs, dirs, deltas, rays]). *)
Variable marched : Type.

(** The two marching functions of the extension. Each returns its
    tensors and leaves in the counter row the number of samples and of
    rays it produced: the second component is the content of that row
    after the call. *)
Variable march_rays_train : march_input -> marched * (Z * Z).
Variable march_rays_train_differentiable : march_input -> marched * (Z * Z).

(** [sample]. [optimize_camera] is the field of that name. The answer is
    [None] for the [IndexError] of a [step_counter] with fewer rows than
    the slot asks for. *)
Definition sample (optimize_camera : bool) (self : renderer) (rays : list (list ray))
    (a : sample_args) : option (marched * list nat * renderer) :=
  let prefix := map length rays in
  let slot := (local_step self mod 16)%nat in
  match nth_error (step_counter self) slot with
  | None => None
  | Some _ =>
      let counter := (0, 0)%Z in
      let local_step' := (local_step self + 1)%nat in
      let flat := concat rays in
      let aabb := if training self then aabb_train self else aabb_infer self in
      let nears_fars :=
        map (fun r => near_far_from_aabb E (fst r) (snd r) aabb (min_near self)) flat in
      let input :=
        {| march_rays := flat; march_bound := bound self;
           march_bitfield := density_bitfield self; march_cascade := cascade self;
           march_grid_size := grid_size self; march_nears_fars := nears_fars;
           march_counter := counter; march_mean_count := mean_count self;
           march_perturb := sample_perturb a; march_align := 128;
           march_force_all_rays := force_all_rays a; march_dt_gamma := dt_gamma a;
           march_max_steps := max_steps a |} in
      let '(out, counter) :=
        if optimize_camera
        then march_rays_train_differentiable input
        else march_rays_train input in
      Some (out, prefix,
            {| bound := bound self; cascade := cascade self; grid_size := grid_size self;
               density_scale := density_scale self; min_near := min_near self;
               density_thresh := density_thresh self; bg_radius := bg_radius self;
               training := training self; aabb_train := aabb_train self;
               aabb_infer := aabb_infer self; cuda_ray := cuda_ray self;
               density_grid := density_grid self;
               density_bitfield := density_bitfield self;
               mean_density := mean_density self;
               iter_density := iter_density self;
               step_counter := <[slot := counter]> (step_counter self);
               mean_count := mean_count self;
               local_step := local_step' |})
  end.

(** One call of [sample], by its arguments. *)
Record sample_call : Type := {
  call_optimize_camera : bool;
  call_rays : list (list ray);
  call_args : sample_args;
}.

(** A sequence of calls of [sample], each on the state the previous one
    left, with the counter row read back after each call: the log is what
    the calls counted, in order. *)
Fixpoint sample_many (calls : list sample_call) (self : renderer)
    : option (list (Z * Z) * renderer) :=
  match calls with
  | [] => Some ([], self)
  | c :: calls' =>
      match sample (call_optimize_camera c) self (call_rays c) (call_args c) with
      | None => None
      | Some (_, _, self1) =>
          let counted := nth (local_step self mod 16) (step_counter self1) (0, 0)%Z in
          match sample_many calls' self1 with
          | None => None
          | Some (log, self') => Some (counted :: log, self')
          end
      end
  end.

Lemma sample_state (optimize_camera : bool) (self self1 : renderer)
    (rays : list (list ray)) (a : sample_args) (out : marched) (prefix : list nat) :
  sample optimize_camera self rays a = Some (out, prefix, self1) ->
  exists counter,
    step_counter self1 = <[(local_step self mod 16)%nat := counter]> (step_counter self) /\
    local_step self1 = (local_step self + 1)%nat /\
    cuda_ray self1 = cuda_ray self /\ mean_count self1 = mean_count self /\
    density_grid self1 = density_grid self /\ iter_density self1 = iter_density self.
Proof.
  unfold sample. destruct (nth_error (step_counter self) _) as [row|]; [|discriminate].
  destruct (if optimize_camera then _ else _) as [o counter].
  intros H. injection H as _ _ <-. exists counter. repeat split; reflexivity.
Qed.

(** Up to the sixteenth call after an update, the counters of the calls
    fill the rows of [step_counter] in order. *)
Lemma sample_many_fills_rows (calls : list sample_call) (self self' : renderer)
    (log : list (Z * Z)) :
  sample_many calls self = Some (log, self') ->
  (local_step self + length calls <= 16)%nat ->
  length (step_counter self) = 16%nat ->
  local_step self' = (local_step self + length calls)%nat /\
  length (step_counter self') = 16%nat /\
  firstn (local_step self') (step_counter self')
    = firstn (local_step self) (step_counter self) ++ log /\
  cuda_ray self' = cuda_ray self /\
  density_grid self' = density_grid self /\ iter_density self' = iter_density self.
Proof.
  revert self log. induction calls as [|c calls IH]; intros self log H Hk Hlen.
  - cbn [sample_many] in H. injection H as <- <-. cbn [length].
    rewrite Nat.add_0_r, app_nil_r. repeat split; try reflexivity. exact Hlen.
  - cbn [length] in Hk.
    assert (Hslot : (local_step self mod 16 = local_step self)%nat)
      by (apply Nat.mod_small; lia).
    cbn [sample_many] in H. rewrite Hslot in H.
    destruct (sample (call_optimize_camera c) self (call_rays c) (call_args c))
      as [[[out prefix] self1]|] eqn:E1; [|discriminate H].
    destruct (sample_many calls self1) as [[log1 self2]|] eqn:E2; [|discriminate H].
    assert (Hlog : log = nth (local_step self) (step_counter self1) (0, 0)%Z :: log1)
      by congruence.
    assert (Hself : self' = self2) by congruence.
    clear H. subst log self'.
    destruct (sample_state _ _ _ _ _ _ _ E1) as [counter [Hsc [Hls [Hcu [_ [Hg Hi]]]]]].
    rewrite Hslot in Hsc.
    assert (Hlen1 : length (step_counter self1) = 16%nat)
      by (rewrite Hsc, length_insert; exact Hlen).
    destruct (IH self1 log1 E2 ltac:(lia) Hlen1) as [Hl2 [Hlen2 [Hrows [Hcu2 [Hg2 Hi2]]]]].
    split; [cbn [length]; lia|]. split; [exact Hlen2|]. split; [|repeat split; congruence].
    rewrite Hrows, Hls, Hsc.
    replace (local_step self + 1)%nat with (S (local_step self)) by lia.
    rewrite (take_S_r _ _ counter) by (apply list_lookup_insert_eq; lia).
    rewrite take_insert_ge by lia. rewrite <- app_assoc. cbn [app]. do 2 f_equal.
    rewrite nth_lookup, list_lookup_insert_eq by lia. reflexivity.
Qed.

End Sample.

Lemma update_extra_state_counts (E : externals) (self self' : renderer) (decay : R)
    (ffu ffg : bool) (full partial : list (nat * nat * R)) :
  update_extra_state E self decay ffu ffg full partial = Ok self' ->
  cuda_ray self = true ->
  mean_count self' =
    (if (0 <? Nat.min 16 (local_step self))%nat
     then mean_steps (step_counter self) (Nat.min 16 (local_step self))
     else mean_count self).
Proof.
  intros H Hcuda. unfold update_extra_state in H. rewrite Hcuda in H. cbn [negb] in H.
  destruct (sample_grid self ffu full partial) as [e | tmp]; [discriminate H|].
  cbn [res_bind] in H.
  destruct (mean_clamped _) as [e | m]; [discriminate H|].
  cbn [res_bind] in H.
  assert (Hs : self' = _) by (symmetry; unfold Ok in H; injection H as H; exact H).
  rewrite Hs. reflexivity.
Qed.

Section SampleCounts.

Variable E : externals.
Variable marched : Type.
Variable march_rays_train : march_input -> marched * (Z * Z).
Variable march_rays_train_differentiable : march_input -> marched * (Z * Z).

(** X22. An update averages what [sample] counted since the update
    before it. Starting from [local_step = 0] (as an update leaves it),
    after [k] calls of [sample] with [1 <= k <= 16] the next
    [update_extra_state] sets [mean_count] to the sum of the sample
    counts of these [k] calls divided by [k], truncated, and sets
    [local_step] back to 0. *)
Theorem update_averages_sample_counts (calls : list sample_call)
    (self self_k self' : renderer) (log : list (Z * Z)) (decay : R) (ffu ffg : bool)
    (full partial : list (nat * nat * R)) :
  cuda_ray self = true -> local_step self = 0%nat ->
  length (step_counter self) = 16%nat ->
  (1 <= length calls <= 16)%nat ->
  sample_many E marched march_rays_train march_rays_train_differentiable calls self
    = Some (log, self_k) ->
  update_extra_state E self_k decay ffu ffg full partial = Ok self' ->
  length log = length calls /\
  mean_count self' =
    Z.quot (fold_right Z.add 0%Z (map fst log)) (Z.of_nat (length calls)) /\
  local_step self' = 0%nat.
Proof.
  intros Hcuda Hls Hlen Hk Hs Hup.
  destruct (sample_many_fills_rows E marched march_rays_train
              march_rays_train_differentiable calls self self_k log Hs ltac:(lia) Hlen)
    as [Hlk [Hl16 [Hrows [Hcu _]]]].
  rewrite Hls in Hrows, Hlk. simpl in Hrows, Hlk. rewrite Hlk in Hrows.
  assert (Hlog : length log = length calls).
  { rewrite <- Hrows, length_take. lia. }
  split; [exact Hlog|].
  rewrite (update_extra_state_counts E self_k self' decay ffu ffg full partial Hup)
    by congruence.
  destruct (update_extra_state_inv E self_k self' decay ffu ffg full partial Hup
              ltac:(congruence)) as [_ [_ [_ [_ [_ [Hl0 _]]]]]].
  split; [|exact Hl0].
  rewrite Hlk. replace (Nat.min 16 (length calls)) with (length calls) by lia.
  destruct (Nat.ltb_spec 0 (length calls)) as [_ | Hz]; [|lia].
  unfold mean_steps. rewrite Hrows. reflexivity.
Qed.

End SampleCounts.

(** A marching function that counts 7 samples on 1 ray, and two calls of
    [sample] on one ray. *)
Definition counting_march (input : march_input) : unit * (Z * Z) := (tt, (7, 1)%Z).

Definition one_ray_call : sample_call :=
  {| call_optimize_camera := false;
     call_rays := [[x_ray]];
     call_args := {| dt_gamma := 0; sample_perturb := false; force_all_rays := false;
                     max_steps := 1024 |} |}.

Lemma update_averages_sample_counts_witness :
  exists log self_k self',
    sample_many slab_field unit counting_march counting_march
      [one_ray_call; one_ray_call] two_voxel_renderer = Some (log, self_k) /\
    update_extra_state slab_field self_k 0.95 true false both_voxels [] = Ok self' /\
    length log = length [one_ray_call; one_ray_call] /\
    mean_count self' =
      Z.quot (fold_right Z.add 0%Z (map fst log))
        (Z.of_nat (length [one_ray_call; one_ray_call])) /\
    local_step self' = 0%nat.
Proof.
  assert (Hs : exists log self_k,
             sample_many slab_field unit counting_march counting_march
               [one_ray_call; one_ray_call] two_voxel_renderer = Some (log, self_k) /\
             cuda_ray self_k = true /\ density_grid self_k = [[1; 5]] /\
             iter_density self_k = 0%nat).
  { eexists; eexists. split; [reflexivity | repeat split; reflexivity]. }
  destruct Hs as [log [self_k [Hs [Hcu [Hg Hi]]]]].
  destruct (update_extra_state_total slab_field self_k 0.95 true false both_voxels [])
    as [self' Hup].
  - exact Hcu.
  - rewrite Hg. discriminate.
  - rewrite Hg. unfold chosen_samples. rewrite orb_true_r.
    repeat constructor; unfold in_shape; simpl; lia.
  - exists log, self_k, self'. split; [exact Hs|]. split; [exact Hup|].
    apply (update_averages_sample_counts slab_field unit counting_march counting_march
             [one_ray_call; one_ray_call] two_voxel_renderer self_k self' log
             0.95 true false both_voxels []);
      [ reflexivity | reflexivity | reflexivity | simpl; lia | exact Hs | exact Hup ].
Defined.

End DensityGrid.


(** ** The accelerated path at inference ([run_cuda], lines 319-343 and 397-458) *)

Module RunCuda.

Import NeRFRenderer.

(** The tensors that the inference branch allocates (lines 404-412):
    the three outputs, and the two rows of [rays_alive] and of [rays_t]
    that the loop uses in turn. *)
Record march_buffers : Type := {
  weights_sum : list R;
  out_depth : list R;
  out_image : list vec3;
  rays_alive : list Z * list Z;
  rays_t : list R * list R;
}.

(** [p[k % 2]] and the assignment to it. *)
Definition row {A} (p : A * A) (k : nat) : A := if Nat.even k then fst p else snd p.

Definition set_row {A} (p : A * A) (k : nat) (x : A) : A * A :=
  if Nat.even k then (x, snd p) else (fst p, x).

(** [max(min(N // n_alive, 8), 1)], line 434. *)
Definition compact_steps (N n_alive : Z) : Z := Z.max (Z.min (N / n_alive) 8) 1.

(** The keyword arguments that the inference branch reads. *)
Record cuda_args (euler_t : Type) : Type := {
  dt_gamma : R;
  cuda_bg_color : option vec3;
  cuda_perturb : bool;
  max_steps : Z;
  euler : option euler_t;
  is_gui_mode : option bool;
}.

Arguments dt_gamma {euler_t}.
Arguments cuda_bg_color {euler_t}.
Arguments cuda_perturb {euler_t}.
Arguments max_steps {euler_t}.
Arguments euler {euler_t}.
Arguments is_gui_mode {euler_t}.

Section Inference.

Variable E : externals.

(** The positions and directions, and the intervals, that
    [raymarching.march_rays] returns, and the type of the [euler]
    argument of the field. *)
Variables points deltas_t euler_t : Type.

(** [raymarching.compact_rays(n_alive, alive_a, alive_b, t_a, t_b,
    alive_counter)] returns nothing: it writes the four rows and the
    counter (zeroed before the call). Its answer here is what it leaves
    in them. *)
Variable compact_rays :
  Z -> list Z -> list Z -> list R -> list R -> list Z * list Z * list R * list R * Z.

(** [raymarching.march_rays(n_alive, n_step, rays_alive, rays_t, rays_o,
    rays_d, bound, density_bitfield, cascade, grid_size, nears, fars, 128,
    perturb, dt_gamma, max_steps)] *)
Variable march_rays :
  Z -> Z -> list Z -> list R -> list ray -> R -> list bool -> nat -> nat ->
  list (R * R) -> nat -> bool -> R -> Z -> points * deltas_t.

(** The field: [self(xyzs, dirs, euler=..., is_gui_mode=...)], of which
    the loop uses the densities and the colours. *)
Variable forward : points -> option euler_t -> bool -> list R * list vec3.

(** [raymarching.composite_rays(n_alive, n_step, rays_alive, rays_t,
    sigmas, rgbs, deltas, weights_sum, depth, image)] returns nothing: it
    writes the two rows and the three outputs. *)
Variable composite_rays :
  Z -> Z -> list Z -> list R -> list R -> list vec3 -> deltas_t ->
  list R -> list R -> list vec3 ->
  list Z * list R * list R * list R * list vec3.

(** The [while step < max_steps] loop (lines 416-445). The answer holds
    the buffers and the final values of [step] and [i]. *)
Fixpoint march_loop (fuel : nat) (self : renderer) (a : cuda_args euler_t)
    (rays : list ray) (nears_fars : list (R * R)) (N n_alive step : Z) (i : nat)
    (bufs : march_buffers) : res (march_buffers * Z * nat) :=
  if (step <? max_steps a)%Z then
    match fuel with
    | O => Err OutOfFuel
    | S fuel' =>
        let '(n_alive, bufs) :=
          if (step =? 0)%Z then
            (n_alive,
             {| weights_sum := weights_sum bufs; out_depth := out_depth bufs;
                out_image := out_image bufs;
                rays_alive :=
                  (map Z.of_nat (seq 0 (Z.to_nat n_alive)), snd (rays_alive bufs));
                rays_t := (map fst nears_fars, snd (rays_t bufs)) |})
          else
            let '(alive_a, alive_b, t_a, t_b, alive_counter) :=
              compact_rays n_alive (row (rays_alive bufs) i) (row (rays_alive bufs) (i + 1))
                (row (rays_t bufs) i) (row (rays_t bufs) (i + 1)) in
            (alive_counter,
             {| weights_sum := weights_sum bufs; out_depth := out_depth bufs;
                out_image := out_image bufs;
                rays_alive := set_row (set_row (rays_alive bufs) i alive_a) (i + 1) alive_b;
                rays_t := set_row (set_row (rays_t bufs) i t_a) (i + 1) t_b |}) in
        if (n_alive <=? 0)%Z then Ok (bufs, step, i)
        else
          let n_step := compact_steps N n_alive in
          let '(xyzs_dirs, deltas) :=
            march_rays n_alive n_step (row (rays_alive bufs) i) (row (rays_t bufs) i) rays
              (bound self) (density_bitfield self) (cascade self) (grid_size self)
              nears_fars 128 (cuda_perturb a) (dt_gamma a) (max_steps a) in
          let '(sigmas, rgbs) :=
            forward xyzs_dirs (euler a)
              (match is_gui_mode a with Some b => b | None => true end) in
          let sigmas := map (fun s => density_scale self * s) sigmas in
          let '(alive, t, ws, d, im) :=
            composite_rays n_alive n_step (row (rays_alive bufs) i) (row (rays_t bufs) i)
              sigmas rgbs deltas (weights_sum bufs) (out_depth bufs) (out_image bufs) in
          march_loop fuel' self a rays nears_fars N n_alive (step + n_step) (i + 1)
            {| weights_sum := ws; out_depth := d; out_image := im;
               rays_alive := set_row (rays_alive bufs) i alive;
               rays_t := set_row (rays_t bufs) i t |}
    end
  else Ok (bufs, step, i).

(** Lines 329-331: the interval of every ray. *)
Definition nears_fars_of (self : renderer) (flat : list ray) : list (R * R) :=
  map (fun r => near_far_from_aabb E (fst r) (snd r)
                  (if training self then aabb_train self else aabb_infer self)
                  (min_near self)) flat.

(** Lines 404-412: the buffers as they are allocated, all zero. *)
Definition zero_buffers (N : nat) : march_buffers :=
  {| weights_sum := repeat 0 N; out_depth := repeat 0 N;
     out_image := repeat (0, 0, 0) N;
     rays_alive := (repeat 0%Z N, repeat 0%Z N);
     rays_t := (repeat 0 N, repeat 0 N) |}.

(** [run_cuda] for [self.training = False]. *)
Definition run_cuda_inference (fuel : nat) (self : renderer) (a : cuda_args euler_t)
    (rays : list (list ray)) : res results :=
  let prefix := map length rays in
  let flat := concat rays in
  let N := length flat in
  let nears_fars := nears_fars_of self flat in
  let bg_color :=
    map (fun r =>
           if Rltb 0 (bg_radius self)
           then background E (polar_from_ray E (fst r) (snd r) (bg_radius self)) (snd r)
           else match cuda_bg_color a with
                | None => (1, 1, 1)
                | Some c => c
                end) flat in
  let bufs := zero_buffers N in
  let! looped := march_loop fuel self a flat nears_fars (Z.of_nat N) (Z.of_nat N) 0 0 bufs in
  let '(bufs, _, _) := looped in
  let image :=
    zip_with vadd (out_image bufs)
      (zip_with (fun w bg => vscale (1 - w) bg) (weights_sum bufs) bg_color) in
  Ok {| depth := view_rows prefix (out_depth bufs);
        image := view_rows prefix image;
        mask := BoolTensor (view_rows prefix (map (fun w => Rltb 0.95 w) (weights_sum bufs))) |}.

(** *** Properties of the loop *)

Lemma compact_steps_range (N n_alive : Z) : (1 <= compact_steps N n_alive <= 8)%Z.
Proof. unfold compact_steps. lia. Qed.

(** The loop returns when its fuel covers the steps that are left, after
    at most that many rounds. *)
Lemma march_loop_returns (self : renderer) (a : cuda_args euler_t) (rays : list ray)
    (nears_fars : list (R * R)) (N : Z) (fuel : nat) :
  forall n_alive step i bufs,
    (max_steps a - step <= Z.of_nat fuel)%Z ->
    exists bufs' step' i',
      march_loop fuel self a rays nears_fars N n_alive step i bufs = Ok (bufs', step', i') /\
      (step <= step')%Z /\ (step' <= Z.max step (max_steps a + 7))%Z /\
      (Z.of_nat i' - Z.of_nat i <= Z.max 0 (max_steps a - step))%Z /\
      (Z.of_nat i' - Z.of_nat i <= step' - step)%Z.
Proof.
  induction fuel as [|fuel IH]; intros n_alive step i bufs Hfuel.
  - cbn [march_loop]. destruct (Z.ltb_spec step (max_steps a)) as [Hlt | Hge]; [lia|].
    exists bufs, step, i. split; [reflexivity | lia].
  - cbn [march_loop]. destruct (Z.ltb_spec step (max_steps a)) as [Hlt | Hge].
    2:{ exists bufs, step, i. split; [reflexivity | lia]. }
    destruct (if (step =? 0)%Z then _ else _) as [n_alive' bufs1].
    destruct (Z.leb_spec n_alive' 0) as [Hdead | Halive].
    { exists bufs1, step, i. split; [reflexivity | lia]. }
    pose proof (compact_steps_range N n_alive') as Hn.
    destruct (march_rays _ _ _ _ _ _ _ _ _ _ _ _ _ _) as [xyzs_dirs deltas].
    destruct (forward _ _ _) as [sigmas rgbs].
    destruct (composite_rays _ _ _ _ _ _ _ _ _ _) as [[[[alive t] ws] d] im].
    edestruct (IH n_alive' (step + compact_steps N n_alive')%Z (i + 1)%nat)
      as [bufs' [step' [i' [Hrun [H1 [H2 [H3 H4]]]]]]]; [lia|].
    exists bufs', step', i'. split; [exact Hrun | lia].
Qed.

(** X23. The inference loop of [run_cuda] always ends, whatever the
    extension and the field do: with [max_steps] rounds of fuel the call
    returns; the loop has run at most [max_steps] rounds (it evaluates
    the field at most that often), because every round advances [step] by
    at least 1; and [step] ends below [max_steps + 8]. *)
Theorem inference_loop_terminates (self : renderer) (a : cuda_args euler_t)
    (rays : list (list ray)) (fuel : nat) :
  (max_steps a <= Z.of_nat fuel)%Z ->
  (exists r, run_cuda_inference fuel self a rays = Ok r) /\
  exists bufs step i,
    march_loop fuel self a (concat rays) (nears_fars_of self (concat rays))
      (Z.of_nat (length (concat rays))) (Z.of_nat (length (concat rays))) 0 0
      (zero_buffers (length (concat rays)))
      = Ok (bufs, step, i) /\
    (Z.of_nat i <= Z.max 0 (max_steps a))%Z /\ (Z.of_nat i <= step)%Z /\
    (step <= Z.max 0 (max_steps a + 7))%Z.
Proof.
  intros Hfuel.
  destruct (march_loop_returns self a (concat rays) (nears_fars_of self (concat rays))
              (Z.of_nat (length (concat rays))) fuel
              (Z.of_nat (length (concat rays))) 0%Z 0%nat
              (zero_buffers (length (concat rays))))
    as [bufs [step [i [Hrun [H1 [H2 [H3 H4]]]]]]]; [lia|].
  split.
  - unfold run_cuda_inference. rewrite Hrun. cbn [res_bind].
    destruct bufs as [ws d im al t]. eexists. reflexivity.
  - exists bufs, step, i. split; [exact Hrun | lia].
Qed.

End Inference.

(** An extension that keeps every ray alive and writes nothing, a field
    without density, and four steps at most. *)
Definition idle_compact (n_alive : Z) (alive_a alive_b : list Z) (t_a t_b : list R)
    : list Z * list Z * list R * list R * Z :=
  (alive_a, alive_b, t_a, t_b, n_alive).

Definition idle_march (n_alive n_step : Z) (alive : list Z) (t : list R) (rays : list ray)
    (bound : R) (bitfield : list bool) (cascade grid_size : nat)
    (nears_fars : list (R * R)) (align : nat) (perturb : bool) (dt_gamma : R)
    (max_steps : Z) : unit * unit := (tt, tt).

Definition idle_forward (p : unit) (e : option unit) (gui : bool) : list R * list vec3 :=
  ([], []).

Definition idle_composite (n_alive n_step : Z) (alive : list Z) (t : list R)
    (sigmas : list R) (rgbs : list vec3) (deltas : unit) (ws d : list R) (im : list vec3)
    : list Z * list R * list R * list R * list vec3 :=
  (alive, t, ws, d, im).

Definition four_steps : cuda_args unit :=
  {| dt_gamma := 0; cuda_bg_color := None; cuda_perturb := false; max_steps := 4;
     euler := None; is_gui_mode := None |}.

Lemma inference_loop_terminates_witness :
  (exists r,
     run_cuda_inference slab_field unit unit unit idle_compact idle_march idle_forward
       idle_composite 4 slab_renderer_eval four_steps [[x_ray]] = Ok r) /\
  exists bufs step i,
    march_loop unit unit unit idle_compact idle_march idle_forward idle_composite
      4 slab_renderer_eval four_steps (concat [[x_ray]])
      (nears_fars_of slab_field slab_renderer_eval (concat [[x_ray]]))
      (Z.of_nat (length (concat [[x_ray]]))) (Z.of_nat (length (concat [[x_ray]]))) 0 0
      (zero_buffers (length (concat [[x_ray]])))
      = Ok (bufs, step, i) /\
    (Z.of_nat i <= Z.max 0 (max_steps four_steps))%Z /\ (Z.of_nat i <= step)%Z /\
    (step <= Z.max 0 (max_steps four_steps + 7))%Z.
Proof.
  apply (inference_loop_terminates slab_field unit unit unit idle_compact idle_march
           idle_forward idle_composite slab_renderer_eval four_steps [[x_ray]] 4).
  simpl. lia.
Defined.

(** X24. The number of steps that one round of the inference loop
    marches: between 1 and 8 whatever the count of live rays; 1 as long
    as more than half of the [N] rays are alive; 8 as soon as at most an
    eighth of them is. The floor division never divides by zero, since
    the loop has left when no ray is alive. *)
Theorem compact_steps_schedule (N n_alive : Z) :
  (0 < n_alive)%Z ->
  (1 <= compact_steps N n_alive <= 8)%Z /\
  ((N < 2 * n_alive)%Z -> (0 <= N)%Z -> compact_steps N n_alive = 1%Z) /\
  ((8 * n_alive <= N)%Z -> compact_steps N n_alive = 8%Z).
Proof.
  intros Hn. split; [apply compact_steps_range|]. unfold compact_steps. split.
  - intros Hhalf HN.
    assert (N / n_alive < 2)%Z by (apply Z.div_lt_upper_bound; lia).
    assert (0 <= N / n_alive)%Z by (apply Z.div_pos; lia). lia.
  - intros Heighth.
    assert (8 <= N / n_alive)%Z by (apply Z.div_le_lower_bound; lia). lia.
Qed.

Lemma compact_steps_schedule_witness :
  (1 <= compact_steps 4096 300 <= 8)%Z /\
  ((4096 < 2 * 300)%Z -> (0 <= 4096)%Z -> compact_steps 4096 300 = 1%Z) /\
  ((8 * 300 <= 4096)%Z -> compact_steps 4096 300 = 8%Z).
Proof. apply (compact_steps_schedule 4096 300). lia. Defined.

End RunCuda.


(** ** Display modes and the camera regulariser (renderer.py lines 112-146) *)

Module RendererControls.

(** *** [switch_visual_mode] and [switch_light_mode] (lines 134-146) *)

(** What the two methods can raise: [AttributeError] when the current id
    was never set, [ZeroDivisionError] for the modulo by an empty list of
    modes, and [IndexError] for an id outside the list. *)
Inductive control_error : Type :=
| AttributeError
| ModuloByZero
| ModeIndexError.

(** A Python subscript [l[i]]: a negative index counts from the end. *)
Definition py_index {A} (l : list A) (i : Z) : option A :=
  let n := Z.of_nat (length l) in
  if (0 <=? i)%Z then nth_error l (Z.to_nat i)
  else if (- n <=? i)%Z then nth_error l (Z.to_nat (n + i))
  else None.

Section Modes.

Variable mode : Type.

(** The three attributes that one of the methods works on: the list of
    modes, the current id and the current mode. The constructor sets the
    list only (to the empty list): the other two are [None] until they
    are assigned. *)
Record mode_slot : Type := {
  modes : list mode;
  mode_id : option Z;
  current_mode : option mode;
}.

(** [visual_modes], [visual_mode_id], [visual_mode], and the same for
    the light modes. *)
Record mode_fields : Type := {
  visual : mode_slot;
  light_visual : mode_slot;
}.

(** The body that the two methods share, on the attributes of one of
    them. The id is stored before the list is subscripted, so a call that
    raises [IndexError] has already changed it. *)
Definition switch_slot (s : mode_slot) (requested : option Z)
    : mode_slot * (control_error + mode) :=
  let chosen : control_error + Z :=
    match requested with
    | Some m => inr m
    | None =>
        match mode_id s with
        | None => inl AttributeError
        | Some id =>
            if (length (modes s) =? 0)%nat then inl ModuloByZero
            else inr ((id + 1) mod Z.of_nat (length (modes s)))%Z
        end
    end in
  match chosen with
  | inl e => (s, inl e)
  | inr m =>
      let s := {| modes := modes s; mode_id := Some m; current_mode := current_mode s |} in
      match py_index (modes s) m with
      | None => (s, inl ModeIndexError)
      | Some md =>
          ({| modes := modes s; mode_id := mode_id s; current_mode := Some md |}, inr md)
      end
  end.

Definition switch_visual_mode (self : mode_fields) (requested : option Z)
    : mode_fields * (control_error + mode) :=
  let '(s, r) := switch_slot (visual self) requested in
  ({| visual := s; light_visual := light_visual self |}, r).

Definition switch_light_mode (self : mode_fields) (requested : option Z)
    : mode_fields * (control_error + mode) :=
  let '(s, r) := switch_slot (light_visual self) requested in
  ({| visual := visual self; light_visual := s |}, r).

(** [k] calls without argument, each on the state the previous one left,
    with their answers. *)
Fixpoint switch_visual_times (k : nat) (self : mode_fields)
    : mode_fields * list (control_error + mode) :=
  match k with
  | O => (self, [])
  | S k' =>
      let '(self1, r) := switch_visual_mode self None in
      let '(self2, rs) := switch_visual_times k' self1 in
      (self2, r :: rs)
  end.

Fixpoint switch_light_times (k : nat) (self : mode_fields)
    : mode_fields * list (control_error + mode) :=
  match k with
  | O => (self, [])
  | S k' =>
      let '(self1, r) := switch_light_mode self None in
      let '(self2, rs) := switch_light_times k' self1 in
      (self2, r :: rs)
  end.

Fixpoint switch_slot_times (k : nat) (s : mode_slot)
    : mode_slot * list (control_error + mode) :=
  match k with
  | O => (s, [])
  | S k' =>
      let '(s1, r) := switch_slot s None in
      let '(s2, rs) := switch_slot_times k' s1 in
      (s2, r :: rs)
  end.

Definition returned (r : control_error + mode) : Prop := exists md, r = inr md.

Lemma py_index_in_range {A} (l : list A) (i : Z) :
  (0 <= i < Z.of_nat (length l))%Z ->
  exists x, py_index l i = Some x /\ nth_error l (Z.to_nat i) = Some x.
Proof.
  intros Hi. unfold py_index. destruct (Z.leb_spec 0 i) as [_ | Hneg]; [|lia].
  destruct (nth_error l (Z.to_nat i)) as [x|] eqn:E; [exists x; split; reflexivity|].
  apply nth_error_None in E. lia.
Qed.

(** One default switch on a slot with an id and a non-empty list. *)
Lemma switch_slot_default (s : mode_slot) (id : Z) :
  mode_id s = Some id -> modes s <> [] ->
  exists md,
    let id' := ((id + 1) mod Z.of_nat (length (modes s)))%Z in
    switch_slot s None =
      ({| modes := modes s; mode_id := Some id'; current_mode := Some md |}, inr md) /\
    nth_error (modes s) (Z.to_nat id') = Some md.
Proof.
  intros Hid Hne. unfold switch_slot. rewrite Hid.
  destruct (Nat.eqb_spec (length (modes s)) 0) as [E | Hn].
  { apply length_zero_iff_nil in E. contradiction. }
  cbn [modes mode_id current_mode].
  destruct (py_index_in_range (modes s) ((id + 1) mod Z.of_nat (length (modes s)))%Z)
    as [md [Hmd Hnth]].
  { apply Z.mod_pos_bound. lia. }
  rewrite Hmd. exists md. split; [reflexivity | exact Hnth].
Qed.

(** [k + 1] default switches on a slot with an id and a non-empty list. *)
Lemma switch_slot_cycle (k : nat) (s : mode_slot) (id : Z) :
  mode_id s = Some id -> modes s <> [] ->
  let n := Z.of_nat (length (modes s)) in
  let id' := ((id + Z.of_nat (S k)) mod n)%Z in
  modes (fst (switch_slot_times (S k) s)) = modes s /\
  mode_id (fst (switch_slot_times (S k) s)) = Some id' /\
  current_mode (fst (switch_slot_times (S k) s)) = nth_error (modes s) (Z.to_nat id') /\
  Forall returned (snd (switch_slot_times (S k) s)) /\
  length (snd (switch_slot_times (S k) s)) = S k.
Proof.
  revert s id. induction k as [|k IH]; intros s id Hid Hne n id'.
  - destruct (switch_slot_default s id Hid Hne) as [md [Hsw Hnth]]. cbn zeta in Hsw, Hnth.
    cbn [switch_slot_times]. rewrite Hsw. cbn [fst snd modes mode_id current_mode length].
    subst id' n. change (Z.of_nat 1) with 1%Z.
    repeat split; [symmetry; exact Hnth | repeat constructor; exists md; reflexivity].
  - destruct (switch_slot_default s id Hid Hne) as [md [Hsw Hnth]]. cbn zeta in Hsw, Hnth.
    change (switch_slot_times (S (S k)) s)
      with (let '(s1, r) := switch_slot s None in
            let '(s2, rs) := switch_slot_times (S k) s1 in (s2, r :: rs)).
    rewrite Hsw. fold n in Hsw, Hnth |- *.
    set (s1 := {| modes := modes s; mode_id := Some ((id + 1) mod n)%Z;
                  current_mode := Some md |}).
    destruct (IH s1 ((id + 1) mod n)%Z eq_refl Hne) as [Hm [Hi [Hc [Hr Hl]]]].
    cbn [modes s1] in Hm, Hi, Hc. fold n in Hi, Hc.
    destruct (switch_slot_times (S k) s1) as [s2 rs]. cbn [fst snd] in *.
    assert (Hmod : (((id + 1) mod n + Z.of_nat (S k)) mod n = id')%Z).
    { subst id'. rewrite Zplus_mod_idemp_l. f_equal. lia. }
    rewrite Hmod in Hi, Hc.
    split; [exact Hm|]. split; [exact Hi|]. split; [exact Hc|]. split.
    + constructor; [exists md; reflexivity | exact Hr].
    + cbn [length]. lia.
Qed.

Lemma switch_visual_times_slot (k : nat) (self : mode_fields) :
  switch_visual_times k self =
  ({| visual := fst (switch_slot_times k (visual self)); light_visual := light_visual self |},
   snd (switch_slot_times k (visual self))).
Proof.
  revert self. induction k as [|k IH]; intros self.
  - destruct self; reflexivity.
  - cbn [switch_visual_times switch_slot_times]. unfold switch_visual_mode.
    destruct (switch_slot (visual self) None) as [s1 r]. rewrite IH. cbn [visual light_visual].
    destruct (switch_slot_times k s1) as [s2 rs]. reflexivity.
Qed.

Lemma switch_light_times_slot (k : nat) (self : mode_fields) :
  switch_light_times k self =
  ({| visual := visual self; light_visual := fst (switch_slot_times k (light_visual self)) |},
   snd (switch_slot_times k (light_visual self))).
Proof.
  revert self. induction k as [|k IH]; intros self.
  - destruct self; reflexivity.
  - cbn [switch_light_times switch_slot_times]. unfold switch_light_mode.
    destruct (switch_slot (light_visual self) None) as [s1 r]. rewrite IH.
    cbn [visual light_visual].
    destruct (switch_slot_times k s1) as [s2 rs]. reflexivity.
Qed.

(** X25. Switching without an argument cycles through the modes. With a
    current id [id] (in range or not) and a non-empty list of [n] modes,
    [k >= 1] calls of [switch_visual_mode()] all return a mode, leave the
    id [(id + k) mod n], which is in range, and the mode at that id, and
    touch nothing of the light modes; so [n] calls from an id in range
    come back to it. The same holds for [switch_light_mode]. *)
Theorem default_switch_cycles (k : nat) (self : mode_fields) (id : Z) :
  (1 <= k)%nat ->
  (mode_id (visual self) = Some id -> modes (visual self) <> [] ->
   let n := Z.of_nat (length (modes (visual self))) in
   let self' := fst (switch_visual_times k self) in
   mode_id (visual self') = Some ((id + Z.of_nat k) mod n)%Z /\
   (0 <= (id + Z.of_nat k) mod n < n)%Z /\
   current_mode (visual self')
     = nth_error (modes (visual self)) (Z.to_nat ((id + Z.of_nat k) mod n)) /\
   modes (visual self') = modes (visual self) /\
   light_visual self' = light_visual self /\
   Forall returned (snd (switch_visual_times k self)) /\
   ((0 <= id < n)%Z -> Z.of_nat k = n -> mode_id (visual self') = Some id)) /\
  (mode_id (light_visual self) = Some id -> modes (light_visual self) <> [] ->
   let n := Z.of_nat (length (modes (light_visual self))) in
   let self' := fst (switch_light_times k self) in
   mode_id (light_visual self') = Some ((id + Z.of_nat k) mod n)%Z /\
   (0 <= (id + Z.of_nat k) mod n < n)%Z /\
   current_mode (light_visual self')
     = nth_error (modes (light_visual self)) (Z.to_nat ((id + Z.of_nat k) mod n)) /\
   modes (light_visual self') = modes (light_visual self) /\
   visual self' = visual self /\
   Forall returned (snd (switch_light_times k self)) /\
   ((0 <= id < n)%Z -> Z.of_nat k = n -> mode_id (light_visual self') = Some id)).
Proof.
  intros Hk. destruct k as [|k]; [lia|]. split.
  - intros Hid Hne n self'.
    destruct (switch_slot_cycle k (visual self) id Hid Hne) as [Hm [Hi [Hc [Hr Hl]]]].
    fold n in Hi, Hc.
    assert (Hn : (0 < n)%Z).
    { subst n. destruct (modes (visual self)); [contradiction | simpl; lia]. }
    subst self'. rewrite switch_visual_times_slot. cbn [fst snd visual light_visual].
    split; [exact Hi|]. split; [apply Z.mod_pos_bound; exact Hn|].
    split; [exact Hc|]. split; [exact Hm|]. split; [reflexivity|]. split; [exact Hr|].
    intros Hrange Hkn. rewrite Hi, Hkn. f_equal.
    rewrite <- (Z.mul_1_l n) at 1. rewrite Z.mod_add by lia. apply Z.mod_small. exact Hrange.
  - intros Hid Hne n self'.
    destruct (switch_slot_cycle k (light_visual self) id Hid Hne) as [Hm [Hi [Hc [Hr Hl]]]].
    fold n in Hi, Hc.
    assert (Hn : (0 < n)%Z).
    { subst n. destruct (modes (light_visual self)); [contradiction | simpl; lia]. }
    subst self'. rewrite switch_light_times_slot. cbn [fst snd visual light_visual].
    split; [exact Hi|]. split; [apply Z.mod_pos_bound; exact Hn|].
    split; [exact Hc|]. split; [exact Hm|]. split; [reflexivity|]. split; [exact Hr|].
    intros Hrange Hkn. rewrite Hi, Hkn. f_equal.
    rewrite <- (Z.mul_1_l n) at 1. rewrite Z.mod_add by lia. apply Z.mod_small. exact Hrange.
Qed.

End Modes.

Arguments modes {mode}.
Arguments mode_id {mode}.
Arguments current_mode {mode}.
Arguments visual {mode}.
Arguments light_visual {mode}.

(** Three visual modes and two light modes, the second one current in
    both. *)
Definition three_modes : mode_fields nat :=
  {| visual := {| modes := [10; 20; 30]%nat; mode_id := Some 1%Z;
                  current_mode := Some 20%nat |};
     light_visual := {| modes := [1; 2]%nat; mode_id := Some 1%Z;
                        current_mode := Some 2%nat |} |}.

Lemma default_switch_cycles_witness :
  (mode_id (visual three_modes) = Some 1%Z -> modes (visual three_modes) <> [] ->
   let n := Z.of_nat (length (modes (visual three_modes))) in
   let self' := fst (switch_visual_times nat 3 three_modes) in
   mode_id (visual self') = Some ((1 + Z.of_nat 3) mod n)%Z /\
   (0 <= (1 + Z.of_nat 3) mod n < n)%Z /\
   current_mode (visual self')
     = nth_error (modes (visual three_modes)) (Z.to_nat ((1 + Z.of_nat 3) mod n)) /\
   modes (visual self') = modes (visual three_modes) /\
   light_visual self' = light_visual three_modes /\
   Forall (returned nat) (snd (switch_visual_times nat 3 three_modes)) /\
   ((0 <= 1 < n)%Z -> Z.of_nat 3 = n -> mode_id (visual self') = Some 1%Z)) /\
  (mode_id (light_visual three_modes) = Some 1%Z -> modes (light_visual three_modes) <> [] ->
   let n := Z.of_nat (length (modes (light_visual three_modes))) in
   let self' := fst (switch_light_times nat 3 three_modes) in
   mode_id (light_visual self') = Some ((1 + Z.of_nat 3) mod n)%Z /\
   (0 <= (1 + Z.of_nat 3) mod n < n)%Z /\
   current_mode (light_visual self')
     = nth_error (modes (light_visual three_modes)) (Z.to_nat ((1 + Z.of_nat 3) mod n)) /\
   modes (light_visual self') = modes (light_visual three_modes) /\
   visual self' = visual three_modes /\
   Forall (returned nat) (snd (switch_light_times nat 3 three_modes)) /\
   ((0 <= 1 < n)%Z -> Z.of_nat 3 = n -> mode_id (light_visual self') = Some 1%Z)).
Proof. apply (default_switch_cycles nat 3 three_modes 1). lia. Defined.

(** *** [camera_regularization] and [regular_loss] (lines 112-122) *)

(** The camera corrections ([dRs], [dts] of shape [camera_num, 3], [dfs]
    of shape [camera_num, 2]) and the flag that says whether they exist. *)
Record camera_fields : Type := {
  optimize_camera : bool;
  dRs : list (list R);
  dts : list (list R);
  dfs : list (list R);
}.

(** [t.norm(dim=-1)] of one row, and [t.mean()] of a row of numbers. *)
Definition norm (v : list R) : R := sqrt (Rsum (map (fun x => x * x) v)).

Definition mean (l : list R) : res R := checked_div (Rsum l) (INR (length l)).

Definition camera_regularization (self : camera_fields) : res R :=
  let! f := mean (map norm (dfs self)) in
  let! r := mean (map norm (dRs self)) in
  let! t := mean (map norm (dts self)) in
  Ok (f + r + t * 1e-4).

Definition regular_loss (self : camera_fields) (step : Z) : res R :=
  let loss := 0 in
  if optimize_camera self then
    let! loss_cam := camera_regularization self in
    let weight := if (step >? 2000)%Z then 1e2 else 1e4 in
    Ok (loss + weight * loss_cam)
  else Ok loss.

Lemma Rsum_nonneg (l : list R) : Forall (fun x => 0 <= x) l -> 0 <= Rsum l.
Proof. induction 1 as [|x l Hx Hl IH]; simpl; [lra|]. fold (Rsum l). lra. Qed.

Lemma Rsum_zero_iff (l : list R) :
  Forall (fun x => 0 <= x) l -> (Rsum l = 0 <-> Forall (fun x => x = 0) l).
Proof.
  induction 1 as [|x l Hx Hl IH].
  - split; [constructor | reflexivity].
  - cbn [Rsum fold_right]. fold (Rsum l). pose proof (Rsum_nonneg l Hl) as Hs. split.
    + intros H. constructor; [lra | apply IH; lra].
    + intros H. inversion H; subst. apply IH in H3. lra.
Qed.

Lemma squares_nonneg (v : list R) : Forall (fun x => 0 <= x) (map (fun x => x * x) v).
Proof. induction v as [|x v IH]; cbn [map]; constructor; [nra | exact IH]. Qed.

Lemma norm_nonneg (v : list R) : 0 <= norm v.
Proof. apply sqrt_pos. Qed.

Lemma norm_zero_iff (v : list R) : norm v = 0 <-> Forall (fun x => x = 0) v.
Proof.
  unfold norm. pose proof (squares_nonneg v) as Hsq. split.
  - intros H. apply sqrt_eq_0 in H; [|apply Rsum_nonneg; exact Hsq].
    apply (Rsum_zero_iff _ Hsq) in H.
    clear Hsq. induction v as [|x v IH]; [constructor|].
    cbn [map] in H. inversion H; subst. constructor; [nra | apply IH; assumption].
  - intros H. replace (Rsum (map (fun x => x * x) v)) with 0; [apply sqrt_0|].
    symmetry. apply (Rsum_zero_iff _ Hsq).
    clear Hsq. induction H as [|x v Hx Hv IH]; cbn [map]; constructor; [nra | exact IH].
Qed.

(** The mean of the norms of at least one row: it is computed, it is
    non-negative, and it is 0 exactly when every row is zero. *)
Lemma mean_norm (rows : list (list R)) :
  rows <> [] ->
  exists m, mean (map norm rows) = Ok m /\ 0 <= m /\
            (m = 0 <-> Forall (Forall (fun x => x = 0)) rows).
Proof.
  intros Hne. unfold mean. rewrite length_map.
  assert (Hn : 0 < INR (length rows)).
  { apply lt_0_INR. destruct rows; [contradiction | simpl; lia]. }
  rewrite checked_div_ok by lra. eexists. split; [reflexivity|].
  assert (Hnn : Forall (fun x => 0 <= x) (map norm rows)).
  { clear. induction rows; cbn [map]; constructor; [apply norm_nonneg | assumption]. }
  pose proof (Rsum_nonneg _ Hnn) as Hs.
  assert (Hinv : 0 < / INR (length rows)) by (apply Rinv_0_lt_compat; exact Hn).
  split; [unfold Rdiv; apply Rmult_le_pos; lra|].
  split.
  - intros H. assert (H0 : Rsum (map norm rows) = 0).
    { unfold Rdiv in H. apply Rmult_integral in H. destruct H; lra. }
    apply (Rsum_zero_iff _ Hnn) in H0. clear - H0.
    induction rows as [|v rows IH]; [constructor|].
    cbn [map] in H0. inversion H0; subst.
    constructor; [apply norm_zero_iff; assumption | apply IH; assumption].
  - intros H. assert (H0 : Rsum (map norm rows) = 0).
    { apply (Rsum_zero_iff _ Hnn). clear - H.
      induction H as [|v rows Hv Hr IH]; cbn [map]; constructor;
        [apply norm_zero_iff; exact Hv | exact IH]. }
    rewrite H0. unfold Rdiv. lra.
Qed.

(** X26. The camera regulariser. With at least one camera the loss is
    computed and non-negative; it is 0 exactly when every correction
    ([dfs], [dRs], [dts]) is zero, as the constructor leaves them; up to
    step 2000 it is 100 times what it is after step 2000, for the same
    corrections; and without [optimize_camera] it is 0 at every step. *)
Theorem regular_loss_drops_after_2000 (self : camera_fields) (step step' : Z) :
  optimize_camera self = true ->
  dfs self <> [] -> dRs self <> [] -> dts self <> [] ->
  (step <= 2000 < step')%Z ->
  exists early late,
    regular_loss self step = Ok early /\
    regular_loss self step' = Ok late /\
    early = 100 * late /\ 0 <= late /\
    (late = 0 <->
     Forall (Forall (fun x => x = 0)) (dfs self) /\
     Forall (Forall (fun x => x = 0)) (dRs self) /\
     Forall (Forall (fun x => x = 0)) (dts self)) /\
    regular_loss {| optimize_camera := false; dRs := dRs self; dts := dts self;
                    dfs := dfs self |} step = Ok 0.
Proof.
  intros Hopt Hf Hr Ht Hstep.
  destruct (mean_norm (dfs self) Hf) as [f [Ef [Hf0 Hfz]]].
  destruct (mean_norm (dRs self) Hr) as [r [Er [Hr0 Hrz]]].
  destruct (mean_norm (dts self) Ht) as [t [Et [Ht0 Htz]]].
  unfold regular_loss, camera_regularization. rewrite Hopt, Ef, Er, Et. cbn [res_bind Ok].
  destruct (Z.gtb_spec step 2000) as [Hgt | _]; [lia|].
  destruct (Z.gtb_spec step' 2000) as [_ | Hle]; [|lia].
  eexists; eexists. split; [reflexivity|]. split; [reflexivity|].
  split; [lra|]. split; [nra|]. split; [|reflexivity].
  split.
  - intros H. assert (f = 0 /\ r = 0 /\ t = 0) as [H1 [H2 H3]] by (repeat split; nra).
    split; [apply Hfz; exact H1 | split; [apply Hrz; exact H2 | apply Htz; exact H3]].
  - intros [H1 [H2 H3]]. apply Hfz in H1. apply Hrz in H2. apply Htz in H3. subst. lra.
Qed.

(** One camera with a shifted focal length. *)
Definition one_camera : camera_fields :=
  {| optimize_camera := true; dRs := [[0; 0; 0]]; dts := [[0; 0; 0]]; dfs := [[3; 4]] |}.

Lemma regular_loss_drops_after_2000_witness :
  exists early late,
    regular_loss one_camera 2000 = Ok early /\
    regular_loss one_camera 2001 = Ok late /\
    early = 100 * late /\ 0 <= late /\
    (late = 0 <->
     Forall (Forall (fun x => x = 0)) (dfs one_camera) /\
     Forall (Forall (fun x => x = 0)) (dRs one_camera) /\
     Forall (Forall (fun x => x = 0)) (dts one_camera)) /\
    regular_loss {| optimize_camera := false; dRs := dRs one_camera; dts := dts one_camera;
                    dfs := dfs one_camera |} 2000 = Ok 0.
Proof.
  apply (regular_loss_drops_after_2000 one_camera 2000 2001);
    [reflexivity | discriminate | discriminate | discriminate | lia].
Defined.

End RendererControls.
